(** * scholar_sync: title matching and reconciliation

    A shallow embedding of [scripts/scholar_sync.py]: the title
    normaliser, the CSV row model of [csv.DictReader]/[csv.DictWriter],
    the title index, the exact-then-fuzzy matcher, the comparison loop of
    [main], the in-place [update_scholar_ids] pass, the loaders, the
    missing report and [main] itself, followed by the properties stated
    about them.

    Conventions.
    - A Python [str] is a list of Unicode code points ([list N]).
    - A Python [float] (similarity ratios, the cutoff) is an exact
      rational ([Q]).  The program only compares such values; a ratio is
      one correctly rounded quotient [2.0 * matches / length], and
      rounding is monotone, so the order facts used below hold of the
      floats as well.
    - Exceptions are values of [exn]; code that mutates the loaded CSV
      tables in place is a function from the store to an outcome and the
      store it leaves behind. *)

From Stdlib Require Import QArith.
From stdpp Require Import gmap strings list fin_maps.

Local Open Scope N_scope.

(** ** Python strings *)

Definition str := list N.

(** Code points of an ASCII literal. *)
Fixpoint py (s : string) : str :=
  match s with
  | EmptyString => []
  | String c s' => Ascii.N_of_ascii c :: py s'
  end.

(** [str.isspace] on one code point: the characters [str.strip()] removes. *)
Definition isspace (c : N) : bool :=
  ((9 <=? c) && (c <=? 13)) || ((28 <=? c) && (c <=? 32))
  || (c =? 133) || (c =? 160) || (c =? 5760)
  || ((8192 <=? c) && (c <=? 8202))
  || (c =? 8232) || (c =? 8233) || (c =? 8239) || (c =? 8287) || (c =? 12288).

Fixpoint lstrip (s : str) : str :=
  match s with
  | [] => []
  | c :: s' => if isspace c then lstrip s' else s
  end.

Definition rstrip (s : str) : str := rev (lstrip (rev s)).

(** [s.strip()] *)
Definition strip (s : str) : str := rstrip (lstrip s).

(** [str.lower] on one code point.  ASCII capitals move to their small
    letters.  Exactly two code points outside ASCII lower-case to
    something that contains an ASCII character: U+0130 (to "i" followed
    by U+0307) and U+212A, the Kelvin sign (to "k").  Every other code
    point outside ASCII lower-cases to code points outside ASCII, which
    [normalize_title] deletes whatever they are, so it is left in place
    here. *)
Definition lower_cp (c : N) : str :=
  if (65 <=? c) && (c <=? 90) then [c + 32]
  else if c =? 304 then [105; 775]
  else if c =? 8490 then [107]
  else [c].

(** [s.lower()] *)
Definition lower (s : str) : str := flat_map lower_cp s.

(** [s.replace("&", "and")] *)
Definition replace_amp (s : str) : str :=
  flat_map (fun c => if c =? 38 then [97; 110; 100] else [c]) s.

(** Membership in the character class [[a-z0-9]]. *)
Definition is_az09 (c : N) : bool :=
  ((97 <=? c) && (c <=? 122)) || ((48 <=? c) && (c <=? 57)).

(** [re.sub(r"[^a-z0-9]+", "", s)]: every maximal run of characters
    outside the class is replaced by nothing. *)
Definition sub_non_az09 (s : str) : str := List.filter is_az09 s.

(** [normalize_title] (the argument is always a [str] at its call sites,
    where [value or ""] is [value]). *)
Definition normalize_title (value : str) : str :=
  let value := lower (strip value) in
  let value := replace_amp value in
  sub_non_az09 value.

(** Python truthiness of a string: [if s:]. *)
Definition truthy (s : str) : bool :=
  match s with [] => false | _ => true end.

(** Lexicographic order on strings by code point: [x < y]. *)
Fixpoint str_ltb (x y : str) : bool :=
  match x, y with
  | _, [] => false
  | [], _ :: _ => true
  | c :: x', d :: y' => (c <? d) || ((c =? d) && str_ltb x' y')
  end.

(** ** Exceptions *)

Inductive exn : Set := ValueError | KeyError | IndexError | FileNotFoundError.

(** ** Scholar records *)

Record ScholarPub : Set := {
  title : str;
  scholar_id : str;
  year : str;
  venue : str;
  source : str
}.

(** What a loader reads for one publication: each field as [str(...)]
    of the value found, [None] when the key is absent. *)
Record RawPub : Set := {
  raw_title : option str;
  raw_id : option str;
  raw_year : option str;
  raw_venue : option str;
  raw_source : option str
}.

(** [str(row.get(key, dflt)).strip()] *)
Definition stripped_field (v : option str) (dflt : str) : str :=
  strip (default dflt v).

(** [load_scholar_from_json], once the file is decoded. *)
Definition load_scholar_from_json (data : list RawPub) : list ScholarPub :=
  List.filter (λ p, truthy (title p))
    (map (λ row,
       {| title := stripped_field (raw_title row) [];
          scholar_id := stripped_field (raw_id row) [];
          year := stripped_field (raw_year row) [];
          venue := stripped_field (raw_venue row) [];
          source :=
            let s := stripped_field (raw_source row) (py "json") in
            if truthy s then s else py "json" |})
       data).

(** [load_scholar_live], once the author's publications are fetched
    ([raw_id] is "author_pub_id", the other fields come from "bib"). *)
Definition load_scholar_live (publications : list RawPub) : list ScholarPub :=
  map (λ p,
     {| title := stripped_field (raw_title p) [];
        scholar_id := stripped_field (raw_id p) [];
        year := stripped_field (raw_year p) [];
        venue := stripped_field (raw_venue p) [];
        source := py "live" |})
    (List.filter (λ p, truthy (stripped_field (raw_title p) [])) publications).

(** ** CSV tables

    [csv.reader] hands over a file as a list of rows, each a list of
    fields; that list is what a path holds in the file system here.

    A row dictionary built by [csv.DictReader] has the header names as
    keys, with [str] values, and, when the row is longer than the header,
    the key [None] ([restkey]) holding the list of surplus fields.
    [cells] is the part under [str] keys and [rest] the entry under
    [None]; nothing in the program writes any other kind of key. *)

Definition Path := string.

Record Row := { cells : gmap str str; rest : option (list str) }.

Abbreviation RawCsv := (list (list str)).
Abbreviation FileSystem := (gmap Path RawCsv).
Abbreviation Table := (list str * list Row)%type.
Abbreviation Loaded := (gmap Path Table).

(** [d[k] = v] on the [str] keys of a row. *)
Definition row_set (k v : str) (r : Row) : Row :=
  {| cells := <[k := v]> (cells r); rest := rest r |}.

(** [d.get(k, "")] *)
Definition row_get (k : str) (r : Row) : str := default [] (cells r !! k).

(** [d.setdefault(k, v)], for its effect on [d]. *)
Definition row_setdefault (k v : str) (r : Row) : Row :=
  match cells r !! k with
  | Some _ => r
  | None => row_set k v r
  end.

(** One step of [DictReader.__next__] followed by the comprehension
    [{k: (v or "") for k, v in row.items()}] of [read_csv]:
    [dict(zip(fieldnames, row))], then either the surplus fields under
    [None], or [None] (turned into "" by [v or ""]) under every header
    name the row is too short for. *)
Definition dict_reader_row (fieldnames row : list str) : Row :=
  let d := foldl (λ d kv, <[kv.1 := kv.2]> d) ∅ (zip fieldnames row) in
  let lf := length fieldnames in
  let lr := length row in
  if (lf <? lr)%nat then {| cells := d; rest := Some (drop lf row) |}
  else {| cells := foldl (λ d key, <[key := []]> d) d (drop lr fieldnames);
          rest := None |}.

(** [DictReader] skips the rows that [csv.reader] yields as [[]]. *)
Definition nonblank (row : list str) : bool :=
  match row with [] => false | _ => true end.

(** [read_csv]: the first row is the header, even when blank; an empty
    file has no header and no rows. *)
Definition read_csv (fs : FileSystem) (path : Path) : exn + Table :=
  match fs !! path with
  | None => inl FileNotFoundError
  | Some [] => inr ([], [])
  | Some (headers :: data) =>
      inr (headers, map (dict_reader_row headers) (List.filter nonblank data))
  end.

(** [DictWriter._dict_to_list] with the default [extrasaction="raise"]
    and [restval=""]. *)
Definition dict_to_list (fieldnames : list str) (rowdict : Row) : exn + list str :=
  if bool_decide (rest rowdict = None ∧
                  Forall (λ k, k ∈ fieldnames) (elements (dom (cells rowdict))))
  then inr (map (λ key, row_get key rowdict) fieldnames)
  else inl ValueError.

(** [DictWriter.writerows]: rows are converted and written one by one; the
    rows written before a failing one stay written. *)
Fixpoint writerows (fieldnames : list str) (rows : list Row)
  : RawCsv * option exn :=
  match rows with
  | [] => ([], None)
  | r :: rows' =>
      match dict_to_list fieldnames r with
      | inl e => ([], Some e)
      | inr fields =>
          let '(out, e) := writerows fieldnames rows' in (fields :: out, e)
      end
  end.

(** [write_csv]: the file is opened for writing (truncated), the header
    row goes first, then the rows; the result is the exception raised, if
    any, and the file system left behind. *)
Definition write_csv (fs : FileSystem) (path : Path)
    (headers : list str) (rows : list Row) : option exn * FileSystem :=
  let '(out, e) := writerows headers rows in
  (e, <[path := headers :: out]> fs).

(** ** The title index

    [by_title] is a dictionary whose key order is observable through
    [list(repo_index.keys())], so it is an association list in insertion
    order. *)

Definition loc := (Path * nat)%type.
Abbreviation Index := (list (str * list loc)).

(** [by_title.setdefault(norm, []).append(l)] *)
Fixpoint setdefault_append (norm : str) (l : loc) (by_title : Index) : Index :=
  match by_title with
  | [] => [(norm, [l])]
  | (k, ls) :: by_title' =>
      if bool_decide (k = norm) then (k, ls ++ [l]) :: by_title'
      else (k, ls) :: setdefault_append norm l by_title'
  end.

(** [repo_index[key]], [None] standing for [KeyError]. *)
Fixpoint index_get (by_title : Index) (key : str) : option (list loc) :=
  match by_title with
  | [] => None
  | (k, ls) :: by_title' =>
      if bool_decide (k = key) then Some ls else index_get by_title' key
  end.

(** [list(repo_index.keys())] *)
Definition index_keys (by_title : Index) : list str := map fst by_title.

(** The loop over [enumerate(rows)] of [build_repo_title_index], started
    at position [idx]. *)
Fixpoint index_rows (path : Path) (idx : nat) (rows : list Row)
    (by_title : Index) : Index :=
  match rows with
  | [] => by_title
  | row :: rows' =>
      let norm := normalize_title (row_get (py "Title") row) in
      index_rows path (S idx) rows'
        (if truthy norm then setdefault_append norm (path, idx) by_title
         else by_title)
  end.

(** The loop over [csv_files] of [build_repo_title_index]. *)
Fixpoint build_loop (fs : FileSystem) (csv_files : list Path)
    (by_title : Index) (loaded : Loaded) : exn + (Index * Loaded) :=
  match csv_files with
  | [] => inr (by_title, loaded)
  | path :: csv_files' =>
      match read_csv fs path with
      | inl e => inl e
      | inr (headers, rows) =>
          let loaded := <[path := (headers, rows)]> loaded in
          if bool_decide (py "Title" ∈ headers)
          then build_loop fs csv_files' (index_rows path 0 rows by_title) loaded
          else build_loop fs csv_files' by_title loaded
      end
  end.

Definition build_repo_title_index (fs : FileSystem) (csv_files : list Path)
  : exn + (Index * Loaded) :=
  build_loop fs csv_files [] ∅.

(** ** difflib: similarity ratios

    [get_close_matches(word, possibilities, n, cutoff)] scores every
    candidate [x] with a [SequenceMatcher] whose first sequence is [x]
    and whose second sequence is [word]. *)

(** [_calculate_ratio(matches, length)] *)
Definition calculate_ratio (matches length : nat) : Q :=
  match length with
  | O => 1%Q
  | S _ => (Z.of_nat (2 * matches) # Pos.of_nat length)%Q
  end.

(** [SequenceMatcher.real_quick_ratio] *)
Definition real_quick_ratio (a b : str) : Q :=
  let la := length a in
  let lb := length b in
  calculate_ratio (la `min` lb) (la + lb).

(** [b] without its first occurrence of [x], if it has one. *)
Fixpoint remove_one (x : N) (b : str) : option str :=
  match b with
  | [] => None
  | y :: b' =>
      if bool_decide (x = y) then Some b'
      else cons y <$> remove_one x b'
  end.

(** The match count of [SequenceMatcher.quick_ratio]: the cardinality of
    the intersection of [a] and [b] seen as multisets.  Each element of
    [a] counts when an occurrence of it is still available in [b], and
    uses that occurrence up. *)
Fixpoint quick_total (a b : str) : nat :=
  match a with
  | [] => O
  | x :: a' =>
      match remove_one x b with
      | Some b' => S (quick_total a' b')
      | None => quick_total a' b
      end
  end.

(** [SequenceMatcher.quick_ratio] *)
Definition quick_ratio (a b : str) : Q :=
  calculate_ratio (quick_total a b) (length a + length b).

(** *** The block matcher of [SequenceMatcher]

    [a] is the first sequence (the candidate) and [b] the second (the
    word looked up). *)

(** The positions of [x] in [b], ascending, counted from [j]. *)
Fixpoint indices_from (x : N) (j : nat) (b : str) : list nat :=
  match b with
  | [] => []
  | y :: b' =>
      if bool_decide (x = y) then j :: indices_from x (S j) b'
      else indices_from x (S j) b'
  end.

(** [__chain_b], automatic junk: when the second sequence has 200
    elements or more, an element that occurs more than [n // 100 + 1]
    times is popular. *)
Definition popular (b : str) (x : N) : bool :=
  (200 <=? length b)%nat
  && (length b / 100 + 1 <? length (indices_from x 0 b))%nat.

(** [b2j.get(x, [])]: popular elements have no entry ([isjunk] is
    [None], so nothing is junk). *)
Definition b2j (b : str) (x : N) : list nat :=
  if popular b x then [] else indices_from x 0 b.

(** [j2len.get(j - 1, 0)]; no index precedes 0. *)
Definition j2len_prev (j2len : gmap nat nat) (j : nat) : nat :=
  match j with
  | O => O
  | S j' => default O (j2len !! j')
  end.

(** The inner loop of [find_longest_match] for row [i]: [continue] below
    [blo], [break] from [bhi] on, otherwise record the length [k] of the
    match ending at [(i, j)] and keep it as the best when it is longer. *)
Fixpoint scan_row (js : list nat) (i blo bhi : nat)
    (j2len newj2len : gmap nat nat) (best : nat * nat * nat)
  : gmap nat nat * (nat * nat * nat) :=
  match js with
  | [] => (newj2len, best)
  | j :: js' =>
      if (j <? blo)%nat then scan_row js' i blo bhi j2len newj2len best
      else if (bhi <=? j)%nat then (newj2len, best)
      else
        let k := S (j2len_prev j2len j) in
        scan_row js' i blo bhi j2len (<[j := k]> newj2len)
          (if (best.2 <? k)%nat then (i + 1 - k, j + 1 - k, k)%nat else best)
  end.

(** The outer loop, over the elements [xs] of the first sequence from
    position [i] on. *)
Fixpoint scan_rows (xs : str) (i : nat) (b : str) (blo bhi : nat)
    (j2len : gmap nat nat) (best : nat * nat * nat) : nat * nat * nat :=
  match xs with
  | [] => best
  | x :: xs' =>
      let '(newj2len, best') := scan_row (b2j b x) i blo bhi j2len ∅ best in
      scan_rows xs' (S i) b blo bhi newj2len best'
  end.

(** [a[i] == b[j]], both in range. *)
Definition same_at (a b : str) (i j : nat) : bool :=
  match a !! i, b !! j with
  | Some x, Some y => bool_decide (x = y)
  | _, _ => false
  end.

(** The first [while] loop: extend the best match to the left. *)
Fixpoint extend_left (a b : str) (alo blo besti bestj bestsize : nat)
  : nat * nat * nat :=
  match besti with
  | O => (besti, bestj, bestsize)
  | S i' =>
      if (alo <? besti)%nat && (blo <? bestj)%nat && same_at a b i' (bestj - 1)
      then extend_left a b alo blo i' (bestj - 1) (S bestsize)
      else (besti, bestj, bestsize)
  end.

(** The second [while] loop: extend it to the right; it runs at most
    [ahi - (besti + bestsize)] times, which is the [fuel] given. *)
Fixpoint extend_right (fuel : nat) (a b : str) (ahi bhi besti bestj bestsize : nat)
  : nat :=
  match fuel with
  | O => bestsize
  | S fuel' =>
      if (besti + bestsize <? ahi)%nat && (bestj + bestsize <? bhi)%nat
         && same_at a b (besti + bestsize) (bestj + bestsize)
      then extend_right fuel' a b ahi bhi besti bestj (S bestsize)
      else bestsize
  end.

(** [SequenceMatcher.find_longest_match(alo, ahi, blo, bhi)]; with no
    junk the last two [while] loops do nothing. *)
Definition find_longest_match (a b : str) (alo ahi blo bhi : nat)
  : nat * nat * nat :=
  let best := scan_rows (take (ahi - alo) (drop alo a)) alo b blo bhi ∅ (alo, blo, O) in
  let '(besti, bestj, bestsize) := extend_left a b alo blo best.1.1 best.1.2 best.2 in
  (besti, bestj,
   extend_right (ahi - (besti + bestsize)) a b ahi bhi besti bestj bestsize).

(** [get_matching_blocks], summed: the longest match of a range, then
    the ranges on its left and on its right.  The queue of the library
    visits the same ranges; the order does not change the sum.  Ranges
    shrink at each step, so a [fuel] above the length of the range is
    never used up. *)
Fixpoint blocks_total (fuel : nat) (a b : str) (alo ahi blo bhi : nat) : nat :=
  match fuel with
  | O => O
  | S fuel' =>
      let '(i, j, k) := find_longest_match a b alo ahi blo bhi in
      if (k =? 0)%nat then O
      else
        (k
         + (if (alo <? i)%nat && (blo <? j)%nat
            then blocks_total fuel' a b alo i blo j else O)
         + (if (i + k <? ahi)%nat && (j + k <? bhi)%nat
            then blocks_total fuel' a b (i + k) ahi (j + k) bhi else O))%nat
  end.

(** [sum(triple[-1] for triple in self.get_matching_blocks())] *)
Definition matching_total (a b : str) : nat :=
  blocks_total (S (length a)) a b 0 (length a) 0 (length b).

(** Python's [>] on [(score, candidate)] tuples: the first components
    decide unless they are equal, then the second ones do. *)
Definition tuple_gt (p q : Q * str) : bool :=
  if Qeq_bool p.1 q.1 then str_ltb q.2 p.2
  else negb (Qle_bool p.1 q.1).

(** [max] over a non-empty iterable: an item replaces the current maximum
    only when it is strictly greater. *)
Definition max_from (first : Q * str) (items : list (Q * str)) : Q * str :=
  foldl (λ best item, if tuple_gt item best then item else best) first items.

(** [heapq.nlargest(1, result)] *)
Definition nlargest1 (result : list (Q * str)) : list (Q * str) :=
  match result with
  | [] => []
  | first :: items => [max_from first items]
  end.

(** The running maximum, with [None] before the first item. *)
Definition max_step (acc : option (Q * str)) (item : Q * str) : option (Q * str) :=
  match acc with
  | None => Some item
  | Some best => Some (if tuple_gt item best then item else best)
  end.

(** How the running maxima at cutoffs [c' < c] relate while the
    candidates are scanned: as long as nothing has passed at [c], the
    maximum at [c'] scores below [c]; from then on the two agree. *)
Definition follows (c : Q) (acc acc' : option (Q * str)) : Prop :=
  match acc with
  | None => match acc' with None => True | Some b' => (b'.1 < c)%Q end
  | Some b => acc' = Some b ∧ (c <= b.1)%Q
  end.

Section Matcher.

(** The block matcher in use: the sum of the sizes of
    [SequenceMatcher.get_matching_blocks()] for first sequence [a] and
    second sequence [b].  CPython's is [matching_total]. *)
Variable block_total : str → str → nat.

(** [SequenceMatcher.ratio] *)
Definition ratio (a b : str) : Q :=
  calculate_ratio (block_total a b) (length a + length b).

(** The three tests a candidate passes before it is scored. *)
Definition close_enough (word : str) (cutoff : Q) (x : str) : bool :=
  Qle_bool cutoff (real_quick_ratio x word)
  && Qle_bool cutoff (quick_ratio x word)
  && Qle_bool cutoff (ratio x word).

(** The loop of [get_close_matches] that fills [result]. *)
Fixpoint scored (word : str) (possibilities : list str) (cutoff : Q)
  : list (Q * str) :=
  match possibilities with
  | [] => []
  | x :: possibilities' =>
      if close_enough word cutoff x
      then (ratio x word, x) :: scored word possibilities' cutoff
      else scored word possibilities' cutoff
  end.

(** [difflib.get_close_matches(word, possibilities, n=1, cutoff=cutoff)] *)
Definition get_close_matches (word : str) (possibilities : list str)
    (cutoff : Q) : exn + list str :=
  if negb (Qle_bool 0 cutoff && Qle_bool cutoff 1) then inl ValueError
  else inr (map snd (nlargest1 (scored word possibilities cutoff))).

(** [find_match] *)
Definition find_match (scholar_norm : str) (repo_keys : list str)
    (cutoff : Q) : exn + option str :=
  if bool_decide (scholar_norm ∈ repo_keys) then inr (Some scholar_norm)
  else
    match get_close_matches scholar_norm repo_keys cutoff with
    | inl e => inl e
    | inr maybe => inr (head maybe)
    end.

(** Truthiness of what [find_match] returns: [None] and "" are false. *)
Definition found_truthy (found : option str) : bool :=
  match found with
  | None => false
  | Some s => truthy s
  end.

(** The comparison loop of [main] (the pass that fills [missing] and
    counts [matched]), with its two accumulators. *)
Fixpoint compare_loop (repo_keys : list str) (cutoff : Q)
    (scholar_pubs : list ScholarPub) (missing : list ScholarPub)
    (matched : nat) : exn + (nat * list ScholarPub) :=
  match scholar_pubs with
  | [] => inr (matched, missing)
  | pub :: pubs' =>
      let norm := normalize_title (title pub) in
      if negb (truthy norm) then compare_loop repo_keys cutoff pubs' missing matched
      else
        match find_match norm repo_keys cutoff with
        | inl e => inl e
        | inr found =>
            if found_truthy found
            then compare_loop repo_keys cutoff pubs' missing (S matched)
            else compare_loop repo_keys cutoff pubs' (missing ++ [pub]) matched
        end
  end.

(** The comparison pass of [main]: [(matched, missing)]. *)
Definition compare (scholar_pubs : list ScholarPub) (repo_index : Index)
    (cutoff : Q) : exn + (nat * list ScholarPub) :=
  compare_loop (index_keys repo_index) cutoff scholar_pubs [] O.

(** The body of the loop over [repo_index[match]] in
    [update_scholar_ids], for one location: the number of cells it
    updates (0 or 1), or the exception it raises, and the tables it
    leaves behind. *)
Definition update_row (sid : str) (l : loc) (loaded_csv : Loaded)
  : (exn + nat) * Loaded :=
  match loaded_csv !! l.1 with
  | None => (inl KeyError, loaded_csv)
  | Some (headers, rows) =>
      let '(headers, rows) :=
        if bool_decide (py "Scholar ID" ∈ headers) then (headers, rows)
        else (headers ++ [py "Scholar ID"],
              map (row_setdefault (py "Scholar ID") []) rows) in
      match rows !! l.2 with
      | None => (inl IndexError, <[l.1 := (headers, rows)]> loaded_csv)
      | Some row =>
          let current := strip (row_get (py "Scholar ID") row) in
          if bool_decide (current ≠ sid)
          then (inr 1%nat,
                <[l.1 := (headers,
                          <[l.2 := row_set (py "Scholar ID") sid row]> rows)]>
                  loaded_csv)
          else (inr O, <[l.1 := (headers, rows)]> loaded_csv)
      end
  end.

(** The loop over [repo_index[match]]. *)
Fixpoint update_rows (sid : str) (locs : list loc) (updated_cells : nat)
    (loaded_csv : Loaded) : (exn + nat) * Loaded :=
  match locs with
  | [] => (inr updated_cells, loaded_csv)
  | l :: locs' =>
      match update_row sid l loaded_csv with
      | (inl e, loaded_csv') => (inl e, loaded_csv')
      | (inr n, loaded_csv') =>
          update_rows sid locs' (updated_cells + n) loaded_csv'
      end
  end.

(** The loop over [scholar_pubs]. *)
Fixpoint update_loop (repo_index : Index) (repo_keys : list str)
    (cutoff : Q) (scholar_pubs : list ScholarPub) (updated_cells : nat)
    (loaded_csv : Loaded) : (exn + nat) * Loaded :=
  match scholar_pubs with
  | [] => (inr updated_cells, loaded_csv)
  | p :: pubs' =>
      if negb (truthy (scholar_id p))
      then update_loop repo_index repo_keys cutoff pubs' updated_cells loaded_csv
      else
        match find_match (normalize_title (title p)) repo_keys cutoff with
        | inl e => (inl e, loaded_csv)
        | inr found =>
            if negb (found_truthy found)
            then update_loop repo_index repo_keys cutoff pubs' updated_cells loaded_csv
            else
              match index_get repo_index (default [] found) with
              | None => (inl KeyError, loaded_csv)
              | Some locs =>
                  match update_rows (scholar_id p) locs updated_cells loaded_csv with
                  | (inl e, loaded_csv') => (inl e, loaded_csv')
                  | (inr n, loaded_csv') =>
                      update_loop repo_index repo_keys cutoff pubs' n loaded_csv'
                  end
              end
        end
  end.

(** [update_scholar_ids]: the count it returns, or the exception it
    raises, and the tables after its in-place updates. *)
Definition update_scholar_ids (loaded_csv : Loaded) (repo_index : Index)
    (scholar_pubs : list ScholarPub) (cutoff : Q) : (exn + nat) * Loaded :=
  update_loop repo_index (index_keys repo_index) cutoff scholar_pubs O loaded_csv.

End Matcher.

(** ** Notions used to state the properties *)

(** The record's title has a non-empty normal form. *)
Definition titled (pub : ScholarPub) : bool :=
  truthy (normalize_title (title pub)).

(** [find_match] returns something truthy for the record's title. *)
Definition has_match (bt : str → str → nat) (repo_keys : list str)
    (cutoff : Q) (pub : ScholarPub) : bool :=
  match find_match bt (normalize_title (title pub)) repo_keys cutoff with
  | inr found => found_truthy found
  | inl _ => false
  end.

(** The rows [update_scholar_ids] visits for one record: none unless the
    record carries an identifier and its title is matched. *)
Definition targets (bt : str → str → nat) (repo_index : Index) (cutoff : Q)
    (p : ScholarPub) : list loc :=
  if truthy (scholar_id p) then
    match find_match bt (normalize_title (title p)) (index_keys repo_index) cutoff with
    | inr found =>
        if found_truthy found
        then default [] (index_get repo_index (default [] found))
        else []
    | inl _ => []
    end
  else [].

(** The row at location [l] exists, its table has the identifier column,
    and its identifier, trimmed, is [sid]. *)
Definition holds_id (loaded : Loaded) (l : loc) (sid : str) : Prop :=
  ∃ headers rows row,
    loaded !! l.1 = Some (headers, rows) ∧ py "Scholar ID" ∈ headers ∧
    rows !! l.2 = Some row ∧ strip (row_get (py "Scholar ID") row) = sid.

(** A row keeps its surplus fields, every field it had, and the value of
    every field other than the identifier. *)
Definition row_frame (r r' : Row) : Prop :=
  rest r' = rest r ∧
  (∀ k, is_Some (cells r !! k) → is_Some (cells r' !! k)) ∧
  (∀ k, k ≠ py "Scholar ID" → cells r' !! k = cells r !! k).

(** A table keeps its header, or gains the identifier column at the end,
    and keeps its rows, position by position, up to [row_frame]. *)
Definition table_frame (t t' : Table) : Prop :=
  (t'.1 = t.1 ∨ ((py "Scholar ID" ∉ fst t) ∧ t'.1 = t.1 ++ [py "Scholar ID"])) ∧
  Forall2 row_frame t.2 t'.2.

(** The same paths are loaded, each table up to [table_frame]. *)
Definition frame (loaded loaded' : Loaded) : Prop :=
  ∀ path, option_Forall2 table_frame (loaded !! path) (loaded' !! path).

(** The row has a value under the identifier field. *)
Definition has_sid (r : Row) : Prop := is_Some (cells r !! py "Scholar ID").

(** Well-formed index: keys are non-empty, no entry is empty, and every
    location points to a row of a loaded table with a title column whose
    title normalises to the key. *)
Definition index_wf (by_title : Index) (loaded : Loaded) : Prop :=
  ∀ key locs, (key, locs) ∈ by_title →
    key ≠ [] ∧ locs ≠ [] ∧
    ∀ l, l ∈ locs →
      ∃ headers rows row,
        loaded !! l.1 = Some (headers, rows) ∧ py "Title" ∈ headers ∧
        rows !! l.2 = Some row ∧
        normalize_title (row_get (py "Title") row) = key.

(** The table as [update_row] sees it once the identifier column is
    ensured. *)
Definition ensure_sid (t : Table) : Table :=
  if bool_decide (py "Scholar ID" ∈ t.1) then t
  else (t.1 ++ [py "Scholar ID"], map (row_setdefault (py "Scholar ID") []) t.2).


(** In the table at [path], once the column is in the header every row
    has the field. *)
Definition column_filled (path : Path) (σ : Loaded) : Prop :=
  ∀ t, σ !! path = Some t → py "Scholar ID" ∈ t.1 → Forall has_sid t.2.


(** [l[lo:hi]] *)
Definition slice (l : str) (lo hi : nat) : str := take (hi - lo)%nat (drop lo l).

(** [a[i:i+k] == b[j:j+k]], element by element, all in range. *)
Definition agree (a b : str) (i j k : nat) : Prop :=
  ∀ t, (t < k)%nat → ∃ x, a !! (i + t)%nat = Some x ∧ b !! (j + t)%nat = Some x.

(** A match [(i, j, k)] lies in the ranges searched and is a common block. *)
Definition valid_match (a b : str) (alo ahi blo bhi : nat)
    (m : nat * nat * nat) : Prop :=
  (alo ≤ m.1.1)%nat ∧ (m.1.1 + m.2 ≤ ahi)%nat ∧
  (blo ≤ m.1.2)%nat ∧ (m.1.2 + m.2 ≤ bhi)%nat ∧
  agree a b m.1.1 m.1.2 m.2.

(** What [j2len] holds when row [i] is about to be scanned: under [j], the
    length [k] of a common block that ends just before row [i] and at
    column [j]. *)
Definition row_inv (a b : str) (alo blo bhi i : nat) (j2len : gmap nat nat) : Prop :=
  ∀ j k, j2len !! j = Some k →
    (k ≤ i - alo)%nat ∧ (k ≤ j + 1 - blo)%nat ∧ (j < bhi)%nat ∧
    agree a b (i - k)%nat (j + 1 - k)%nat k.

(** ** Sample data *)

Definition mk_pub (t sid : string) : ScholarPub :=
  {| title := py t; scholar_id := py sid; year := py "2020";
     venue := []; source := py "json" |}.

(** One collection with the two titles of the reference scenario. *)
Definition sample_fs : FileSystem :=
  {[ "pubs.csv" := [ [py "Title"; py "Year"];
                      [py "Graph Coloring Revisited"; py "2020"];
                      [py "Sparse Matrix Inversion"] ] ]}.

Definition sample_feed : list ScholarPub :=
  [ mk_pub "graph coloring revisited!" "abc123";
    mk_pub "Completely Unrelated Paper" "zzz" ].

(** A feed that lists one paper twice, under two identifiers. *)
Definition twice_listed_feed : list ScholarPub :=
  [ mk_pub "Graph Coloring Revisited" "abc123";
    mk_pub "Graph Coloring Revisited" "xyz789" ].

(** A record whose title has no letter or digit. *)
Definition untitled_pub : ScholarPub := mk_pub "?!" "id9".

(** A collection whose only data row has one field more than the header. *)
Definition long_row_fs : FileSystem :=
  {[ "pubs.csv" := [ [py "Title"];
                      [py "Sparse Matrix Inversion"];
                      [py "Graph Coloring Revisited"; py "stray"] ] ]}.

(** What [build_repo_title_index] returns: the index and the tables. *)
Definition built (fs : FileSystem) (csv_files : list Path) : Index * Loaded :=
  match build_repo_title_index fs csv_files with
  | inr r => r
  | inl _ => ([], ∅)
  end.

Definition sample_index : Index := (built sample_fs ["pubs.csv"]).1.
Definition sample_loaded : Loaded := (built sample_fs ["pubs.csv"]).2.
Definition sample_table : Table := default ([], []) (sample_loaded !! "pubs.csv").

(** The tables after one annotation pass over them. *)
Definition annotated (feed : list ScholarPub) : Loaded :=
  (update_scholar_ids matching_total sample_loaded sample_index feed (94 # 100)).2.

Definition annotated_table (feed : list ScholarPub) : Table :=
  default ([], []) (annotated feed !! "pubs.csv").

(** The same title in two collections. *)
Definition two_files_fs : FileSystem :=
  {[ "a.csv" := [ [py "Title"]; [py "Graph Coloring Revisited"] ];
     "b.csv" := [ [py "Year"; py "Title"]; [py "2020"; py "Graph coloring, revisited"] ] ]}.

(** ** The rest of the program *)

(** [export_scholar_json]: the payload written, as [json.loads] gives it
    back: one object per publication, with the five keys present. *)
Definition export_payload (pubs : list ScholarPub) : list RawPub :=
  map (λ p,
     {| raw_title := Some (title p);
        raw_id := Some (scholar_id p);
        raw_year := Some (year p);
        raw_venue := Some (venue p);
        raw_source := Some (source p) |})
    pubs.

(** The fields of a record are trimmed, its title and its source are not
    empty. *)
Definition tidy_pub (p : ScholarPub) : Prop :=
  strip (title p) = title p ∧ title p ≠ [] ∧
  strip (scholar_id p) = scholar_id p ∧
  strip (year p) = year p ∧ strip (venue p) = venue p ∧
  strip (source p) = source p ∧ source p ≠ [].

(** The keys of a row are header names. *)
Definition keys_within (headers : list str) (r : Row) : Prop :=
  ∀ k, is_Some (cells r !! k) → k ∈ headers.


(** The fields [DictWriter] writes for a row. *)
Definition row_fields (headers : list str) (r : Row) : list str :=
  map (λ key, row_get key r) headers.

(** [l] is listed under [key] in the index. *)
Definition indexed (by_title : Index) (key : str) (l : loc) : Prop :=
  ∃ locs, index_get by_title key = Some locs ∧ l ∈ locs.

(** Every location the index lists, key after key. *)
Definition index_locs (by_title : Index) : list loc := concat (map snd by_title).

(** The location names a row of a loaded table. *)
Definition loc_ok (loaded : Loaded) (l : loc) : Prop :=
  ∃ headers rows, loaded !! l.1 = Some (headers, rows) ∧ (l.2 < length rows)%nat.

(** The header names are distinct and every row has a value under each of
    them and under no other name. *)
Definition table_exact (t : Table) : Prop :=
  NoDup t.1 ∧ Forall (λ r, ∀ k, is_Some (cells r !! k) ↔ k ∈ t.1) t.2.

(** The identifiers of a table, row by row ("" where there is none). *)
Definition table_ids (t : Table) : list str := map (row_get (py "Scholar ID")) t.2.

(** The same paths are loaded, with the same identifiers in every row. *)
Definition same_ids (loaded loaded' : Loaded) : Prop :=
  ∀ path, option_Forall2 (λ t t', table_ids t = table_ids t')
            (loaded !! path) (loaded' !! path).

(** The row at [l] is [r], or [r] with an empty identifier added. *)
Definition row_kept (loaded : Loaded) (l : loc) (r : Row) : Prop :=
  ∃ headers rows r',
    loaded !! l.1 = Some (headers, rows) ∧ rows !! l.2 = Some r' ∧
    (r' = r ∨ r' = row_setdefault (py "Scholar ID") [] r).

(** No row of the table has surplus fields, and the keys of every row are
    header names. *)
Definition table_plain (t : Table) : Prop :=
  Forall (λ r, rest r = None ∧ keys_within t.1 r) t.2.

(** *** Reports and [main] *)

(** The [fieldnames] of the missing report. *)
Definition report_fields : list str :=
  [py "scholar_id"; py "title"; py "year"; py "venue"; py "source"].

(** The dictionary [write_missing_report] hands to [writerow] for one
    record. *)
Definition report_row (p : ScholarPub) : Row :=
  {| cells := <[py "scholar_id" := scholar_id p]>
                (<[py "title" := title p]>
                   (<[py "year" := year p]>
                      (<[py "venue" := venue p]>
                         (<[py "source" := source p]> ∅))));
     rest := None |}.

(** [write_missing_report]: the header, then one [writerow] per record. *)
Definition write_missing_report (fs : FileSystem) (path : Path)
    (missing : list ScholarPub) : option exn * FileSystem :=
  write_csv fs path report_fields (map report_row missing).

(** [read_csv_files], given [sorted(glob.glob(pattern))]: the matches that
    are files. *)
Definition read_csv_files (fs : FileSystem) (matches : list Path) : list Path :=
  List.filter (λ p, bool_decide (is_Some (fs !! p))) matches.

(** The order of [loaded_csv.items()]: the paths in the order in which
    they were first listed. *)
Fixpoint dict_order (csv_files : list Path) : list Path :=
  match csv_files with
  | [] => []
  | path :: csv_files' =>
      path :: List.filter (λ q, negb (bool_decide (q = path))) (dict_order csv_files')
  end.

(** The loop of [main] that rewrites the collections which have the
    identifier column, over the paths in the order of the dictionary. *)
Fixpoint write_back (paths : list Path) (loaded_csv : Loaded) (fs : FileSystem)
  : option exn * FileSystem :=
  match paths with
  | [] => (None, fs)
  | path :: paths' =>
      match loaded_csv !! path with
      | None => write_back paths' loaded_csv fs
      | Some (headers, rows) =>
          if bool_decide (py "Scholar ID" ∈ headers) then
            match write_csv fs path headers rows with
            | (Some e, fs') => (Some e, fs')
            | (None, fs') => write_back paths' loaded_csv fs'
            end
          else write_back paths' loaded_csv fs
      end
  end.

(** The command line, as [parse_args] returns it. *)
Record Args := {
  user_id : str;
  scholar_json : Path;
  csv_glob : string;
  export_json : Path;
  missing_report : Path;
  update_scholar_id : bool;
  fuzzy_cutoff : Q
}.

(** What the outside answers: the sorted matches of a glob pattern, and
    the publications of a Scholar profile or the exception that the fetch
    (or the import of the library) raises. *)
Record Env := {
  glob_sorted : string → list Path;
  fetch : str → exn + list RawPub
}.

(** The files.  [csvs] holds the tables and the report, as the rows
    [csv.reader] parses them into; [jsons] holds the feed and export files,
    each as the list of objects [json.loads] decodes it to.  Opening and
    writing a file succeed, a feed file that exists decodes to a list of
    objects, and the export is not one of the tables: runs in which the
    operating system refuses a file, [json.loads] or a record raises, or
    the export path is also read as a table are not represented. *)
Record World := {
  csvs : FileSystem;
  jsons : gmap Path (list RawPub)
}.

(** How a run ends: [main] returns an exit code, or an exception escapes
    it. *)
Inductive outcome := Exit (code : nat) | Uncaught (e : exn).

(** The call [load_scholar_live(args.user_id)]. *)
Definition fetch_scholar_live (env : Env) (uid : str) : exn + list ScholarPub :=
  if truthy uid then
    match fetch env uid with
    | inl e => inl e
    | inr publications => inr (load_scholar_live publications)
    end
  else inl ValueError.

(** The first part of [main]: the feed, or the exit code when it cannot
    be had, and the files after the export of a live fetch. *)
Definition load_feed (args : Args) (env : Env) (w : World)
  : (nat + list ScholarPub) * World :=
  if bool_decide (scholar_json args ≠ "") then
    match jsons w !! scholar_json args with
    | None => (inl 2%nat, w)
    | Some data => (inr (load_scholar_from_json data), w)
    end
  else
    match fetch_scholar_live env (user_id args) with
    | inl _ => (inl 2%nat, w)
    | inr scholar_pubs =>
        (inr scholar_pubs,
         {| csvs := csvs w;
            jsons := <[export_json args := export_payload scholar_pubs]> (jsons w) |})
    end.

(** [main], without what it prints. *)
Definition main (bt : str → str → nat) (args : Args) (env : Env) (w : World)
  : outcome * World :=
  match load_feed args env w with
  | (inl code, w) => (Exit code, w)
  | (inr scholar_pubs, w) =>
      match scholar_pubs with
      | [] => (Exit 0, w)
      | _ :: _ =>
          match read_csv_files (csvs w) (glob_sorted env (csv_glob args)) with
          | [] => (Exit 2, w)
          | csv_files =>
              match build_repo_title_index (csvs w) csv_files with
              | inl e => (Uncaught e, w)
              | inr (repo_index, loaded_csv) =>
                  match compare bt scholar_pubs repo_index (fuzzy_cutoff args) with
                  | inl e => (Uncaught e, w)
                  | inr (matched, missing) =>
                      match write_missing_report (csvs w) (missing_report args) missing with
                      | (Some e, fs) => (Uncaught e, {| csvs := fs; jsons := jsons w |})
                      | (None, fs) =>
                          if update_scholar_id args then
                            match update_scholar_ids bt loaded_csv repo_index
                                    scholar_pubs (fuzzy_cutoff args) with
                            | (inl e, _) => (Uncaught e, {| csvs := fs; jsons := jsons w |})
                            | (inr _, loaded_csv') =>
                                match write_back (dict_order csv_files) loaded_csv' fs with
                                | (Some e, fs') =>
                                    (Uncaught e, {| csvs := fs'; jsons := jsons w |})
                                | (None, fs') =>
                                    (Exit 0, {| csvs := fs'; jsons := jsons w |})
                                end
                            end
                          else (Exit 0, {| csvs := fs; jsons := jsons w |})
                      end
                  end
              end
          end
      end
  end.

(** No data row of the file is longer than its header row. *)
Definition file_plain (raw : RawCsv) : Prop :=
  match raw with
  | [] => True
  | headers :: data => Forall (λ row, (length row ≤ length headers)%nat) data
  end.

(** The fields of the report for one record. *)
Definition report_line (p : ScholarPub) : list str :=
  [scholar_id p; title p; year p; venue p; source p].

(** The header names of the file are distinct. *)
Definition file_distinct (raw : RawCsv) : Prop := NoDup (default [] (head raw)).

(** *** A sample run *)

Definition sample_args : Args :=
  {| user_id := [];
     scholar_json := "feed.json";
     csv_glob := "*.csv";
     export_json := "reports/scholar-publications.json";
     missing_report := "reports/scholar-missing.csv";
     update_scholar_id := true;
     fuzzy_cutoff := 94 # 100 |}.

Definition sample_env : Env :=
  {| glob_sorted := λ pattern, if String.eqb pattern "*.csv" then ["pubs.csv"] else [];
     fetch := λ _, inl ValueError |}.

Definition sample_world : World :=
  {| csvs := sample_fs;
     jsons := {[ "feed.json" := export_payload sample_feed ]} |}.


(** Two collections, one title each. *)
Definition split_fs : FileSystem :=
  {[ "a.csv" := [ [py "Title"]; [py "Graph Coloring Revisited"] ];
     "b.csv" := [ [py "Title"]; [py "Sparse Matrix Inversion"] ] ]}.

Definition split_index : Index := (built split_fs ["a.csv"; "b.csv"]).1.
Definition split_loaded : Loaded := (built split_fs ["a.csv"; "b.csv"]).2.

(** The rows of the long-row collection, as [read_csv] returns them. *)
Definition short_row : Row := dict_reader_row [py "Title"] [py "Sparse Matrix Inversion"].
Definition long_row : Row :=
  dict_reader_row [py "Title"] [py "Graph Coloring Revisited"; py "stray"].
(** ** Normaliser: examples and lemmas *)

Example normalize_ai_ml :
  normalize_title (py "AI & ML 2024") = py "aiandml2024".
Proof. reflexivity. Qed.

Example normalize_case_symbol :
  normalize_title (py "AI & ML") = normalize_title (py "ai and ml").
Proof. reflexivity. Qed.

Example normalize_trims :
  normalize_title (py "  Graph Coloring Revisited! ") = py "graphcoloringrevisited".
Proof. reflexivity. Qed.

Example normalize_kelvin : normalize_title [8490; 304] = [107; 105].
Proof. reflexivity. Qed.

(** Boolean tests on code points, read as linear arithmetic. *)
Ltac cp_arith :=
  rewrite ?orb_true_iff, ?andb_true_iff, ?orb_false_iff, ?andb_false_iff,
    ?N.leb_le, ?N.eqb_eq, ?N.leb_gt, ?N.eqb_neq in *; lia.

Lemma is_az09_not_space c : is_az09 c = true → isspace c = false.
Proof. unfold is_az09, isspace. intros H. cp_arith. Qed.

Lemma sub_non_az09_all s : Forall (λ c, is_az09 c = true) (sub_non_az09 s).
Proof.
  unfold sub_non_az09. induction s as [|c s IH]; simpl; [constructor|].
  destruct (is_az09 c) eqn:E; auto.
Qed.

Lemma normalize_title_az09 x : Forall (λ c, is_az09 c = true) (normalize_title x).
Proof. apply sub_non_az09_all. Qed.

Lemma lstrip_az09 s : Forall (λ c, is_az09 c = true) s → lstrip s = s.
Proof.
  destruct 1 as [|c s Hc _]; simpl; [done|].
  by rewrite (is_az09_not_space c Hc).
Qed.

Lemma strip_az09 s : Forall (λ c, is_az09 c = true) s → strip s = s.
Proof.
  intros H. unfold strip, rstrip. rewrite (lstrip_az09 s H).
  rewrite lstrip_az09; [apply rev_involutive|].
  by apply Forall_rev.
Qed.

Lemma lower_az09 s : Forall (λ c, is_az09 c = true) s → lower s = s.
Proof.
  unfold lower. induction 1 as [|c s Hc _ IH]; simpl; [done|].
  rewrite IH. assert (lower_cp c = [c]) as ->; [|done].
  unfold lower_cp. unfold is_az09 in Hc.
  destruct ((65 <=? c) && (c <=? 90)) eqn:E1; [cp_arith|].
  destruct (c =? 304) eqn:E2; [cp_arith|].
  destruct (c =? 8490) eqn:E3; [cp_arith|done].
Qed.

Lemma replace_amp_az09 s : Forall (λ c, is_az09 c = true) s → replace_amp s = s.
Proof.
  unfold replace_amp. induction 1 as [|c s Hc _ IH]; simpl; [done|].
  rewrite IH.
  unfold is_az09 in Hc. destruct (c =? 38) eqn:E; [cp_arith|done].
Qed.

Lemma sub_non_az09_id s : Forall (λ c, is_az09 c = true) s → sub_non_az09 s = s.
Proof.
  unfold sub_non_az09. induction 1 as [|c s Hc _ IH]; simpl; [done|].
  by rewrite Hc, IH.
Qed.

Lemma normalize_title_fixed s :
  Forall (λ c, is_az09 c = true) s → normalize_title s = s.
Proof.
  intros H. unfold normalize_title.
  by rewrite strip_az09, lower_az09, replace_amp_az09, sub_non_az09_id.
Qed.

(** C7. Normalising is idempotent: for every string [x],
    [normalize_title (normalize_title x) = normalize_title x], where
    [normalize_title] trims, lower-cases, replaces every "&" by "and" and
    removes every character that is not an ASCII letter or digit. *)
Theorem normalize_title_idempotent (x : str) :
  normalize_title (normalize_title x) = normalize_title x.
Proof. apply normalize_title_fixed, normalize_title_az09. Qed.

(** ** Trimming *)

Lemma lstrip_snoc s c : isspace c = false → lstrip (s ++ [c]) = lstrip s ++ [c].
Proof.
  intros Hc. induction s as [|d s IH]; simpl; [by rewrite Hc|].
  by destruct (isspace d).
Qed.

Lemma lstrip_head s :
  lstrip s = [] ∨ ∃ c s', lstrip s = c :: s' ∧ isspace c = false.
Proof.
  induction s as [|c s IH]; simpl; [by left|].
  destruct (isspace c) eqn:E; [done|]. right. by exists c, s.
Qed.

Lemma rstrip_cons c s : isspace c = false → rstrip (c :: s) = c :: rstrip s.
Proof.
  intros Hc. unfold rstrip. simpl. rewrite lstrip_snoc by done.
  by rewrite rev_app_distr.
Qed.

Lemma lstrip_idempotent s : lstrip (lstrip s) = lstrip s.
Proof.
  destruct (lstrip_head s) as [->|(c & s' & -> & Hc)]; simpl; [done|].
  by rewrite Hc.
Qed.

Lemma rstrip_idempotent s : rstrip (rstrip s) = rstrip s.
Proof. unfold rstrip. by rewrite rev_involutive, lstrip_idempotent. Qed.

(** A trimmed string is left alone by a second trim. *)
Lemma strip_idempotent s : strip (strip s) = strip s.
Proof.
  unfold strip. destruct (lstrip_head s) as [->|(c & s' & -> & Hc)]; [done|].
  rewrite rstrip_cons by done. simpl. rewrite Hc.
  by rewrite rstrip_cons, rstrip_idempotent.
Qed.

(** Both loaders hand over trimmed identifiers and non-empty titles. *)
Lemma load_scholar_from_json_stripped data p :
  p ∈ load_scholar_from_json data →
  strip (scholar_id p) = scholar_id p ∧ title p ≠ [].
Proof.
  unfold load_scholar_from_json. rewrite list_elem_of_In, filter_In.
  intros [Hin Ht]. apply in_map_iff in Hin as (row & <- & _).
  split; [apply strip_idempotent|]. simpl in *. intros Hn. by rewrite Hn in Ht.
Qed.

Lemma load_scholar_live_stripped publications p :
  p ∈ load_scholar_live publications →
  strip (scholar_id p) = scholar_id p ∧ title p ≠ [].
Proof.
  unfold load_scholar_live. rewrite list_elem_of_In.
  intros Hin. apply in_map_iff in Hin as (row & <- & Hrow).
  apply filter_In in Hrow as [_ Ht].
  split; [apply strip_idempotent|]. simpl. intros Hn. by rewrite Hn in Ht.
Qed.

(** ** Ratios *)

Lemma calculate_ratio_mono (m m' len : nat) :
  (m ≤ m')%nat → (calculate_ratio m len <= calculate_ratio m' len)%Q.
Proof.
  intros Hm. destruct len as [|len]; simpl; [apply Qle_refl|].
  unfold Qle; simpl. nia.
Qed.

Lemma calculate_ratio_zero (len : nat) :
  (0 < len)%nat → (calculate_ratio 0 len == 0)%Q.
Proof. destruct len; [lia|]. intros _. reflexivity. Qed.

Lemma remove_one_length x b b' :
  remove_one x b = Some b' → length b = S (length b').
Proof.
  revert b'. induction b as [|y b IH]; intros b'; simpl; [done|].
  case_bool_decide; [by intros [= <-]|].
  destruct (remove_one x b) as [b0|]; simpl; [|done].
  intros [= <-]. simpl. f_equal. by apply IH.
Qed.

Lemma quick_total_le_r a b : (quick_total a b ≤ length b)%nat.
Proof.
  revert b. induction a as [|x a IH]; intros b; simpl; [lia|].
  destruct (remove_one x b) as [b'|] eqn:E; [|apply IH].
  apply remove_one_length in E. specialize (IH b'). lia.
Qed.

Lemma quick_total_le_l a b : (quick_total a b ≤ length a)%nat.
Proof.
  revert b. induction a as [|x a IH]; intros b; simpl; [lia|].
  destruct (remove_one x b) as [b'|]; [specialize (IH b')|specialize (IH b)]; lia.
Qed.

Lemma quick_ratio_le_real_quick a b : (quick_ratio a b <= real_quick_ratio a b)%Q.
Proof.
  apply calculate_ratio_mono.
  pose proof (quick_total_le_l a b). pose proof (quick_total_le_r a b). lia.
Qed.

(** ** Choosing the best candidate *)

(** [scored] is the candidates that pass, in order, with their scores. *)
Lemma scored_spec bt word poss cutoff :
  scored bt word poss cutoff =
  map (λ x, (ratio bt x word, x)) (List.filter (close_enough bt word cutoff) poss).
Proof.
  induction poss as [|x poss IH]; simpl; [done|].
  destruct (close_enough bt word cutoff x); simpl; by rewrite IH.
Qed.

Lemma max_from_step first items :
  Some (max_from first items) = foldl max_step (Some first) items.
Proof.
  revert first. induction items as [|it items IH]; intros first; simpl; [done|].
  unfold max_from in *. simpl. apply IH.
Qed.

Lemma nlargest1_step result :
  head (map snd (nlargest1 result)) = snd <$> foldl max_step None result.
Proof.
  destruct result as [|first items]; simpl; [done|].
  by rewrite <- max_from_step.
Qed.

Lemma tuple_gt_above (p q : Q * str) (c : Q) :
  (q.1 < c)%Q → (c <= p.1)%Q → tuple_gt p q = true.
Proof.
  intros Hq Hp. unfold tuple_gt.
  assert (q.1 < p.1)%Q as Hlt by (eapply Qlt_le_trans; eauto).
  destruct (Qeq_bool p.1 q.1) eqn:E.
  - apply Qeq_bool_iff in E. rewrite E in Hlt. by apply Qlt_irrefl in Hlt.
  - destruct (Qle_bool p.1 q.1) eqn:E'; [|done].
    apply Qle_bool_iff in E'. by apply Qlt_not_le in Hlt.
Qed.

Lemma tuple_gt_below (p q : Q * str) (c : Q) :
  (p.1 < c)%Q → (c <= q.1)%Q → tuple_gt p q = false.
Proof.
  intros Hp Hq. unfold tuple_gt.
  assert (p.1 < q.1)%Q as Hlt by (eapply Qlt_le_trans; eauto).
  destruct (Qeq_bool p.1 q.1) eqn:E.
  - apply Qeq_bool_iff in E. rewrite E in Hlt. by apply Qlt_irrefl in Hlt.
  - apply Qlt_le_weak, Qle_bool_iff in Hlt. by rewrite Hlt.
Qed.

Section MatcherProperties.

Variable bt : str → str → nat.


Lemma find_match_in key keys cutoff :
  key ∈ keys → find_match bt key keys cutoff = inr (Some key).
Proof. intros H. unfold find_match. by rewrite bool_decide_eq_true_2. Qed.

(** An empty key has no fuzzy match at a positive cutoff: against a
    non-empty candidate the very first test fails. *)
Lemma close_enough_empty cutoff x :
  (0 < cutoff)%Q → x ≠ [] → close_enough bt [] cutoff x = false.
Proof.
  intros Hc Hx. unfold close_enough, real_quick_ratio.
  destruct (Qle_bool cutoff _) eqn:E; [|done]. exfalso.
  apply Qle_bool_iff in E. simpl length in E.
  rewrite Nat.min_0_r, calculate_ratio_zero in E.
  - by apply Qlt_not_le in Hc.
  - destruct x; [done|simpl; lia].
Qed.

Lemma scored_empty keys cutoff :
  (0 < cutoff)%Q → [] ∉ keys → scored bt [] keys cutoff = [].
Proof.
  intros Hc. induction keys as [|x keys IH]; intros Hin; simpl; [done|].
  rewrite close_enough_empty; [|done|].
  - apply IH. intros ?. apply Hin. by right.
  - intros ->. apply Hin. by left.
Qed.

(** With or without a key "" among the candidates, what [find_match]
    returns for the empty title is never truthy. *)
Lemma find_match_empty keys cutoff :
  (0 < cutoff)%Q → (cutoff <= 1)%Q →
  ∃ found, find_match bt [] keys cutoff = inr found ∧ found_truthy found = false.
Proof.
  intros H0 H1. unfold find_match.
  case_bool_decide as Hin; [by exists (Some [])|].
  unfold get_close_matches.
  assert (Qle_bool 0 cutoff && Qle_bool cutoff 1 = true) as ->.
  { apply andb_true_iff. split; apply Qle_bool_iff; [by apply Qlt_le_weak|done]. }
  simpl. rewrite scored_empty by done. by exists None.
Qed.

(** C3. Exact match precedence: for every key, every candidate list
    that contains the key verbatim and every cutoff (in particular every
    cutoff in (0,1], 1 included), [find_match] returns the key itself. *)
Theorem find_match_exact (key : str) (keys : list str) (cutoff : Q) :
  key ∈ keys → find_match bt key keys cutoff = inr (Some key).
Proof. apply find_match_in. Qed.

Hypothesis bt_le_quick : ∀ a b, (bt a b ≤ quick_total a b)%nat.

Lemma ratio_le_quick a b : (ratio bt a b <= quick_ratio a b)%Q.
Proof. apply calculate_ratio_mono, bt_le_quick. Qed.

(** For a candidate that fails the tests, the score itself is below the
    cutoff, whichever of the three tests failed. *)
Lemma close_enough_false word cutoff x :
  close_enough bt word cutoff x = false → (ratio bt x word < cutoff)%Q.
Proof.
  unfold close_enough. intros H.
  apply Qnot_le_lt. intros Hle.
  assert (Qle_bool cutoff (ratio bt x word) = true) as E3 by by apply Qle_bool_iff.
  assert (Qle_bool cutoff (quick_ratio x word) = true) as E2.
  { apply Qle_bool_iff. eapply Qle_trans; [exact Hle|apply ratio_le_quick]. }
  assert (Qle_bool cutoff (real_quick_ratio x word) = true) as E1.
  { apply Qle_bool_iff. eapply Qle_trans; [exact Hle|].
    eapply Qle_trans; [apply ratio_le_quick|apply quick_ratio_le_real_quick]. }
  by rewrite E1, E2, E3 in H.
Qed.

Lemma close_enough_true word cutoff x :
  close_enough bt word cutoff x = true → (cutoff <= ratio bt x word)%Q.
Proof.
  unfold close_enough. rewrite !andb_true_iff.
  intros [_ H]. by apply Qle_bool_iff.
Qed.

Lemma close_enough_lower word (c c' : Q) x :
  (c' <= c)%Q → close_enough bt word c x = true → close_enough bt word c' x = true.
Proof.
  unfold close_enough. rewrite !andb_true_iff, !Qle_bool_iff.
  intros Hc [[H1 H2] H3]. repeat split; eapply Qle_trans; eauto.
Qed.

Lemma scored_follows word (c c' : Q) poss acc acc' :
  (c' < c)%Q → follows c acc acc' →
  follows c (foldl max_step acc (scored bt word poss c))
            (foldl max_step acc' (scored bt word poss c')).
Proof.
  intros Hc. revert acc acc'.
  induction poss as [|x poss IH]; intros acc acc' HR; simpl; [done|].
  destruct (close_enough bt word c x) eqn:E.
  - rewrite (close_enough_lower word c c' x) by (by apply Qlt_le_weak || done).
    simpl. apply IH. apply close_enough_true in E.
    destruct acc as [b|]; simpl in *.
    + destruct HR as [-> Hb]. simpl. split; [done|]. by destruct (tuple_gt _ _).
    + destruct acc' as [b'|]; simpl; [|done].
      by rewrite (tuple_gt_above (ratio bt x word, x) b' c).
  - apply close_enough_false in E.
    destruct (close_enough bt word c' x) eqn:E'; [|by apply IH].
    simpl. apply IH.
    destruct acc as [b|]; simpl in *.
    + destruct HR as [-> Hb]. simpl.
      by rewrite (tuple_gt_below (ratio bt x word, x) b c).
    + destruct acc' as [b'|]; simpl; [|done]. by destruct (tuple_gt _ _).
Qed.

Lemma get_close_matches_lower word poss (c c' : Q) x :
  (0 <= c')%Q → (c' < c)%Q →
  get_close_matches bt word poss c = inr [x] →
  get_close_matches bt word poss c' = inr [x].
Proof.
  intros H0 Hc. unfold get_close_matches.
  destruct (Qle_bool 0 c && Qle_bool c 1) eqn:E; simpl; [|done].
  apply andb_true_iff in E as [_ E1]. apply Qle_bool_iff in E1.
  assert (Qle_bool 0 c' && Qle_bool c' 1 = true) as ->.
  { apply andb_true_iff. split; apply Qle_bool_iff; [done|].
    apply Qlt_le_weak. eapply Qlt_le_trans; eauto. }
  simpl. intros [= Hx]. f_equal.
  pose proof (scored_follows word c c' poss None None Hc I) as HR.
  destruct (scored bt word poss c) as [|first items] eqn:Es; [done|].
  simpl in Hx. simpl foldl in HR.
  rewrite <- max_from_step in HR. destruct HR as [HR _].
  destruct (scored bt word poss c') as [|first' items']; [done|].
  simpl in HR. rewrite <- max_from_step in HR. injection HR as HR.
  simpl. by rewrite HR.
Qed.

(** C6. Cutoff monotonicity: for a fixed key and fixed candidates, if
    [find_match] returns a candidate at cutoff [c], it returns the same
    candidate at every admissible cutoff [c' < c].  The matcher's block
    count is bounded by the multiset count of [quick_ratio], as difflib
    documents. *)
Theorem find_match_cutoff_monotone (key : str) (keys : list str)
    (c c' : Q) (x : str) :
  (0 <= c')%Q → (c' < c)%Q →
  find_match bt key keys c = inr (Some x) →
  find_match bt key keys c' = inr (Some x).
Proof.
  intros H0 Hc. unfold find_match.
  case_bool_decide; [done|].
  destruct (get_close_matches bt key keys c) as [e|maybe] eqn:E; [done|].
  intros [= Hx].
  assert (maybe = [x]) as ->.
  { revert E Hx. unfold get_close_matches.
    destruct (negb _); [done|]. intros [= <-].
    destruct (scored bt key keys c); simpl; [done|]. by intros [= ->]. }
  by rewrite (get_close_matches_lower key keys c c' x H0 Hc E).
Qed.

End MatcherProperties.

(** ** The block matcher against the multiset count *)

Local Open Scope nat_scope.

(** The multiset count is superadditive. *)

Lemma remove_one_app_l x b1 b1' b2 :
  remove_one x b1 = Some b1' → remove_one x (b1 ++ b2) = Some (b1' ++ b2).
Proof.
  revert b1'. induction b1 as [|y b1 IH]; intros b1'; simpl; [done|].
  case_bool_decide; [by intros [= <-]|].
  destruct (remove_one x b1) as [c|]; simpl; [|done].
  intros [= <-]. by rewrite (IH c).
Qed.

Lemma remove_one_app_r x b1 b2 :
  remove_one x b1 = None →
  remove_one x (b1 ++ b2) = (b1 ++.) <$> remove_one x b2.
Proof.
  induction b1 as [|y b1 IH]; simpl; [by destruct (remove_one x b2)|].
  case_bool_decide; [done|].
  destruct (remove_one x b1) as [c|] eqn:E; simpl; [done|].
  intros _. rewrite IH by done. by destruct (remove_one x b2).
Qed.

(** Removing two different elements, in either order. *)
Lemma remove_one_comm x y b bx :
  x ≠ y → remove_one x b = Some bx →
  match remove_one y b with
  | Some by_ => ∃ bxy, remove_one y bx = Some bxy ∧ remove_one x by_ = Some bxy
  | None => remove_one y bx = None
  end.
Proof.
  intros Hne. revert bx. induction b as [|z b IH]; intros bx; simpl; [done|].
  destruct (decide (x = z)) as [->|Hxz].
  - rewrite bool_decide_eq_true_2 by done. intros [= <-].
    rewrite (bool_decide_eq_false_2 (y = z)) by congruence.
    destruct (remove_one y b) as [c|]; simpl; [|done].
    exists c. split; [done|]. by rewrite bool_decide_eq_true_2.
  - rewrite (bool_decide_eq_false_2 (x = z)) by done.
    destruct (remove_one x b) as [c|] eqn:Ex; simpl; [|done].
    intros [= <-]. specialize (IH c eq_refl). simpl.
    case_bool_decide as Hyz.
    + exists c. split; [done|].
      by rewrite Ex.
    + destruct (remove_one y b) as [d|]; simpl.
      * destruct IH as (e & -> & He). exists (z :: e). split; [done|].
        rewrite (bool_decide_eq_false_2 (x = z)) by done. by rewrite He.
      * by rewrite IH.
Qed.

(** Taking one element away from [b] lowers the count by at most one. *)
Lemma quick_total_remove_one a x b b' :
  remove_one x b = Some b' →
  (quick_total a b' ≤ quick_total a b ≤ S (quick_total a b'))%nat.
Proof.
  revert x b b'. induction a as [|y a IH]; intros x b b' Hx; simpl; [lia|].
  destruct (decide (y = x)) as [->|Hne].
  - rewrite Hx. destruct (remove_one x b') as [c|] eqn:E.
    + specialize (IH x b' c E). lia.
    + lia.
  - pose proof (remove_one_comm x y b b' (not_eq_sym Hne) Hx) as Hc.
    destruct (remove_one y b) as [d|].
    + destruct Hc as (e & -> & He). specialize (IH x d e He). lia.
    + rewrite Hc. by apply IH with x.
Qed.

Lemma quick_total_app_r a c b : (quick_total a b ≤ quick_total a (c ++ b))%nat.
Proof.
  induction c as [|z c IH]; simpl; [done|].
  assert (remove_one z (z :: c ++ b) = Some (c ++ b)) as H.
  { simpl. by rewrite bool_decide_eq_true_2. }
  pose proof (quick_total_remove_one a z _ _ H). lia.
Qed.

Lemma quick_total_app a1 a2 b1 b2 :
  (quick_total a1 b1 + quick_total a2 b2 ≤ quick_total (a1 ++ a2) (b1 ++ b2))%nat.
Proof.
  revert b1 b2. induction a1 as [|x a1 IH]; intros b1 b2; simpl.
  - apply quick_total_app_r.
  - destruct (remove_one x b1) as [c|] eqn:E.
    + rewrite (remove_one_app_l x b1 c b2 E). specialize (IH c b2). lia.
    + rewrite (remove_one_app_r x b1 b2 E).
      destruct (remove_one x b2) as [d|] eqn:E2; simpl.
      * pose proof (quick_total_remove_one a2 x b2 d E2).
        specialize (IH b1 d). lia.
      * apply IH.
Qed.

Lemma quick_total_same a : quick_total a a = length a.
Proof.
  induction a as [|x a IH]; simpl; [done|].
  rewrite bool_decide_eq_true_2 by done. by rewrite IH.
Qed.

Lemma slice_split l lo mid hi :
  lo ≤ mid → mid ≤ hi → slice l lo hi = slice l lo mid ++ slice l mid hi.
Proof.
  intros H1 H2. unfold slice.
  replace (hi - lo) with ((mid - lo) + (hi - mid)) by lia.
  rewrite <- take_take_drop. f_equal. rewrite drop_drop. do 2 f_equal. lia.
Qed.

Lemma agree_slice a b i j k :
  agree a b i j k → slice a i (i + k) = slice b j (j + k) ∧ length (slice a i (i + k)) = k.
Proof.
  intros H. unfold slice.
  replace (i + k - i) with k by lia. replace (j + k - j) with k by lia.
  split.
  - apply list_eq. intros t. destruct (decide (t < k)) as [Ht|Ht].
    + rewrite !lookup_take_lt, !lookup_drop by done.
      destruct (H t Ht) as (x & Hx & Hy). by trans (Some x).
    + rewrite !lookup_take_ge by lia. done.
  - rewrite length_take, length_drop.
    destruct k as [|k]; [done|].
    destruct (H k) as (x & Hx & _); [lia|].
    apply lookup_lt_Some in Hx. lia.
Qed.

Lemma indices_from_spec x j0 b j :
  j ∈ indices_from x j0 b → j0 ≤ j ∧ b !! (j - j0) = Some x.
Proof.
  revert j0. induction b as [|y b IH]; intros j0; simpl.
  - intros H. by apply elem_of_nil in H.
  - case_bool_decide as Hxy.
    + intros H. apply elem_of_cons in H as [->|H].
      * split; [done|]. replace (j0 - j0) with 0 by lia. by subst.
      * apply IH in H as [H1 H2]. split; [lia|].
        replace (j - j0) with (S (j - S j0)) by lia. done.
    + intros H. apply IH in H as [H1 H2]. split; [lia|].
      replace (j - j0) with (S (j - S j0)) by lia. done.
Qed.

Lemma b2j_spec b x j : j ∈ b2j b x → b !! j = Some x.
Proof.
  unfold b2j. destruct (popular b x).
  - intros H. by apply elem_of_nil in H.
  - intros H. apply indices_from_spec in H as [_ H]. by rewrite Nat.sub_0_r in H.
Qed.

Lemma j2len_prev_inv a b alo blo bhi i j2len j :
  row_inv a b alo blo bhi i j2len →
  let prev := j2len_prev j2len j in
  prev ≤ i - alo ∧ prev ≤ j - blo ∧ agree a b (i - prev) (j - prev) prev.
Proof.
  intros Hinv. unfold j2len_prev. destruct j as [|j'].
  - simpl. repeat split; try lia. intros t Ht. lia.
  - destruct (j2len !! j') as [k|] eqn:E; simpl.
    + destruct (Hinv j' k E) as (H1 & H2 & H3 & H4).
      repeat split; try lia.
      replace (S j' - k) with (j' + 1 - k) by lia. done.
    + repeat split; try lia. intros t Ht. lia.
Qed.

Lemma scan_row_inv a b alo ahi blo bhi i x j2len js newj2len best :
  a !! i = Some x → alo ≤ i → i < ahi →
  (∀ j, j ∈ js → b !! j = Some x) →
  row_inv a b alo blo bhi i j2len →
  row_inv a b alo blo bhi (S i) newj2len →
  valid_match a b alo ahi blo bhi best →
  row_inv a b alo blo bhi (S i) (scan_row js i blo bhi j2len newj2len best).1 ∧
  valid_match a b alo ahi blo bhi (scan_row js i blo bhi j2len newj2len best).2.
Proof.
  intros Hx Hlo Hhi Hjs Hinv. revert newj2len best.
  induction js as [|j js IH]; intros newj2len best Hnew Hbest; simpl; [done|].
  assert (∀ j', j' ∈ js → b !! j' = Some x) as Hjs' by (intros; apply Hjs; by right).
  destruct (j <? blo) eqn:E1; [by apply IH|].
  destruct (bhi <=? j) eqn:E2; [done|].
  apply Nat.ltb_ge in E1. apply Nat.leb_gt in E2.
  pose proof (j2len_prev_inv a b alo blo bhi i j2len j Hinv) as (P1 & P2 & P3).
  set (prev := j2len_prev j2len j) in *.
  assert (agree a b (i - prev) (j - prev) (S prev)) as Hag.
  { intros t Ht. destruct (decide (t < prev)) as [Hlt|Hge]; [by apply P3|].
    assert (t = prev) as -> by lia. exists x.
    replace (i - prev + prev) with i by lia.
    replace (j - prev + prev) with j by lia.
    split; [done|]. apply Hjs. by left. }
  apply IH; [done| |].
  - intros j' k'. destruct (decide (j = j')) as [<-|Hne].
    + rewrite lookup_insert_eq. intros [= <-].
      replace (S i - S prev) with (i - prev) by lia.
      replace (j + 1 - S prev) with (j - prev) by lia.
      repeat split; try lia. done.
    + rewrite lookup_insert_ne by done. apply Hnew.
  - destruct (best.2 <? S prev); [|done].
    unfold valid_match. cbn [fst snd].
    replace (i + 1 - S prev) with (i - prev) by lia.
    replace (j + 1 - S prev) with (j - prev) by lia.
    repeat split; try lia. done.
Qed.

Lemma row_inv_empty a b alo blo bhi i : row_inv a b alo blo bhi i ∅.
Proof. intros j k H. by rewrite lookup_empty in H. Qed.

Lemma scan_rows_valid a b alo ahi blo bhi xs i j2len best :
  (∀ t y, xs !! t = Some y → a !! (i + t) = Some y) →
  alo ≤ i → i + length xs ≤ ahi →
  row_inv a b alo blo bhi i j2len →
  valid_match a b alo ahi blo bhi best →
  valid_match a b alo ahi blo bhi (scan_rows xs i b blo bhi j2len best).
Proof.
  revert i j2len best. induction xs as [|x xs IH]; intros i j2len best Hxs Hlo Hlen Hinv Hbest;
    simpl; [done|].
  simpl in Hlen.
  assert (a !! i = Some x) as Hx.
  { specialize (Hxs 0 x eq_refl). by rewrite Nat.add_0_r in Hxs. }
  assert (i < ahi) as Hhi by lia.
  destruct (scan_row_inv a b alo ahi blo bhi i x j2len (b2j b x) ∅ best
              Hx Hlo Hhi (b2j_spec b x) Hinv (row_inv_empty a b alo blo bhi (S i)) Hbest)
    as [H1 H2].
  destruct (scan_row (b2j b x) i blo bhi j2len ∅ best) as [newj2len best'].
  apply IH; try done; try lia.
  intros t y Ht. replace (S i + t) with (i + S t) by lia. by apply Hxs.
Qed.

Lemma same_at_spec a b i j :
  same_at a b i j = true → ∃ x, a !! i = Some x ∧ b !! j = Some x.
Proof.
  unfold same_at. destruct (a !! i) as [x|], (b !! j) as [y|]; try done.
  intros H. apply bool_decide_eq_true in H as ->. by exists y.
Qed.

Lemma extend_left_valid a b alo ahi blo bhi besti bestj bestsize :
  valid_match a b alo ahi blo bhi (besti, bestj, bestsize) →
  valid_match a b alo ahi blo bhi (extend_left a b alo blo besti bestj bestsize).
Proof.
  revert bestj bestsize. induction besti as [|i' IH]; intros bestj bestsize Hv; simpl; [done|].
  destruct (_ && _) eqn:E; [|done].
  apply andb_true_iff in E as [E E3]. apply andb_true_iff in E as [E1 E2].
  apply Nat.ltb_lt in E1, E2. apply same_at_spec in E3 as (x & Ha & Hb).
  destruct Hv as (V1 & V2 & V3 & V4 & V5). cbn [fst snd] in *.
  apply IH. unfold valid_match. cbn [fst snd]. repeat split; try lia.
  intros t Ht. destruct t as [|t].
  - exists x. by rewrite !Nat.add_0_r.
  - replace (i' + S t) with (S i' + t) by lia.
    replace (bestj - 1 + S t) with (bestj + t) by lia.
    apply V5. lia.
Qed.

Lemma extend_right_valid fuel a b alo ahi blo bhi besti bestj bestsize :
  valid_match a b alo ahi blo bhi (besti, bestj, bestsize) →
  valid_match a b alo ahi blo bhi
    (besti, bestj, extend_right fuel a b ahi bhi besti bestj bestsize).
Proof.
  revert bestsize. induction fuel as [|fuel IH]; intros bestsize Hv; simpl; [done|].
  destruct (_ && _) eqn:E; [|done].
  apply andb_true_iff in E as [E E3]. apply andb_true_iff in E as [E1 E2].
  apply Nat.ltb_lt in E1, E2. apply same_at_spec in E3 as (x & Ha & Hb).
  destruct Hv as (V1 & V2 & V3 & V4 & V5). cbn [fst snd] in *.
  apply IH. unfold valid_match. cbn [fst snd]. repeat split; try lia.
  intros t Ht. destruct (decide (t < bestsize)) as [Hlt|Hge]; [by apply V5|].
  assert (t = bestsize) as -> by lia. by exists x.
Qed.

Lemma extend_right_ge fuel a b ahi bhi besti bestj bestsize :
  bestsize ≤ extend_right fuel a b ahi bhi besti bestj bestsize.
Proof.
  revert bestsize. induction fuel as [|fuel IH]; intros bestsize; simpl; [done|].
  destruct (_ && _); [|done]. specialize (IH (S bestsize)). lia.
Qed.

Lemma find_longest_match_valid a b alo ahi blo bhi :
  alo ≤ ahi → blo ≤ bhi →
  valid_match a b alo ahi blo bhi (find_longest_match a b alo ahi blo bhi).
Proof.
  intros Ha Hb. unfold find_longest_match.
  assert (valid_match a b alo ahi blo bhi
            (scan_rows (take (ahi - alo) (drop alo a)) alo b blo bhi ∅ (alo, blo, 0)))
    as Hv.
  { apply scan_rows_valid.
    - intros t y Ht. apply lookup_take_Some in Ht as [Ht _].
      by rewrite lookup_drop in Ht.
    - done.
    - rewrite length_take. lia.
    - apply row_inv_empty.
    - unfold valid_match. cbn [fst snd]. repeat split; try lia. intros t Ht. lia. }
  destruct (scan_rows _ _ _ _ _ _ _) as [[i j] k]. cbn [fst snd].
  apply extend_left_valid in Hv.
  destruct (extend_left a b alo blo i j k) as [[i' j'] k'].
  by apply extend_right_valid.
Qed.

(** The blocks found in a range cannot outnumber the elements the two
    slices share as multisets. *)
Lemma blocks_total_le_quick fuel a b alo ahi blo bhi :
  alo ≤ ahi → blo ≤ bhi →
  blocks_total fuel a b alo ahi blo bhi ≤ quick_total (slice a alo ahi) (slice b blo bhi).
Proof.
  revert alo ahi blo bhi. induction fuel as [|fuel IH]; intros alo ahi blo bhi Ha Hb;
    simpl; [lia|].
  pose proof (find_longest_match_valid a b alo ahi blo bhi Ha Hb) as Hv.
  destruct (find_longest_match a b alo ahi blo bhi) as [[i j] k].
  destruct Hv as (V1 & V2 & V3 & V4 & V5). cbn [fst snd] in *.
  destruct (k =? 0) eqn:Ek; [lia|].
  apply agree_slice in V5 as [Heq Hlen].
  rewrite (slice_split a alo i ahi), (slice_split a i (i + k) ahi) by lia.
  rewrite (slice_split b blo j bhi), (slice_split b j (j + k) bhi) by lia.
  rewrite <- Heq.
  pose proof (quick_total_app (slice a alo i) (slice a i (i + k) ++ slice a (i + k) ahi)
                (slice b blo j) (slice a i (i + k) ++ slice b (j + k) bhi)) as H1.
  pose proof (quick_total_app (slice a i (i + k)) (slice a (i + k) ahi)
                (slice a i (i + k)) (slice b (j + k) bhi)) as H2.
  rewrite quick_total_same, Hlen in H2.
  assert ((if (alo <? i) && (blo <? j) then blocks_total fuel a b alo i blo j else 0)
          ≤ quick_total (slice a alo i) (slice b blo j)) as HL.
  { destruct ((alo <? i) && (blo <? j)); [apply IH; lia|lia]. }
  assert ((if (i + k <? ahi) && (j + k <? bhi)
           then blocks_total fuel a b (i + k) ahi (j + k) bhi else 0)
          ≤ quick_total (slice a (i + k) ahi) (slice b (j + k) bhi)) as HR.
  { destruct ((i + k <? ahi) && (j + k <? bhi)); [apply IH; lia|lia]. }
  lia.
Qed.

Lemma slice_all l : slice l 0 (length l) = l.
Proof. unfold slice. rewrite Nat.sub_0_r. simpl. apply firstn_all. Qed.

Lemma matching_total_le_quick a b : matching_total a b ≤ quick_total a b.
Proof.
  unfold matching_total.
  pose proof (blocks_total_le_quick (S (length a)) a b 0 (length a) 0 (length b)) as H.
  rewrite !slice_all in H. apply H; lia.
Qed.

(** Fuel beyond the length of the range changes nothing. *)
Lemma blocks_total_fuel fuel fuel' a b alo ahi blo bhi :
  alo ≤ ahi → blo ≤ bhi → ahi - alo < fuel → ahi - alo < fuel' →
  blocks_total fuel a b alo ahi blo bhi = blocks_total fuel' a b alo ahi blo bhi.
Proof.
  revert fuel' alo ahi blo bhi.
  induction fuel as [|fuel IH]; intros [|fuel'] alo ahi blo bhi Ha Hb Hf Hf'; try lia.
  simpl.
  pose proof (find_longest_match_valid a b alo ahi blo bhi Ha Hb) as Hv.
  destruct (find_longest_match a b alo ahi blo bhi) as [[i j] k].
  destruct Hv as (V1 & V2 & V3 & V4 & V5). cbn [fst snd] in *.
  destruct (k =? 0) eqn:Ek; [done|]. apply Nat.eqb_neq in Ek.
  f_equal; [f_equal|].
  - destruct ((alo <? i) && (blo <? j)); [|done]. apply IH; lia.
  - destruct ((i + k <? ahi) && (j + k <? bhi)); [|done]. apply IH; lia.
Qed.

Local Close Scope nat_scope.

(** ** The comparison pass *)

Section CompareProperties.

Variable bt : str → str → nat.

Lemma find_match_total key keys (cutoff : Q) :
  (0 <= cutoff)%Q → (cutoff <= 1)%Q →
  ∃ found, find_match bt key keys cutoff = inr found.
Proof.
  intros H0 H1. unfold find_match. case_bool_decide; [by eexists|].
  unfold get_close_matches.
  assert (Qle_bool 0 cutoff && Qle_bool cutoff 1 = true) as ->.
  { apply andb_true_iff. split; by apply Qle_bool_iff. }
  by eexists.
Qed.

(** What the loop returns, when it returns, in terms of its accumulators. *)
Lemma compare_loop_result keys cutoff pubs missing matched m ms :
  compare_loop bt keys cutoff pubs missing matched = inr (m, ms) →
  m = (matched +
       length (List.filter (λ p, titled p && has_match bt keys cutoff p) pubs))%nat ∧
  ms = missing ++
       List.filter (λ p, titled p && negb (has_match bt keys cutoff p)) pubs.
Proof.
  revert missing matched.
  induction pubs as [|pub pubs IH]; intros missing matched; simpl.
  - intros [= <- <-]. split; [lia|by rewrite app_nil_r].
  - fold (titled pub).
    destruct (titled pub) eqn:Et; simpl; [|apply IH].
    destruct (find_match bt _ keys cutoff) as [e|found] eqn:Ef; [done|].
    assert (has_match bt keys cutoff pub = found_truthy found) as ->.
    { unfold has_match. by rewrite Ef. }
    destruct (found_truthy found); simpl; intros H; apply IH in H as [-> ->].
    + split; [lia|done].
    + split; [done|]. by rewrite <- app_assoc.
Qed.

Lemma compare_loop_total keys (cutoff : Q) pubs missing matched :
  (0 <= cutoff)%Q → (cutoff <= 1)%Q →
  ∃ r, compare_loop bt keys cutoff pubs missing matched = inr r.
Proof.
  intros H0 H1. revert missing matched.
  induction pubs as [|pub pubs IH]; intros missing matched; simpl; [by eexists|].
  destruct (negb _); [apply IH|].
  destruct (find_match_total (normalize_title (title pub)) keys cutoff H0 H1)
    as [found ->].
  destruct (found_truthy found); apply IH.
Qed.

Lemma filter_split_length {A} (f g : A → bool) (l : list A) :
  (length (List.filter (λ x, f x && g x) l) +
   length (List.filter (λ x, f x && negb (g x)) l))%nat
  = length (List.filter f l).
Proof.
  induction l as [|x l IH]; simpl; [done|].
  destruct (f x), (g x); simpl; lia.
Qed.

(** C2. Diff partition: for every sequence of external records, every
    index and every admissible cutoff, the comparison pass returns
    [(matched, missing)] with [matched + len(missing)] equal to the number
    of records whose normalised title is non-empty, and [missing] is
    exactly the unmatched ones among those records, in input order. *)
Theorem compare_partition (pubs : list ScholarPub) (repo_index : Index)
    (cutoff : Q) :
  (0 <= cutoff)%Q → (cutoff <= 1)%Q →
  ∃ matched missing,
    compare bt pubs repo_index cutoff = inr (matched, missing) ∧
    (matched + length missing)%nat = length (List.filter titled pubs) ∧
    missing =
      List.filter
        (λ p, titled p && negb (has_match bt (index_keys repo_index) cutoff p))
        pubs.
Proof.
  intros H0 H1. unfold compare.
  destruct (compare_loop_total (index_keys repo_index) cutoff pubs [] O H0 H1)
    as [[m ms] E].
  exists m, ms. split; [done|].
  apply compare_loop_result in E as [-> ->]. simpl.
  split; [apply filter_split_length|done].
Qed.

Lemma compare_loop_skip keys cutoff pre p post missing matched :
  normalize_title (title p) = [] →
  compare_loop bt keys cutoff (pre ++ p :: post) missing matched =
  compare_loop bt keys cutoff (pre ++ post) missing matched.
Proof.
  intros Hp. revert missing matched.
  induction pre as [|q pre IH]; intros missing matched; simpl.
  - by rewrite Hp.
  - destruct (negb _); [apply IH|].
    destruct (find_match bt _ keys cutoff) as [e|found]; [done|].
    destruct (found_truthy found); apply IH.
Qed.

Lemma update_loop_skip ix keys (cutoff : Q) pre p post n σ :
  normalize_title (title p) = [] →
  (0 < cutoff)%Q → (cutoff <= 1)%Q →
  update_loop bt ix keys cutoff (pre ++ p :: post) n σ =
  update_loop bt ix keys cutoff (pre ++ post) n σ.
Proof.
  intros Hp H0 H1. revert n σ.
  induction pre as [|q pre IH]; intros n σ; simpl.
  - destruct (negb (truthy (scholar_id p))); [done|].
    rewrite Hp.
    destruct (find_match_empty bt keys cutoff H0 H1) as (found & -> & ->).
    done.
  - destruct (negb (truthy (scholar_id q))); [apply IH|].
    destruct (find_match bt _ keys cutoff) as [e|found]; [done|].
    destruct (negb (found_truthy found)); [apply IH|].
    destruct (index_get ix _) as [locs|]; [|done].
    destruct (update_rows _ locs n σ) as [[e|n'] σ']; [done|apply IH].
Qed.

(** X24. With a cutoff in (0,1], a record whose normalised title is empty
    is skipped by both passes: wherever it stands in the feed, the
    comparison pass returns the same count and the same missing list as
    without it, and [update_scholar_ids] returns the same count and leaves
    the same tables as without it.  The comparison pass tests for the
    empty title itself; [update_scholar_ids] does not, and relies on the
    matcher, which finds nothing for the empty title only above cutoff 0. *)
Theorem empty_title_skipped (pre post : list ScholarPub) (p : ScholarPub)
    (repo_index : Index) (loaded_csv : Loaded) (cutoff : Q) :
  normalize_title (title p) = [] →
  (0 < cutoff)%Q → (cutoff <= 1)%Q →
  compare bt (pre ++ p :: post) repo_index cutoff =
    compare bt (pre ++ post) repo_index cutoff ∧
  update_scholar_ids bt loaded_csv repo_index (pre ++ p :: post) cutoff =
    update_scholar_ids bt loaded_csv repo_index (pre ++ post) cutoff.
Proof.
  intros Hp H0 H1. split.
  - by apply compare_loop_skip.
  - by apply update_loop_skip.
Qed.

End CompareProperties.

(** ** The in-place update: what one visited row does to the tables *)

Lemma row_frame_refl r : row_frame r r.
Proof. by repeat split. Qed.

Lemma row_frame_trans r1 r2 r3 : row_frame r1 r2 → row_frame r2 r3 → row_frame r1 r3.
Proof.
  intros (Ha & Hb & Hc) (Ha' & Hb' & Hc'). repeat split.
  - congruence.
  - auto.
  - intros k Hk. rewrite Hc', Hc; auto.
Qed.

Lemma row_frame_set v r : row_frame r (row_set (py "Scholar ID") v r).
Proof.
  unfold row_set. repeat split; simpl.
  - intros k Hk. destruct (decide (py "Scholar ID" = k)) as [<-|Hne].
    + rewrite lookup_insert_eq. by eexists.
    + by rewrite lookup_insert_ne.
  - intros k Hk. by rewrite lookup_insert_ne.
Qed.

Lemma row_frame_setdefault v r : row_frame r (row_setdefault (py "Scholar ID") v r).
Proof.
  unfold row_setdefault. destruct (cells r !! py "Scholar ID").
  - apply row_frame_refl.
  - apply row_frame_set.
Qed.

Lemma has_sid_set v r : has_sid (row_set (py "Scholar ID") v r).
Proof. unfold has_sid, row_set. simpl. rewrite lookup_insert_eq. by eexists. Qed.

Lemma has_sid_setdefault v r : has_sid (row_setdefault (py "Scholar ID") v r).
Proof.
  unfold row_setdefault. destruct (cells r !! py "Scholar ID") eqn:E.
  - unfold has_sid. rewrite E. by eexists.
  - apply has_sid_set.
Qed.

Lemma rows_frame_refl rows : Forall2 row_frame rows rows.
Proof. induction rows; constructor; auto using row_frame_refl. Qed.

Lemma rows_frame_trans rows1 rows2 rows3 :
  Forall2 row_frame rows1 rows2 → Forall2 row_frame rows2 rows3 →
  Forall2 row_frame rows1 rows3.
Proof.
  intros H. revert rows3. induction H as [|r1 r2 l1 l2 Hr _ IH]; intros rows3 H'.
  - by inversion H'.
  - inversion H' as [|? r3 ? l3 Hr' Hl']; subst. constructor.
    + by eapply row_frame_trans.
    + by apply IH.
Qed.

Lemma rows_frame_setdefault rows :
  Forall2 row_frame rows (map (row_setdefault (py "Scholar ID") []) rows).
Proof. induction rows; simpl; constructor; auto using row_frame_setdefault. Qed.

Lemma rows_frame_insert rows i row sid :
  rows !! i = Some row →
  Forall2 row_frame rows (<[i := row_set (py "Scholar ID") sid row]> rows).
Proof.
  revert i. induction rows as [|r rows IH]; intros [|i]; simpl; try done.
  - intros [= ->]. constructor; [apply row_frame_set|apply rows_frame_refl].
  - intros H. constructor; [apply row_frame_refl|by apply IH].
Qed.

Lemma table_frame_refl t : table_frame t t.
Proof. split; [by left|apply rows_frame_refl]. Qed.

Lemma table_frame_trans t1 t2 t3 :
  table_frame t1 t2 → table_frame t2 t3 → table_frame t1 t3.
Proof.
  intros [Hh Hr] [Hh' Hr']. split; [|by eapply rows_frame_trans].
  destruct Hh as [Hh|[Hn Hh]], Hh' as [Hh'|[Hn' Hh']].
  - left. congruence.
  - right. rewrite Hh', Hh. split; [congruence|done].
  - right. rewrite Hh', Hh. by split.
  - exfalso. apply Hn'. rewrite Hh. apply elem_of_app. right. by left.
Qed.

Lemma frame_refl σ : frame σ σ.
Proof.
  intros path. destruct (σ !! path); constructor. apply table_frame_refl.
Qed.

Lemma frame_trans σ1 σ2 σ3 : frame σ1 σ2 → frame σ2 σ3 → frame σ1 σ3.
Proof.
  intros H H' path. specialize (H path). specialize (H' path).
  destruct H as [t1 t2 Ht|]; inversion H'; constructor.
  by eapply table_frame_trans.
Qed.

Lemma frame_insert σ path t t' :
  σ !! path = Some t → table_frame t t' → frame σ (<[path := t']> σ).
Proof.
  intros E Ht p. destruct (decide (path = p)) as [<-|Hne].
  - rewrite lookup_insert_eq, E. by constructor.
  - rewrite lookup_insert_ne by done. apply frame_refl.
Qed.

Lemma update_row_unfold sid l σ :
  update_row sid l σ =
  match σ !! l.1 with
  | None => (inl KeyError, σ)
  | Some t =>
      let t' := ensure_sid t in
      match t'.2 !! l.2 with
      | None => (inl IndexError, <[l.1 := t']> σ)
      | Some row =>
          if bool_decide (strip (row_get (py "Scholar ID") row) ≠ sid)
          then (inr 1%nat,
                <[l.1 := (t'.1, <[l.2 := row_set (py "Scholar ID") sid row]> (t'.2))]> σ)
          else (inr O, <[l.1 := t']> σ)
      end
  end.
Proof.
  unfold update_row, ensure_sid. destruct (σ !! l.1) as [[headers rows]|]; [|done].
  cbn [fst snd]. by case_bool_decide.
Qed.

Lemma ensure_sid_frame t : table_frame t (ensure_sid t).
Proof.
  unfold ensure_sid. case_bool_decide as Hin; [apply table_frame_refl|].
  split; cbn [fst snd]; [by right|apply rows_frame_setdefault].
Qed.

Lemma ensure_sid_header t : py "Scholar ID" ∈ (ensure_sid t).1.
Proof.
  unfold ensure_sid. case_bool_decide; [done|].
  cbn [fst]. apply elem_of_app. right. by left.
Qed.

Lemma ensure_sid_id t : py "Scholar ID" ∈ t.1 → ensure_sid t = t.
Proof. intros H. unfold ensure_sid. by rewrite bool_decide_eq_true_2. Qed.

Lemma update_row_frame sid l σ : frame σ (update_row sid l σ).2.
Proof.
  rewrite update_row_unfold. destruct (σ !! l.1) as [t|] eqn:E; [|apply frame_refl].
  cbn zeta. pose proof (ensure_sid_frame t) as Ht.
  destruct ((ensure_sid t).2 !! l.2) as [row|] eqn:Er; [|by eapply frame_insert].
  case_bool_decide; cbn [snd]; [|by eapply frame_insert].
  eapply frame_insert; [done|].
  eapply table_frame_trans; [exact Ht|].
  split; cbn [fst snd]; [by left|by apply rows_frame_insert].
Qed.

(** ** Properties kept by every visited row are kept by the whole pass *)

Section UpdatePreserves.

Variable bt : str → str → nat.
Variable P : Loaded → Prop.
Hypothesis P_update_row : ∀ sid l σ, P σ → P (update_row sid l σ).2.

Lemma update_rows_preserves sid locs n σ : P σ → P (update_rows sid locs n σ).2.
Proof.
  revert n σ. induction locs as [|l locs IH]; intros n σ HP; simpl; [done|].
  pose proof (P_update_row sid l σ HP) as HP'.
  destruct (update_row sid l σ) as [[e|k] σ']; simpl in *; [done|by apply IH].
Qed.

Lemma update_loop_preserves ix keys cutoff pubs n σ :
  P σ → P (update_loop bt ix keys cutoff pubs n σ).2.
Proof.
  revert n σ. induction pubs as [|p pubs IH]; intros n σ HP; simpl; [done|].
  destruct (negb (truthy (scholar_id p))); [by apply IH|].
  destruct (find_match bt _ keys cutoff) as [e|found]; [done|].
  destruct (negb (found_truthy found)); [by apply IH|].
  destruct (index_get ix _) as [locs|]; [|done].
  pose proof (update_rows_preserves (scholar_id p) locs n σ HP) as HP'.
  destruct (update_rows _ locs n σ) as [[e|n'] σ']; simpl in *; [done|by apply IH].
Qed.

End UpdatePreserves.

Lemma update_loop_frame bt σ ix keys cutoff pubs n :
  frame σ (update_loop bt ix keys cutoff pubs n σ).2.
Proof.
  apply (update_loop_preserves bt (frame σ)); [|apply frame_refl].
  intros sid l σ' Hσ. eapply frame_trans; [exact Hσ|apply update_row_frame].
Qed.

(** C9. Frame: whatever [update_scholar_ids] does and however it ends, the
    same collections are loaded afterwards, each with the same number of
    records in the same order; no field leaves a schema (a header is kept,
    or gains the identifier column at its end) or a record, and every
    field of a record other than the identifier field keeps its value. *)
Theorem update_scholar_ids_frame (bt : str → str → nat) (loaded_csv : Loaded)
    (repo_index : Index) (scholar_pubs : list ScholarPub) (cutoff : Q) :
  frame loaded_csv (update_scholar_ids bt loaded_csv repo_index scholar_pubs cutoff).2.
Proof. apply update_loop_frame. Qed.

(** What [frame] gives for one table, spelt out. *)
Lemma frame_lookup σ σ' path headers rows :
  frame σ σ' → σ !! path = Some (headers, rows) →
  ∃ headers' rows',
    σ' !! path = Some (headers', rows') ∧
    headers `prefix_of` headers' ∧
    length rows' = length rows ∧
    ∀ i row, rows !! i = Some row →
      ∃ row', rows' !! i = Some row' ∧ row_frame row row'.
Proof.
  intros H E. specialize (H path). rewrite E in H.
  inversion H as [? [headers' rows'] [Hh Hr] E1 E2|]; subst.
  cbn [fst snd] in *. exists headers', rows'. split; [done|]. split; [|split].
  - destruct Hh as [->|[_ ->]]; [done|by apply prefix_app_r].
  - symmetry. by eapply Forall2_length.
  - intros i row Hi. by eapply Forall2_lookup_l.
Qed.


(** ** Adding the identifier column *)

Lemma ensure_sid_filled t :
  (py "Scholar ID" ∈ t.1 → Forall has_sid t.2) → Forall has_sid (ensure_sid t).2.
Proof.
  intros H. unfold ensure_sid. case_bool_decide; [by apply H|].
  cbn [snd]. apply Forall_forall. intros r Hr.
  apply list_elem_of_fmap in Hr as (r0 & -> & _). apply has_sid_setdefault.
Qed.

Lemma update_row_column_filled path sid l σ :
  column_filled path σ → column_filled path (update_row sid l σ).2.
Proof.
  intros HP. rewrite update_row_unfold.
  destruct (σ !! l.1) as [t|] eqn:E; [|done]. cbn zeta.
  destruct (decide (l.1 = path)) as [Heq|Hne].
  - subst path.
    assert (Forall has_sid (ensure_sid t).2) as Hf by by apply ensure_sid_filled, HP.
    destruct (ensure_sid t) as [headers' rows']. cbn [fst snd] in *.
    assert (∀ rows'', Forall has_sid rows'' →
             column_filled l.1 (<[l.1 := (headers', rows'')]> σ)) as H1.
    { intros rows'' Hr t0 Ht0 _. rewrite lookup_insert_eq in Ht0.
      by injection Ht0 as <-. }
    destruct (rows' !! l.2) as [row|]; [|by apply H1].
    case_bool_decide; cbn [snd]; [|by apply H1].
    apply H1, Forall_insert; [done|apply has_sid_set].
  - assert (∀ t', column_filled path (<[l.1 := t']> σ)) as H1.
    { intros t' t0 Ht0. rewrite lookup_insert_ne in Ht0 by done. by apply HP. }
    destruct ((ensure_sid t).2 !! l.2) as [row|]; [|by apply H1].
    case_bool_decide; cbn [snd]; apply H1.
Qed.

(** C8. Schema-add safety: when [update_scholar_ids], however it ends,
    has added the identifier column to a collection (the column is in its
    header afterwards and was not before), every record the collection had
    before is still there, at its position, with a value (possibly "")
    under the identifier field. *)
Theorem schema_add_defines_field (bt : str → str → nat) (loaded_csv : Loaded)
    (repo_index : Index) (scholar_pubs : list ScholarPub) (cutoff : Q)
    (path : Path) (headers headers' : list str) (rows rows' : list Row) :
  loaded_csv !! path = Some (headers, rows) →
  (update_scholar_ids bt loaded_csv repo_index scholar_pubs cutoff).2 !! path
    = Some (headers', rows') →
  py "Scholar ID" ∉ headers → py "Scholar ID" ∈ headers' →
  ∀ i row, rows !! i = Some row →
    ∃ row' v, rows' !! i = Some row' ∧ cells row' !! py "Scholar ID" = Some v.
Proof.
  intros E E' Hn Hin i row Hi.
  pose proof (update_loop_frame bt loaded_csv repo_index (index_keys repo_index)
                cutoff scholar_pubs O) as Hfr.
  fold (update_scholar_ids bt loaded_csv repo_index scholar_pubs cutoff) in Hfr.
  destruct (frame_lookup _ _ _ _ _ Hfr E) as (h2 & r2 & E2 & _ & _ & Hrows).
  rewrite E' in E2. injection E2 as <- <-.
  destruct (Hrows i row Hi) as (row' & Hi' & _).
  assert (column_filled path
            (update_scholar_ids bt loaded_csv repo_index scholar_pubs cutoff).2)
    as Hc.
  { unfold update_scholar_ids.
    apply (update_loop_preserves bt (column_filled path)).
    - intros. by apply update_row_column_filled.
    - intros t Ht Hh. rewrite E in Ht. injection Ht as <-. by destruct Hn. }
  specialize (Hc _ E' Hin). cbn [snd] in Hc.
  rewrite Forall_lookup in Hc. destruct (Hc i row' Hi') as [v Hv].
  by exists row', v.
Qed.

(** ** Running the update a second time *)

Lemma update_row_establishes sid l σ n σ' :
  strip sid = sid →
  update_row sid l σ = (inr n, σ') → holds_id σ' l sid.
Proof.
  intros Hs. rewrite update_row_unfold.
  destruct (σ !! l.1) as [t|] eqn:E; [|done]. cbn zeta.
  pose proof (ensure_sid_header t) as Hh.
  destruct (ensure_sid t) as [headers rows]. cbn [fst snd] in *.
  destruct (rows !! l.2) as [row|] eqn:Er; [|done].
  case_bool_decide as Hcur; intros [= <- <-].
  - exists headers, (<[l.2 := row_set (py "Scholar ID") sid row]> rows),
      (row_set (py "Scholar ID") sid row).
    rewrite lookup_insert_eq. repeat split; [done| |].
    + apply list_lookup_insert_eq. by eapply lookup_lt_Some.
    + unfold row_get, row_set. cbn [cells]. by rewrite lookup_insert_eq.
  - exists headers, rows, row. rewrite lookup_insert_eq. repeat split; [done..|].
    by destruct (decide (strip (row_get (py "Scholar ID") row) = sid)).
Qed.

Lemma update_row_keeps sid l σ n σ' l' sid' :
  strip sid = sid → (l = l' → sid = sid') →
  update_row sid l σ = (inr n, σ') →
  holds_id σ l' sid' → holds_id σ' l' sid'.
Proof.
  intros Hs Hsame. rewrite update_row_unfold.
  intros Hrun (headers & rows & row' & E & Hin & Er & Hid).
  destruct (decide (l.1 = l'.1)) as [Hp|Hp].
  - rewrite Hp, E in Hrun. cbn zeta in Hrun.
    rewrite ensure_sid_id in Hrun by done. cbn [fst snd] in Hrun.
    destruct (rows !! l.2) as [row|] eqn:Er2; [|done].
    case_bool_decide as Hcur; injection Hrun as <- <-.
    + destruct (decide (l.2 = l'.2)) as [Hi|Hi].
      * assert (l = l') as Hl by (destruct l, l'; simpl in *; congruence).
        specialize (Hsame Hl). subst sid'.
        exists headers, (<[l.2 := row_set (py "Scholar ID") sid row]> rows),
          (row_set (py "Scholar ID") sid row).
        rewrite lookup_insert_eq. repeat split; [done| |].
        -- rewrite <- Hi. apply list_lookup_insert_eq. by eapply lookup_lt_Some.
        -- unfold row_get, row_set. cbn [cells]. by rewrite lookup_insert_eq.
      * exists headers, (<[l.2 := row_set (py "Scholar ID") sid row]> rows), row'.
        rewrite lookup_insert_eq. repeat split; [done| |done].
        by rewrite list_lookup_insert_ne.
    + exists headers, rows, row'. by rewrite lookup_insert_eq.
  - destruct (σ !! l.1) as [t|] eqn:E2; [|done]. cbn zeta in Hrun.
    assert (∀ t', holds_id (<[l.1 := t']> σ) l' sid') as H1.
    { intros t'. exists headers, rows, row'. by rewrite lookup_insert_ne. }
    destruct ((ensure_sid t).2 !! l.2) as [row|]; [|done].
    case_bool_decide; injection Hrun as <- <-; apply H1.
Qed.

Lemma update_row_noop sid l σ :
  holds_id σ l sid → update_row sid l σ = (inr O, σ).
Proof.
  intros (headers & rows & row & E & Hin & Er & Hid).
  rewrite update_row_unfold, E. cbn zeta.
  rewrite ensure_sid_id by done. cbn [fst snd]. rewrite Er.
  rewrite bool_decide_eq_false_2 by (intros Hne; by apply Hne).
  by rewrite insert_id.
Qed.

Lemma update_rows_noop sid locs n σ :
  (∀ l, l ∈ locs → holds_id σ l sid) → update_rows sid locs n σ = (inr n, σ).
Proof.
  revert n. induction locs as [|l locs IH]; intros n H; simpl; [done|].
  rewrite update_row_noop by (apply H; by left).
  rewrite Nat.add_0_r. apply IH. intros l' Hl'. apply H. by right.
Qed.

(** After the rows of one record have been visited, each of them holds the
    record's identifier, and what was held before is still held wherever
    the record agrees with it. *)
Lemma update_rows_establishes sid locs n σ n' σ' (G : list (loc * str)) :
  strip sid = sid →
  update_rows sid locs n σ = (inr n', σ') →
  (∀ g, g ∈ G → holds_id σ g.1 g.2) →
  (∀ g, g ∈ G → g.1 ∈ locs → g.2 = sid) →
  (∀ g, g ∈ G → holds_id σ' g.1 g.2) ∧ (∀ l, l ∈ locs → holds_id σ' l sid).
Proof.
  intros Hs. revert n σ G.
  induction locs as [|l locs IH]; intros n σ G; simpl.
  - intros [= <- <-] HG _. split; [done|]. intros l Hl. by apply elem_of_nil in Hl.
  - destruct (update_row sid l σ) as [[e|k] σ1] eqn:E; [done|].
    intros Hrun HG Hagree.
    destruct (IH (n + k)%nat σ1 ((l, sid) :: G) Hrun) as [H1 H2].
    + intros g Hg. apply elem_of_cons in Hg as [->|Hg].
      * by eapply update_row_establishes.
      * eapply update_row_keeps; [done| |exact E|by apply HG].
        intros ->. symmetry. apply Hagree; [done|by left].
    + intros g Hg Hin. apply elem_of_cons in Hg as [->|Hg]; [done|].
      apply Hagree; [done|by right].
    + split.
      * intros g Hg. apply H1. by right.
      * intros l' Hl'. apply elem_of_cons in Hl' as [->|Hl'].
        -- apply (H1 (l, sid)). by left.
        -- by apply H2.
Qed.

Section UpdateTwice.

Variable bt : str → str → nat.
Variable repo_index : Index.
Variable cutoff : Q.

Lemma update_loop_establishes pubs n σ n' σ' (G : list (loc * str)) :
  (∀ p, p ∈ pubs → strip (scholar_id p) = scholar_id p) →
  (∀ p q l, p ∈ pubs → q ∈ pubs →
     l ∈ targets bt repo_index cutoff p → l ∈ targets bt repo_index cutoff q →
     scholar_id p = scholar_id q) →
  update_loop bt repo_index (index_keys repo_index) cutoff pubs n σ = (inr n', σ') →
  (∀ g, g ∈ G → holds_id σ g.1 g.2) →
  (∀ g p, g ∈ G → p ∈ pubs → g.1 ∈ targets bt repo_index cutoff p →
     g.2 = scholar_id p) →
  (∀ g, g ∈ G → holds_id σ' g.1 g.2) ∧
  (∀ p l, p ∈ pubs → l ∈ targets bt repo_index cutoff p →
     holds_id σ' l (scholar_id p)).
Proof.
  revert n σ G. induction pubs as [|p pubs IH]; intros n σ G Hstrip Hcons; simpl.
  - intros [= <- <-] HG _. split; [done|]. intros p l Hp. by apply elem_of_nil in Hp.
  - assert (∀ q, q ∈ pubs → strip (scholar_id q) = scholar_id q) as Hstrip'.
    { intros q Hq. apply Hstrip. by right. }
    assert (∀ q r l, q ∈ pubs → r ∈ pubs →
              l ∈ targets bt repo_index cutoff q →
              l ∈ targets bt repo_index cutoff r →
              scholar_id q = scholar_id r) as Hcons'.
    { intros q r l Hq Hr. apply Hcons; by right. }
    assert (targets bt repo_index cutoff p = [] →
            update_loop bt repo_index (index_keys repo_index) cutoff pubs n σ
              = (inr n', σ') →
            (∀ g, g ∈ G → holds_id σ g.1 g.2) →
            (∀ g q, g ∈ G → q ∈ p :: pubs →
               g.1 ∈ targets bt repo_index cutoff q → g.2 = scholar_id q) →
            (∀ g, g ∈ G → holds_id σ' g.1 g.2) ∧
            (∀ q l, q ∈ p :: pubs → l ∈ targets bt repo_index cutoff q →
               holds_id σ' l (scholar_id q))) as Hskip.
    { intros Et Hrun HG Hagree.
      destruct (IH n σ G Hstrip' Hcons' Hrun HG) as [H1 H2].
      - intros g q Hg Hq. apply Hagree; [done|by right].
      - split; [done|]. intros q l Hq Hl.
        apply elem_of_cons in Hq as [->|Hq]; [|by apply H2].
        rewrite Et in Hl. by apply elem_of_nil in Hl. }
    destruct (truthy (scholar_id p)) eqn:Esid; simpl.
    2: { apply Hskip. unfold targets. by rewrite Esid. }
    destruct (find_match bt _ (index_keys repo_index) cutoff) as [e|found] eqn:Ef;
      [done|].
    destruct (found_truthy found) eqn:Eft; simpl.
    2: { apply Hskip. unfold targets. by rewrite Esid, Ef, Eft. }
    destruct (index_get repo_index _) as [locs|] eqn:Eg; [|done].
    assert (targets bt repo_index cutoff p = locs) as Et.
    { unfold targets. by rewrite Esid, Ef, Eft, Eg. }
    destruct (update_rows (scholar_id p) locs n σ) as [[e|n1] σ1] eqn:Er; [done|].
    intros Hrun HG Hagree.
    assert (strip (scholar_id p) = scholar_id p) as Hsp by (apply Hstrip; by left).
    destruct (update_rows_establishes _ _ _ _ _ _ G Hsp Er HG) as [HG1 Hlocs1].
    { intros g Hg Hin. apply (Hagree g p); [done|by left|by rewrite Et]. }
    destruct (IH n1 σ1 (map (λ l, (l, scholar_id p)) locs ++ G) Hstrip' Hcons' Hrun)
      as [H1 H2].
    + intros g Hg. apply elem_of_app in Hg as [Hg|Hg]; [|by apply HG1].
      apply list_elem_of_fmap in Hg as (l & -> & Hl). by apply Hlocs1.
    + intros g q Hg Hq Hin. apply elem_of_app in Hg as [Hg|Hg].
      * apply list_elem_of_fmap in Hg as (l & -> & Hl). cbn [fst snd] in *.
        apply (Hcons p q l); [by left|by right|by rewrite Et|done].
      * apply Hagree; [done|by right|done].
    + split.
      * intros g Hg. apply H1, elem_of_app. by right.
      * intros q l Hq Hl. apply elem_of_cons in Hq as [->|Hq]; [|by apply H2].
        rewrite Et in Hl.
        apply (H1 (l, scholar_id p)), elem_of_app. left.
        apply list_elem_of_fmap. by exists l.
Qed.

Lemma update_loop_noop pubs n σ n' σ' m τ :
  update_loop bt repo_index (index_keys repo_index) cutoff pubs n σ = (inr n', σ') →
  (∀ p l, p ∈ pubs → l ∈ targets bt repo_index cutoff p →
     holds_id τ l (scholar_id p)) →
  update_loop bt repo_index (index_keys repo_index) cutoff pubs m τ = (inr m, τ).
Proof.
  revert n σ. induction pubs as [|p pubs IH]; intros n σ; simpl; [done|].
  intros Hrun Hheld.
  assert (∀ q l, q ∈ pubs → l ∈ targets bt repo_index cutoff q →
            holds_id τ l (scholar_id q)) as Hheld'.
  { intros q l Hq. apply Hheld. by right. }
  pose proof (Hheld p) as Hp. unfold targets in Hp.
  destruct (truthy (scholar_id p)) eqn:Esid; simpl in *; [|by eapply IH].
  destruct (find_match bt _ (index_keys repo_index) cutoff) as [e|found] eqn:Ef;
    [done|].
  destruct (found_truthy found) eqn:Eft; simpl in *; [|by eapply IH].
  destruct (index_get repo_index _) as [locs|] eqn:Eg; [|done].
  simpl in Hp.
  rewrite update_rows_noop by (intros l Hl; apply Hp; [by left|done]).
  destruct (update_rows (scholar_id p) locs n σ) as [[e|n1] σ1]; [done|].
  by eapply IH.
Qed.

End UpdateTwice.

(** C1 (amended). Update idempotence: when every identifier of the feed
    is free of surrounding whitespace and no two records of the feed that
    reach a common row carry different identifiers, a call of
    [update_scholar_ids] that returns is followed, on the tables as it
    left them and with the same feed, index and cutoff, by a call that
    returns zero updated cells and changes nothing. *)
Theorem update_scholar_ids_idempotent (bt : str → str → nat)
    (loaded_csv loaded_csv' : Loaded) (repo_index : Index)
    (scholar_pubs : list ScholarPub) (cutoff : Q) (n : nat) :
  (∀ p, p ∈ scholar_pubs → strip (scholar_id p) = scholar_id p) →
  (∀ p q l, p ∈ scholar_pubs → q ∈ scholar_pubs →
     l ∈ targets bt repo_index cutoff p → l ∈ targets bt repo_index cutoff q →
     scholar_id p = scholar_id q) →
  update_scholar_ids bt loaded_csv repo_index scholar_pubs cutoff
    = (inr n, loaded_csv') →
  update_scholar_ids bt loaded_csv' repo_index scholar_pubs cutoff
    = (inr O, loaded_csv').
Proof.
  unfold update_scholar_ids. intros Hstrip Hcons Hrun.
  eapply update_loop_noop; [exact Hrun|].
  destruct (update_loop_establishes bt repo_index cutoff scholar_pubs O loaded_csv
              n loaded_csv' [] Hstrip Hcons Hrun) as [_ H]; [| |done].
  - intros g Hg. by apply elem_of_nil in Hg.
  - intros g p Hg. by apply elem_of_nil in Hg.
Qed.

(** ** The index built from the files *)

Lemma setdefault_append_elem norm l by_title key locs :
  (key, locs) ∈ setdefault_append norm l by_title →
  (key, locs) ∈ by_title ∨
  key = norm ∧ (locs = [l] ∨ ∃ locs0, (key, locs0) ∈ by_title ∧ locs = locs0 ++ [l]).
Proof.
  induction by_title as [|[k ls] by_title IH]; simpl.
  - intros H. apply list_elem_of_singleton in H as [= -> ->]. right. split; [done|by left].
  - case_bool_decide as Hk.
    + intros H. apply elem_of_cons in H as [[= -> ->]|H].
      * right. split; [done|]. right. exists ls. split; [by left|done].
      * left. by right.
    + intros H. apply elem_of_cons in H as [[= -> ->]|H]; [left; by left|].
      destruct (IH H) as [H'|(-> & [->|(locs0 & H' & ->)])].
      * left. by right.
      * right. split; [done|by left].
      * right. split; [done|]. right. exists locs0. split; [by right|done].
Qed.

Lemma index_wf_append by_title loaded norm l headers rows row :
  index_wf by_title loaded →
  norm ≠ [] → loaded !! l.1 = Some (headers, rows) → py "Title" ∈ headers →
  rows !! l.2 = Some row → normalize_title (row_get (py "Title") row) = norm →
  index_wf (setdefault_append norm l by_title) loaded.
Proof.
  intros Hwf Hne E Hin Er Hnorm key locs Hel.
  assert (∃ headers rows row, loaded !! l.1 = Some (headers, rows) ∧
            py "Title" ∈ headers ∧ rows !! l.2 = Some row ∧
            normalize_title (row_get (py "Title") row) = norm) as Hl
    by (by exists headers, rows, row).
  apply setdefault_append_elem in Hel
    as [Hel|(-> & [->|(locs0 & Hel & ->)])].
  - by apply Hwf.
  - split; [done|]. split; [done|].
    intros l' Hl'. by apply list_elem_of_singleton in Hl' as ->.
  - destruct (Hwf _ _ Hel) as (_ & _ & H0). split; [done|]. split.
    + by destruct locs0.
    + intros l' Hl'. apply elem_of_app in Hl' as [Hl'|Hl']; [by apply H0|].
      by apply list_elem_of_singleton in Hl' as ->.
Qed.

Lemma index_rows_wf path headers rows loaded idx rows' by_title :
  loaded !! path = Some (headers, rows) → py "Title" ∈ headers →
  (∀ i row, rows' !! i = Some row → rows !! (idx + i)%nat = Some row) →
  index_wf by_title loaded →
  index_wf (index_rows path idx rows' by_title) loaded.
Proof.
  intros E Hin. revert idx by_title.
  induction rows' as [|row rows' IH]; intros idx by_title Hsuf Hwf; simpl; [done|].
  apply IH.
  - intros i r Hi. replace (S idx + i)%nat with (idx + S i)%nat by lia.
    by apply Hsuf.
  - destruct (truthy _) eqn:Et; [|done].
    eapply (index_wf_append _ _ _ (path, idx)); try done.
    + intros Hn. by rewrite Hn in Et.
    + cbn [snd]. replace idx with (idx + 0)%nat by lia. by apply Hsuf.
Qed.

(** Loading a table under a path keeps the index well-formed when the
    path, if it was loaded before, held the same table. *)
Lemma index_wf_load by_title loaded path t :
  (∀ t0, loaded !! path = Some t0 → t0 = t) →
  index_wf by_title loaded → index_wf by_title (<[path := t]> loaded).
Proof.
  intros Hsame Hwf key locs Hel.
  destruct (Hwf _ _ Hel) as (Hk & Hl & H). split; [done|]. split; [done|].
  intros l Hin. destruct (H l Hin) as (headers & rows & row & E & Hr).
  exists headers, rows, row. split; [|done].
  destruct (decide (path = l.1)) as [->|Hne].
  - rewrite lookup_insert_eq. by rewrite (Hsame _ E).
  - by rewrite lookup_insert_ne.
Qed.

Lemma build_loop_wf fs csv_files by_title loaded by_title' loaded' :
  (∀ path t, loaded !! path = Some t → read_csv fs path = inr t) →
  index_wf by_title loaded →
  build_loop fs csv_files by_title loaded = inr (by_title', loaded') →
  index_wf by_title' loaded'.
Proof.
  revert by_title loaded.
  induction csv_files as [|path csv_files IH]; intros by_title loaded Hfs Hwf; simpl.
  - by intros [= <- <-].
  - destruct (read_csv fs path) as [e|[headers rows]] eqn:E; [done|].
    assert (∀ p t, <[path := (headers, rows)]> loaded !! p = Some t →
              read_csv fs p = inr t) as Hfs'.
    { intros p t. destruct (decide (path = p)) as [<-|Hne].
      - rewrite lookup_insert_eq. by intros [= <-].
      - rewrite lookup_insert_ne by done. apply Hfs. }
    assert (index_wf by_title (<[path := (headers, rows)]> loaded)) as Hwf'.
    { apply index_wf_load; [|done]. intros t0 Ht0.
      apply Hfs in Ht0. rewrite E in Ht0. by injection Ht0. }
    case_bool_decide as Hin; apply IH; try done.
    eapply index_rows_wf; [apply lookup_insert_eq|done| |done].
    intros i row Hi. by rewrite Nat.add_0_l.
Qed.

(** C10. The index built by [build_repo_title_index] is well-formed: every
    key is non-empty and is the normalised title of a row, and every
    location under a key names a row of a loaded collection whose header
    has the title field and whose title normalises to exactly that key. *)
Theorem build_repo_title_index_wf (fs : FileSystem) (csv_files : list Path)
    (by_title : Index) (loaded : Loaded) :
  build_repo_title_index fs csv_files = inr (by_title, loaded) →
  index_wf by_title loaded.
Proof.
  unfold build_repo_title_index. apply build_loop_wf.
  - intros path t Ht. by rewrite lookup_empty in Ht.
  - intros key locs Hel. by apply elem_of_nil in Hel.
Qed.

(** Reading succeeds for every file that is there, so building does. *)
Lemma build_loop_total fs csv_files by_title loaded :
  (∀ path, path ∈ csv_files → is_Some (fs !! path)) →
  ∃ r, build_loop fs csv_files by_title loaded = inr r.
Proof.
  revert by_title loaded.
  induction csv_files as [|path csv_files IH]; intros by_title loaded H; simpl;
    [by eexists|].
  destruct (H path) as [raw Hraw]; [by left|].
  unfold read_csv. rewrite Hraw.
  assert (∀ p, p ∈ csv_files → is_Some (fs !! p)) as H' by (intros p Hp; apply H; by right).
  destruct raw as [|headers data]; case_bool_decide; by apply IH.
Qed.

(** ** Rows against the header *)

Lemma clear_fields_lookup (d : gmap str str) keys k :
  k ∈ keys → foldl (λ d key, <[key := []]> d) d keys !! k = Some [].
Proof.
  revert d. induction keys as [|key keys IH] using rev_ind; intros d Hk.
  - by apply elem_of_nil in Hk.
  - rewrite foldl_app. simpl. destruct (decide (key = k)) as [->|Hne].
    + by rewrite lookup_insert_eq.
    + rewrite lookup_insert_ne by done. apply IH.
      apply elem_of_app in Hk as [Hk|Hk]; [done|].
      by apply list_elem_of_singleton in Hk.
Qed.

Lemma zip_dict_dom (d : gmap str str) fieldnames row k :
  is_Some (foldl (λ d kv, <[kv.1 := kv.2]> d) d (zip fieldnames row) !! k) →
  is_Some (d !! k) ∨ k ∈ fieldnames.
Proof.
  revert d row. induction fieldnames as [|f fieldnames IH]; intros d [|v row];
    simpl; auto.
  intros H. apply IH in H as [H|H]; [|right; by right].
  destruct (decide (f = k)) as [->|Hne]; [right; by left|].
  rewrite lookup_insert_ne in H by done. by left.
Qed.

Lemma clear_fields_dom (d : gmap str str) keys k :
  is_Some (foldl (λ d key, <[key := []]> d) d keys !! k) →
  is_Some (d !! k) ∨ k ∈ keys.
Proof.
  revert d. induction keys as [|key keys IH]; intros d; simpl; auto.
  intros H. apply IH in H as [H|H]; [|right; by right].
  destruct (decide (key = k)) as [->|Hne]; [right; by left|].
  rewrite lookup_insert_ne in H by done. by left.
Qed.

(** A row shorter than the header: nothing goes under [None], and every
    header name the row does not reach reads as "". *)
Lemma dict_reader_row_short fieldnames row :
  (length row ≤ length fieldnames)%nat →
  rest (dict_reader_row fieldnames row) = None ∧
  ∀ k, k ∈ drop (length row) fieldnames →
    cells (dict_reader_row fieldnames row) !! k = Some [].
Proof.
  intros Hlen. unfold dict_reader_row.
  destruct (length fieldnames <? length row)%nat eqn:E.
  { apply Nat.ltb_lt in E. lia. }
  split; [done|]. intros k Hk. cbn [cells]. by apply clear_fields_lookup.
Qed.

(** The keys of a row dictionary are header names. *)
Lemma dict_reader_row_keys fieldnames row k :
  is_Some (cells (dict_reader_row fieldnames row) !! k) → k ∈ fieldnames.
Proof.
  unfold dict_reader_row.
  destruct (length fieldnames <? length row)%nat; cbn [cells]; intros H.
  - apply zip_dict_dom in H as [H|H]; [|done].
    rewrite lookup_empty in H. by destruct H.
  - apply clear_fields_dom in H as [H|H].
    + apply zip_dict_dom in H as [H|H]; [|done].
      rewrite lookup_empty in H. by destruct H.
    + by eapply subseteq_drop.
Qed.

(** Such a row is written without complaint. *)
Lemma dict_to_list_short fieldnames row :
  (length row ≤ length fieldnames)%nat →
  ∃ fields, dict_to_list fieldnames (dict_reader_row fieldnames row) = inr fields.
Proof.
  intros Hlen. unfold dict_to_list. eexists.
  rewrite bool_decide_eq_true_2; [done|].
  split; [by apply dict_reader_row_short|].
  apply Forall_forall. intros k Hk.
  apply elem_of_elements, elem_of_dom in Hk. by eapply dict_reader_row_keys.
Qed.

(** A row longer than the header keeps its surplus under [None], and
    [DictWriter] refuses the dictionary, whatever the header. *)
Lemma dict_to_list_long fieldnames row headers :
  (length fieldnames < length row)%nat →
  dict_to_list headers (dict_reader_row fieldnames row) = inl ValueError.
Proof.
  intros Hlen. unfold dict_to_list, dict_reader_row.
  apply Nat.ltb_lt in Hlen. rewrite Hlen. cbn [rest].
  by rewrite bool_decide_eq_false_2 by (by intros [? _]).
Qed.

(** C5 (the code departs from it). A data row with more fields than the
    header is loaded, matched and annotated, but rewriting its collection
    raises [ValueError]; the file, already truncated, is left with its
    header and the rows that precede the long one. *)
Theorem long_row_rewrite_raises :
  ∃ by_title loaded loaded' headers rows fs',
    build_repo_title_index long_row_fs ["pubs.csv"] = inr (by_title, loaded) ∧
    update_scholar_ids matching_total loaded by_title sample_feed (94 # 100)
      = (inr 1%nat, loaded') ∧
    loaded' !! "pubs.csv" = Some (headers, rows) ∧
    write_csv long_row_fs "pubs.csv" headers rows = (Some ValueError, fs') ∧
    fs' !! "pubs.csv"
      = Some [ [py "Title"; py "Scholar ID"]; [py "Sparse Matrix Inversion"; []] ].
Proof.
  do 6 eexists. split; [vm_compute; reflexivity|].
  split; [vm_compute; reflexivity|].
  split; [vm_compute; reflexivity|].
  split; [vm_compute; reflexivity|].
  vm_compute. reflexivity.
Qed.

(** ** The reference scenarios, evaluated *)

Example sample_index_keys :
  index_keys sample_index = [py "graphcoloringrevisited"; py "sparsematrixinversion"].
Proof. vm_compute. reflexivity. Qed.

Example sample_compare :
  compare matching_total sample_feed sample_index (94 # 100)
  = inr (1%nat, [mk_pub "Completely Unrelated Paper" "zzz"]).
Proof. vm_compute. reflexivity. Qed.

Example sample_update :
  (update_scholar_ids matching_total sample_loaded sample_index sample_feed (94 # 100)).1
    = inr 1%nat ∧
  (annotated_table sample_feed).1 = [py "Title"; py "Year"; py "Scholar ID"] ∧
  map (row_get (py "Scholar ID")) (annotated_table sample_feed).2 = [py "abc123"; []].
Proof. vm_compute. done. Qed.

Example two_files_update :
  let '(by_title, loaded) := built two_files_fs ["a.csv"; "b.csv"] in
  let r := update_scholar_ids matching_total loaded by_title sample_feed (94 # 100) in
  index_get by_title (py "graphcoloringrevisited") = Some [("a.csv", O); ("b.csv", O)] ∧
  r.1 = inr 2%nat ∧
  (λ t : Table, map (row_get (py "Scholar ID")) t.2) <$> r.2 !! "a.csv"
    = Some [py "abc123"] ∧
  (λ t : Table, map (row_get (py "Scholar ID")) t.2) <$> r.2 !! "b.csv"
    = Some [py "abc123"].
Proof. vm_compute. done. Qed.

(** A title with a typing slip: two blocks, 18 and 3 long, out of 22 and
    21 characters, so a ratio of 42/43. *)
Example fuzzy_choice :
  matching_total (py "graphcoloringrevisited") (py "graphcoloringrevisted") = 21%nat ∧
  find_match matching_total (py "graphcoloringrevisted") (index_keys sample_index) (94 # 100)
  = inr (Some (py "graphcoloringrevisited")) ∧
  find_match matching_total (py "graphcoloringrevisted") (index_keys sample_index) (98 # 100)
  = inr None.
Proof. vm_compute. done. Qed.

(** The examples of the library's documentation. *)
Example difflib_longest_match :
  find_longest_match (py " abcd") (py "abcd abcd") 0 5 0 9 = (O, 4, 5)%nat.
Proof. vm_compute. reflexivity. Qed.

Example difflib_ratios :
  ratio matching_total (py "abcd") (py "bcde") = (6 # 8)%Q ∧
  quick_ratio (py "abcd") (py "bcde") = (6 # 8)%Q ∧
  real_quick_ratio (py "abcd") (py "bcde") = (8 # 8)%Q.
Proof. vm_compute. done. Qed.

(** Among equal scores the greater candidate wins, wherever it stands. *)
Example tie_break :
  find_match matching_total (py "abcd") [py "abcy"; py "abcx"] (1 # 2)
    = inr (Some (py "abcy")) ∧
  find_match matching_total (py "abcd") [py "abcx"; py "abcy"] (1 # 2)
    = inr (Some (py "abcy")).
Proof. vm_compute. done. Qed.

(** At cutoff 0, which the command line and the matcher accept, the empty
    title does reach a row. *)
Example empty_title_at_cutoff_zero :
  (update_scholar_ids matching_total sample_loaded sample_index [untitled_pub] 0).1
    = inr 1%nat.
Proof. vm_compute. reflexivity. Qed.

(** C4. The comparison pass of [main] skips a record whose normalised
    title is empty, but [update_scholar_ids], which has no such test, does
    not: at cutoff 0 the record titled "?!" with identifier id9 is neither
    matched nor missing, and yet the update counts one cell and writes id9
    into the row of the greatest key, which had no identifier. *)
Theorem empty_title_updates_row :
  normalize_title (title untitled_pub) = [] ∧
  compare matching_total [untitled_pub] sample_index 0 = inr (O, []) ∧
  find_match matching_total [] (index_keys sample_index) 0
    = inr (Some (py "sparsematrixinversion")) ∧
  (update_scholar_ids matching_total sample_loaded sample_index [untitled_pub] 0).1
    = inr 1%nat ∧
  map (row_get (py "Scholar ID")) sample_table.2 = [[]; []] ∧
  map (row_get (py "Scholar ID"))
    (default ([], [])
       ((update_scholar_ids matching_total sample_loaded sample_index [untitled_pub] 0).2
          !! "pubs.csv")).2
    = [[]; py "id9"].
Proof. vm_compute. done. Qed.

Example cutoff_out_of_range :
  find_match matching_total (py "abc") [py "abd"] (3 # 2) = inl ValueError.
Proof. vm_compute. reflexivity. Qed.

(** ** The properties at sample inputs *)

Lemma find_match_exact_witness :
  find_match matching_total (py "sparsematrixinversion") (index_keys sample_index) 1
  = inr (Some (py "sparsematrixinversion")).
Proof.
  apply find_match_exact.
  apply (bool_decide_unpack _). vm_compute. exact I.
Defined.

Lemma find_match_cutoff_monotone_witness :
  find_match matching_total (py "graphcoloringrevisted") (index_keys sample_index) (1 # 2)
  = inr (Some (py "graphcoloringrevisited")).
Proof.
  apply (find_match_cutoff_monotone matching_total matching_total_le_quick
           _ _ (94 # 100) (1 # 2)).
  - unfold Qle; simpl; lia.
  - unfold Qlt; simpl; lia.
  - vm_compute. reflexivity.
Defined.

Lemma compare_partition_witness :
  ∃ matched missing,
    compare matching_total sample_feed sample_index (94 # 100) = inr (matched, missing) ∧
    (matched + length missing)%nat = length (List.filter titled sample_feed) ∧
    missing =
      List.filter
        (λ p, titled p &&
              negb (has_match matching_total (index_keys sample_index) (94 # 100) p))
        sample_feed.
Proof.
  apply compare_partition; unfold Qle; simpl; lia.
Defined.

Lemma empty_title_skipped_witness :
  compare matching_total ([mk_pub "Sparse matrix inversion" "s1"] ++ untitled_pub :: sample_feed)
      sample_index (94 # 100)
    = compare matching_total ([mk_pub "Sparse matrix inversion" "s1"] ++ sample_feed)
        sample_index (94 # 100) ∧
  update_scholar_ids matching_total sample_loaded sample_index
      ([mk_pub "Sparse matrix inversion" "s1"] ++ untitled_pub :: sample_feed) (94 # 100)
    = update_scholar_ids matching_total sample_loaded sample_index
        ([mk_pub "Sparse matrix inversion" "s1"] ++ sample_feed) (94 # 100).
Proof.
  apply empty_title_skipped.
  - vm_compute. reflexivity.
  - unfold Qlt; simpl; lia.
  - unfold Qle; simpl; lia.
Defined.

Lemma schema_add_defines_field_witness :
  ∃ row' v, (annotated_table sample_feed).2 !! 1%nat = Some row' ∧
            cells row' !! py "Scholar ID" = Some v.
Proof.
  apply (schema_add_defines_field matching_total sample_loaded sample_index sample_feed
           (94 # 100) "pubs.csv" sample_table.1 (annotated_table sample_feed).1
           sample_table.2 (annotated_table sample_feed).2 ltac:(vm_compute; reflexivity)
           ltac:(vm_compute; reflexivity)
           ltac:(apply (bool_decide_unpack _); vm_compute; exact I)
           ltac:(apply (bool_decide_unpack _); vm_compute; exact I)
           1%nat (default {| cells := ∅; rest := None |} (sample_table.2 !! 1%nat))).
  vm_compute. reflexivity.
Defined.

Lemma build_repo_title_index_wf_witness : index_wf sample_index sample_loaded.
Proof.
  apply (build_repo_title_index_wf sample_fs ["pubs.csv"]).
  vm_compute. reflexivity.
Defined.

Lemma sample_feed_stripped p :
  p ∈ sample_feed → strip (scholar_id p) = scholar_id p.
Proof.
  intros Hp. repeat (apply elem_of_cons in Hp as [->|Hp]; [vm_compute; reflexivity|]).
  by apply elem_of_nil in Hp.
Defined.

Lemma sample_feed_consistent p q l :
  p ∈ sample_feed → q ∈ sample_feed →
  l ∈ targets matching_total sample_index (94 # 100) p →
  l ∈ targets matching_total sample_index (94 # 100) q →
  scholar_id p = scholar_id q.
Proof.
  intros Hp Hq.
  repeat (apply elem_of_cons in Hp as [->|Hp]);
    [| |by apply elem_of_nil in Hp];
    (repeat (apply elem_of_cons in Hq as [->|Hq]);
      [| |by apply elem_of_nil in Hq]);
    try reflexivity; vm_compute targets; intros H1 H2;
    (by apply elem_of_nil in H1) || (by apply elem_of_nil in H2).
Defined.

Lemma update_scholar_ids_idempotent_witness :
  update_scholar_ids matching_total (annotated sample_feed) sample_index sample_feed
    (94 # 100)
  = (inr O, annotated sample_feed).
Proof.
  apply (update_scholar_ids_idempotent matching_total sample_loaded
           (annotated sample_feed) sample_index sample_feed (94 # 100) 1
           sample_feed_stripped sample_feed_consistent).
  vm_compute. reflexivity.
Defined.

Example twice_listed_counts_again :
  update_scholar_ids matching_total sample_loaded sample_index twice_listed_feed (94 # 100)
    = (inr 2%nat, annotated twice_listed_feed) ∧
  (update_scholar_ids matching_total (annotated twice_listed_feed) sample_index
     twice_listed_feed (94 # 100)).1
    = inr 2%nat.
Proof. split; vm_compute; reflexivity. Qed.

(** C1 as stated fails: a feed that lists one paper under two identifiers
    makes every call overwrite the row twice, so the second call counts
    two updated cells again instead of none. *)
Lemma update_scholar_ids_not_idempotent :
  ¬ (∀ (bt : str → str → nat) (loaded_csv loaded_csv' : Loaded)
       (repo_index : Index) (scholar_pubs : list ScholarPub) (cutoff : Q) (n : nat),
       update_scholar_ids bt loaded_csv repo_index scholar_pubs cutoff
         = (inr n, loaded_csv') →
       (update_scholar_ids bt loaded_csv' repo_index scholar_pubs cutoff).1 = inr O).
Proof.
  intros H. destruct twice_listed_counts_again as [H1 H2].
  specialize (H _ _ _ _ _ _ _ H1). rewrite H2 in H. discriminate H.
Qed.

(** ** Loading and exporting the feed *)

Lemma stripped_field_trimmed v dflt :
  strip (stripped_field v dflt) = stripped_field v dflt.
Proof. apply strip_idempotent. Qed.

Lemma strip_json : strip (py "json") = py "json".
Proof. reflexivity. Qed.

(** X1. Every record [load_scholar_from_json] returns has trimmed fields,
    a non-empty title and a non-empty source. *)
Theorem load_scholar_from_json_tidy (data : list RawPub) (p : ScholarPub) :
  p ∈ load_scholar_from_json data → tidy_pub p.
Proof.
  unfold load_scholar_from_json. rewrite list_elem_of_In, filter_In.
  intros [Hin Ht]. apply in_map_iff in Hin as (row & <- & _).
  unfold tidy_pub. cbn [title scholar_id year venue source] in *.
  repeat split; try apply stripped_field_trimmed.
  - intros Hn. by rewrite Hn in Ht.
  - destruct (truthy (stripped_field (raw_source row) (py "json")));
      [apply stripped_field_trimmed|apply strip_json].
  - destruct (truthy (stripped_field (raw_source row) (py "json"))) eqn:E.
    + intros Hn. by rewrite Hn in E.
    + done.
Qed.

Lemma load_scholar_live_fields publications p :
  p ∈ load_scholar_live publications → tidy_pub p ∧ source p = py "live".
Proof.
  unfold load_scholar_live. rewrite list_elem_of_In.
  intros Hin. apply in_map_iff in Hin as (row & <- & Hrow).
  apply filter_In in Hrow as [_ Ht].
  unfold tidy_pub. cbn [title scholar_id year venue source].
  repeat split; try apply stripped_field_trimmed; try done.
  intros Hn. by rewrite Hn in Ht.
Qed.

(** X2. Every record [load_scholar_live] returns has trimmed fields, a
    non-empty title and the source "live". *)
Theorem load_scholar_live_tidy (publications : list RawPub) (p : ScholarPub) :
  p ∈ load_scholar_live publications → tidy_pub p ∧ source p = py "live".
Proof.
  apply load_scholar_live_fields.
Qed.

Lemma load_export_tidy pubs :
  Forall tidy_pub pubs → load_scholar_from_json (export_payload pubs) = pubs.
Proof.
  unfold load_scholar_from_json, export_payload.
  induction 1 as [|p pubs Hp _ IH]; [done|].
  destruct Hp as (Ht & Hne & Hi & Hy & Hv & Hs & Hsn).
  destruct p as [t i y v s]. cbn [title scholar_id year venue source] in *.
  unfold stripped_field in *. simpl in *.
  rewrite Ht, Hi, Hy, Hv, Hs.
  assert (truthy t = true) as -> by (by destruct t).
  assert (truthy s = true) as -> by (by destruct s).
  f_equal. apply IH.
Qed.

(** X3. The cache round trip: what a live fetch returned is read back
    unchanged from the export that [main] writes of it. *)
Theorem export_then_load_live (publications : list RawPub) :
  load_scholar_from_json (export_payload (load_scholar_live publications))
  = load_scholar_live publications.
Proof.
  apply load_export_tidy, Forall_forall. intros p Hp.
  by apply load_scholar_live_fields in Hp as [Hp _].
Qed.

(** ** Rows and tables, read and written *)

Lemma zip_dict_notin (d : gmap str str) fieldnames row k :
  k ∉ fieldnames →
  foldl (λ d kv, <[kv.1 := kv.2]> d) d (zip fieldnames row) !! k = d !! k.
Proof.
  revert d row. induction fieldnames as [|f fieldnames IH]; intros d [|v row] Hk;
    simpl; try done.
  rewrite IH by (intros ?; apply Hk; by right).
  rewrite lookup_insert_ne; [done|]. intros ->. apply Hk. by left.
Qed.

Lemma zip_dict_lookup (d : gmap str str) fieldnames row i k v :
  NoDup fieldnames → fieldnames !! i = Some k → row !! i = Some v →
  foldl (λ d kv, <[kv.1 := kv.2]> d) d (zip fieldnames row) !! k = Some v.
Proof.
  revert d row i. induction fieldnames as [|f fieldnames IH]; intros d [|v0 row] i Hnd;
    try done.
  apply NoDup_cons in Hnd as [Hf Hnd]. destruct i as [|i]; simpl.
  - intros [= ->] [= ->]. rewrite zip_dict_notin by done. apply lookup_insert_eq.
  - intros Hk Hv. by eapply IH.
Qed.

Lemma zip_dict_keep (d : gmap str str) fieldnames row k :
  is_Some (d !! k) →
  is_Some (foldl (λ d kv, <[kv.1 := kv.2]> d) d (zip fieldnames row) !! k).
Proof.
  revert d row. induction fieldnames as [|f fieldnames IH]; intros d [|v row] Hk;
    simpl; try done.
  apply IH. destruct (decide (f = k)) as [->|Hne].
  - rewrite lookup_insert_eq. by eexists.
  - by rewrite lookup_insert_ne.
Qed.

Lemma zip_dict_in (d : gmap str str) fieldnames row k :
  k ∈ take (length row) fieldnames →
  is_Some (foldl (λ d kv, <[kv.1 := kv.2]> d) d (zip fieldnames row) !! k).
Proof.
  revert d row. induction fieldnames as [|f fieldnames IH]; intros d [|v row];
    simpl; try (intros H; by apply elem_of_nil in H).
  intros H. apply elem_of_cons in H as [->|H].
  - apply zip_dict_keep. rewrite lookup_insert_eq. by eexists.
  - by apply IH.
Qed.

Lemma clear_fields_keep (d : gmap str str) keys k :
  is_Some (d !! k) → is_Some (foldl (λ d key, <[key := []]> d) d keys !! k).
Proof.
  revert d. induction keys as [|key keys IH]; intros d Hk; simpl; [done|].
  apply IH. destruct (decide (key = k)) as [->|Hne].
  - rewrite lookup_insert_eq. by eexists.
  - by rewrite lookup_insert_ne.
Qed.

Lemma clear_fields_notin (d : gmap str str) keys k :
  k ∉ keys → foldl (λ d key, <[key := []]> d) d keys !! k = d !! k.
Proof.
  revert d. induction keys as [|key keys IH]; intros d Hk; simpl; [done|].
  rewrite IH by (intros ?; apply Hk; by right).
  rewrite lookup_insert_ne; [done|]. intros ->. apply Hk. by left.
Qed.

(** The named fields of a row dictionary are exactly the header names,
    whatever the length of the row. *)
Lemma dict_reader_row_keys_exact fieldnames row k :
  is_Some (cells (dict_reader_row fieldnames row) !! k) ↔ k ∈ fieldnames.
Proof.
  split; [apply dict_reader_row_keys|]. intros Hk.
  unfold dict_reader_row.
  destruct (length fieldnames <? length row)%nat eqn:E; cbn [cells].
  - apply Nat.ltb_lt in E. apply zip_dict_in. rewrite take_ge by lia. done.
  - rewrite <- (take_drop (length row) fieldnames) in Hk.
    apply elem_of_app in Hk as [Hk|Hk].
    + by apply clear_fields_keep, zip_dict_in.
    + rewrite clear_fields_lookup by done. by eexists.
Qed.

Lemma read_csv_rows_keys_aux fs path headers rows :
  read_csv fs path = inr (headers, rows) →
  Forall (λ r, ∀ k, is_Some (cells r !! k) ↔ k ∈ headers) rows.
Proof.
  unfold read_csv. destruct (fs !! path) as [[|h data]|]; try done.
  - intros [= <- <-]. constructor.
  - intros [= <- <-]. apply Forall_forall. intros r Hr.
    apply list_elem_of_fmap in Hr as (row & -> & _).
    intros k. apply dict_reader_row_keys_exact.
Qed.

(** X4. Every row [read_csv] returns has a value under every header name
    and under no other name. *)
Theorem read_csv_rows_keys (fs : FileSystem) (path : Path)
    (headers : list str) (rows : list Row) :
  read_csv fs path = inr (headers, rows) →
  Forall (λ r, ∀ k, is_Some (cells r !! k) ↔ k ∈ headers) rows.
Proof. apply read_csv_rows_keys_aux. Qed.

Lemma dict_reader_row_get fieldnames row i k :
  NoDup fieldnames → fieldnames !! i = Some k →
  cells (dict_reader_row fieldnames row) !! k = Some (default [] (row !! i)).
Proof.
  intros Hnd Hk. unfold dict_reader_row.
  pose proof (lookup_lt_Some _ _ _ Hk) as Hi.
  destruct (length fieldnames <? length row)%nat eqn:E; cbn [cells].
  - apply Nat.ltb_lt in E. destruct (row !! i) as [v|] eqn:Hv; simpl.
    + by eapply zip_dict_lookup.
    + apply lookup_ge_None in Hv. unfold str in *. lia.
  - apply Nat.ltb_ge in E. destruct (row !! i) as [v|] eqn:Hv; simpl.
    + rewrite clear_fields_notin; [by eapply zip_dict_lookup|].
      intros Hin. apply list_elem_of_lookup in Hin as [j Hj].
      rewrite lookup_drop in Hj.
      pose proof (NoDup_lookup _ _ _ _ Hnd Hk Hj) as Hij.
      apply lookup_lt_Some in Hv. unfold str in *. lia.
    + apply clear_fields_lookup. apply list_elem_of_lookup.
      apply lookup_ge_None in Hv. exists (i - length row)%nat.
      rewrite lookup_drop. unfold str in *. by replace (length row + (i - length row))%nat with i by lia.
Qed.

(** X5. With distinct header names, the value a row dictionary holds under
    the i-th name is the i-th field of the row, and "" when the row is too
    short to have one. *)
Theorem dict_reader_row_field (fieldnames row : list str) (i : nat) (k : str) :
  NoDup fieldnames → fieldnames !! i = Some k →
  row_get k (dict_reader_row fieldnames row) = default [] (row !! i).
Proof.
  intros Hnd Hk. unfold row_get. by rewrite (dict_reader_row_get _ _ i).
Qed.

(** X6. With distinct header names, a row no longer than the header is
    written back as it was read, padded with empty fields to the length of
    the header. *)
Theorem dict_to_list_reads_back (fieldnames row : list str) :
  NoDup fieldnames → (length row ≤ length fieldnames)%nat →
  dict_to_list fieldnames (dict_reader_row fieldnames row)
  = inr (row ++ replicate (length fieldnames - length row) []).
Proof.
  intros Hnd Hlen. unfold dict_to_list.
  rewrite bool_decide_eq_true_2.
  2: { split; [by apply dict_reader_row_short|].
       apply Forall_forall. intros k Hk.
       apply elem_of_elements, elem_of_dom in Hk. by eapply dict_reader_row_keys. }
  f_equal. apply list_eq. intros i. rewrite list_lookup_fmap.
  destruct (fieldnames !! i) as [k|] eqn:Hk; simpl.
  - unfold row_get. rewrite (dict_reader_row_get _ _ i) by done. cbn [default from_option].
    destruct (row !! i) as [v|] eqn:Hv; simpl.
    + by rewrite lookup_app_l by (by eapply lookup_lt_Some).
    + apply lookup_ge_None in Hv. apply lookup_lt_Some in Hk.
      unfold str in *.
      rewrite lookup_app_r by done. symmetry. apply lookup_replicate_2. lia.
  - apply lookup_ge_None in Hk. symmetry. apply lookup_ge_None.
    unfold str in *. rewrite length_app, length_replicate. lia.
Qed.

Lemma dict_to_list_within headers r :
  rest r = None → keys_within headers r →
  dict_to_list headers r = inr (row_fields headers r).
Proof.
  intros Hr Hk. unfold dict_to_list. rewrite bool_decide_eq_true_2; [done|].
  split; [done|]. apply Forall_forall. intros k Hin.
  apply elem_of_elements, elem_of_dom in Hin. by apply Hk.
Qed.

Lemma dict_to_list_surplus headers r :
  rest r ≠ None → dict_to_list headers r = inl ValueError.
Proof.
  intros Hr. unfold dict_to_list.
  by rewrite bool_decide_eq_false_2 by (by intros [? _]).
Qed.

Lemma writerows_plain headers rows :
  Forall (λ r, rest r = None ∧ keys_within headers r) rows →
  writerows headers rows = (map (row_fields headers) rows, None).
Proof.
  induction 1 as [|r rows [Hr Hk] _ IH]; simpl; [done|].
  by rewrite dict_to_list_within, IH.
Qed.

(** X7. [DictWriter.writerows] stops at the first row with surplus
    fields: the rows before it are written, [ValueError] is raised, and
    the rows after it are not looked at. *)
Theorem writerows_stops_at_surplus (headers : list str)
    (before after : list Row) (r : Row) :
  Forall (λ r, rest r = None ∧ keys_within headers r) before →
  rest r ≠ None →
  writerows headers (before ++ r :: after)
  = (map (row_fields headers) before, Some ValueError).
Proof.
  intros Hb Hr. induction Hb as [|r0 before [Hr0 Hk0] _ IH]; simpl.
  - by rewrite dict_to_list_surplus.
  - by rewrite dict_to_list_within, IH.
Qed.





(** ** More on the index *)

Lemma index_get_setdefault_append_eq norm l by_title :
  ∃ locs, index_get (setdefault_append norm l by_title) norm = Some locs ∧ l ∈ locs.
Proof.
  induction by_title as [|[k ls] by_title IH]; simpl.
  - rewrite bool_decide_eq_true_2 by done. exists [l]. split; [done|by left].
  - case_bool_decide as Hk; simpl.
    + rewrite bool_decide_eq_true_2 by done. exists (ls ++ [l]). split; [done|].
      apply elem_of_app. right. by left.
    + by rewrite bool_decide_eq_false_2 by done.
Qed.

Lemma indexed_setdefault_append norm l by_title key l' :
  indexed by_title key l' → indexed (setdefault_append norm l by_title) key l'.
Proof.
  intros (locs & Hget & Hin). unfold indexed.
  induction by_title as [|[k ls] by_title IH]; simpl in *; [done|].
  case_bool_decide as Hk.
  - destruct (bool_decide (k = norm)) eqn:E; simpl; rewrite bool_decide_eq_true_2 by done.
    + injection Hget as <-. exists (ls ++ [l]). split; [done|].
      apply elem_of_app. by left.
    + exists locs. by split.
  - destruct (bool_decide (k = norm)) eqn:E; simpl;
      rewrite bool_decide_eq_false_2 by done.
    + by exists locs.
    + by apply IH.
Qed.

Lemma index_rows_keeps path idx rows by_title key l :
  indexed by_title key l → indexed (index_rows path idx rows by_title) key l.
Proof.
  revert idx by_title. induction rows as [|row rows IH]; intros idx by_title H;
    cbn [index_rows]; [done|].
  apply IH. destruct (truthy _); [by apply indexed_setdefault_append|done].
Qed.

Lemma index_rows_adds path idx rows by_title i row :
  rows !! i = Some row →
  normalize_title (row_get (py "Title") row) ≠ [] →
  indexed (index_rows path idx rows by_title)
    (normalize_title (row_get (py "Title") row)) (path, (idx + i)%nat).
Proof.
  revert idx by_title i. induction rows as [|r rows IH]; intros idx by_title i;
    [done|].
  destruct i as [|i]; intros Hi Hne; simpl in Hi; cbn [index_rows].
  - injection Hi as ->. apply index_rows_keeps.
    destruct (truthy (normalize_title (row_get (py "Title") row))) eqn:E.
    + rewrite Nat.add_0_r. apply index_get_setdefault_append_eq.
    + exfalso. apply Hne. by destruct (normalize_title _).
  - replace (idx + S i)%nat with (S idx + i)%nat by lia. by apply IH.
Qed.

Lemma build_loop_keeps fs csv_files by_title loaded by_title' loaded' key l :
  build_loop fs csv_files by_title loaded = inr (by_title', loaded') →
  indexed by_title key l → indexed by_title' key l.
Proof.
  revert by_title loaded. induction csv_files as [|path csv_files IH];
    intros by_title loaded; cbn [build_loop].
  - by intros [= <- <-].
  - destruct (read_csv fs path) as [e|[headers rows]]; [done|].
    case_bool_decide; intros Hb Hi; eapply IH; try exact Hb; try done.
    by apply index_rows_keeps.
Qed.

Lemma build_loop_complete fs csv_files by_title loaded by_title' loaded'
    path headers rows i row :
  build_loop fs csv_files by_title loaded = inr (by_title', loaded') →
  path ∈ csv_files → read_csv fs path = inr (headers, rows) →
  py "Title" ∈ headers → rows !! i = Some row →
  normalize_title (row_get (py "Title") row) ≠ [] →
  indexed by_title' (normalize_title (row_get (py "Title") row)) (path, i).
Proof.
  intros Hb Hin Hread Ht Hi Hne. revert by_title loaded Hb.
  induction csv_files as [|p csv_files IH]; intros by_title loaded; cbn [build_loop].
  - by apply elem_of_nil in Hin.
  - apply elem_of_cons in Hin as [->|Hin].
    + rewrite Hread. rewrite bool_decide_eq_true_2 by done. intros Hb.
      eapply build_loop_keeps; [exact Hb|].
      by apply (index_rows_adds p 0 rows by_title i row).
    + destruct (read_csv fs p) as [e|[h r]]; [done|].
      case_bool_decide; by apply IH.
Qed.

(** X9. The index misses no row: in every file listed whose header has the
    title field, each row whose title has a non-empty normal form is listed
    under that normal form, at its position. *)
Theorem build_repo_title_index_complete (fs : FileSystem) (csv_files : list Path)
    (by_title : Index) (loaded : Loaded) (path : Path)
    (headers : list str) (rows : list Row) (i : nat) (row : Row) :
  build_repo_title_index fs csv_files = inr (by_title, loaded) →
  path ∈ csv_files → read_csv fs path = inr (headers, rows) →
  py "Title" ∈ headers → rows !! i = Some row →
  normalize_title (row_get (py "Title") row) ≠ [] →
  indexed by_title (normalize_title (row_get (py "Title") row)) (path, i).
Proof. unfold build_repo_title_index. apply build_loop_complete. Qed.

Lemma build_loop_loaded fs csv_files by_title loaded by_title' loaded' path :
  build_loop fs csv_files by_title loaded = inr (by_title', loaded') →
  loaded' !! path =
    if bool_decide (path ∈ csv_files)
    then match read_csv fs path with inr t => Some t | inl _ => None end
    else loaded !! path.
Proof.
  revert by_title loaded. induction csv_files as [|p csv_files IH];
    intros by_title loaded; cbn [build_loop].
  - intros [= <- <-]. by rewrite bool_decide_eq_false_2 by apply not_elem_of_nil.
  - destruct (read_csv fs p) as [e|[h r]] eqn:E; [done|].
    assert (build_loop fs csv_files
              (if bool_decide (py "Title" ∈ h) then index_rows p 0 r by_title else by_title)
              (<[p := (h, r)]> loaded) = inr (by_title', loaded') →
            loaded' !! path =
              if bool_decide (path ∈ p :: csv_files)
              then match read_csv fs path with inr t => Some t | inl _ => None end
              else loaded !! path) as H.
    { intros Hb. rewrite (IH _ _ Hb).
      destruct (decide (path ∈ csv_files)) as [Hin|Hin].
      - rewrite !bool_decide_eq_true_2; [done|by right|done].
      - rewrite (bool_decide_eq_false_2 (path ∈ csv_files)) by done.
        destruct (decide (p = path)) as [->|Hne].
        + rewrite bool_decide_eq_true_2 by (by left).
          by rewrite lookup_insert_eq, E.
        + rewrite lookup_insert_ne by done.
          rewrite bool_decide_eq_false_2; [done|].
          intros Hc. apply elem_of_cons in Hc as [->|Hc]; done. }
    by case_bool_decide.
Qed.

(** X10. What is loaded is what was read: after a successful build, a path
    has a table exactly when it is listed, and the table is the one
    [read_csv] returns for it. *)
Theorem build_repo_title_index_loaded (fs : FileSystem) (csv_files : list Path)
    (by_title : Index) (loaded : Loaded) (path : Path) (t : Table) :
  build_repo_title_index fs csv_files = inr (by_title, loaded) →
  loaded !! path = Some t ↔ path ∈ csv_files ∧ read_csv fs path = inr t.
Proof.
  unfold build_repo_title_index. intros Hb.
  rewrite (build_loop_loaded _ _ _ _ _ _ path Hb).
  case_bool_decide as Hin.
  - destruct (read_csv fs path) as [e|t']; split.
    + done.
    + by intros [_ ?].
    + intros [= ->]. by split.
    + intros [_ [= ->]]. done.
  - rewrite lookup_empty. split; [done|]. by intros [? _].
Qed.



(** ** More on the matcher *)

Lemma str_ltb_cases x y :
  (str_ltb x y = true ∧ str_ltb y x = false ∧ x ≠ y) ∨
  (x = y ∧ str_ltb x y = false) ∨
  (str_ltb y x = true ∧ str_ltb x y = false ∧ x ≠ y).
Proof.
  revert y. induction x as [|c x IH]; intros [|d y]; simpl.
  - right. left. done.
  - left. done.
  - right. right. done.
  - destruct (N.compare_spec c d) as [->|Hlt|Hgt].
    + rewrite N.ltb_irrefl, N.eqb_refl. simpl.
      destruct (IH y) as [(H1 & H2 & H3)|[(-> & H2)|(H1 & H2 & H3)]].
      * left. repeat split; try done. congruence.
      * right. left. done.
      * right. right. repeat split; try done. congruence.
    + left. assert ((c <? d) = true) as -> by by apply N.ltb_lt.
      assert ((d <? c) = false) as -> by (apply N.ltb_ge; lia).
      assert ((d =? c) = false) as -> by (apply N.eqb_neq; lia).
      simpl. repeat split; try done. intros [= -> _]. lia.
    + right. right. assert ((d <? c) = true) as -> by by apply N.ltb_lt.
      assert ((c <? d) = false) as -> by (apply N.ltb_ge; lia).
      assert ((c =? d) = false) as -> by (apply N.eqb_neq; lia).
      simpl. repeat split; try done. intros [= -> _]. lia.
Qed.

Lemma str_ltb_trans x y z :
  str_ltb x y = true → str_ltb y z = true → str_ltb x z = true.
Proof.
  revert y z. induction x as [|c x IH]; intros [|d y] [|e z]; simpl; try done.
  rewrite !orb_true_iff, !andb_true_iff, !N.ltb_lt, !N.eqb_eq.
  intros [H1|[-> H1]] [H2|[-> H2]].
  - left. lia.
  - by left.
  - by left.
  - right. split; [done|]. by eapply IH.
Qed.

(** [x <= y] on strings, as the negation of [y < x], is transitive. *)
Lemma str_leb_trans x y z :
  str_ltb y x = false → str_ltb z y = false → str_ltb z x = false.
Proof.
  intros H1 H2.
  destruct (str_ltb_cases x y) as [(A & _ & _)|[(-> & _)|(A & _ & _)]];
    [|done|congruence].
  destruct (str_ltb_cases y z) as [(B & _ & _)|[(<- & _)|(B & _ & _)]];
    [|done|congruence].
  pose proof (str_ltb_trans x y z A B) as C.
  destruct (str_ltb_cases x z) as [(_ & D & _)|[(_ & D)|(_ & D & _)]]; congruence.
Qed.

Lemma tuple_gt_spec (p q : Q * str) :
  tuple_gt p q = true ↔
  (q.1 < p.1)%Q ∨ ((p.1 == q.1)%Q ∧ str_ltb q.2 p.2 = true).
Proof.
  unfold tuple_gt. destruct (Qeq_bool p.1 q.1) eqn:E.
  - apply Qeq_bool_iff in E. split.
    + intros H. right. by split.
    + intros [H|[_ H]]; [|done]. rewrite E in H. by apply Qlt_irrefl in H.
  - assert (¬ (p.1 == q.1)%Q) as Hne.
    { intros H. apply Qeq_bool_iff in H. congruence. }
    rewrite negb_true_iff. split.
    + intros H. left. apply Qnot_le_lt. intros Hle.
      apply Qle_bool_iff in Hle. congruence.
    + intros [H|[H _]]; [|done].
      destruct (Qle_bool p.1 q.1) eqn:E'; [|done].
      apply Qle_bool_iff in E'. by apply Qlt_not_le in H.
Qed.

Lemma tuple_gt_false (p q : Q * str) :
  tuple_gt p q = false ↔
  (p.1 < q.1)%Q ∨ ((p.1 == q.1)%Q ∧ str_ltb q.2 p.2 = false).
Proof.
  split.
  - intros H. destruct (Q_dec p.1 q.1) as [[Hlt|Hgt]|Heq].
    + by left.
    + assert (tuple_gt p q = true) by (apply tuple_gt_spec; by left). congruence.
    + right. split; [done|]. destruct (str_ltb q.2 p.2) eqn:E; [|done].
      assert (tuple_gt p q = true) by (apply tuple_gt_spec; by right). congruence.
  - intros H. destruct (tuple_gt p q) eqn:E; [|done].
    apply tuple_gt_spec in E. destruct H as [H|[H1 H2]], E as [E|[E1 E2]].
    + exfalso. eapply Qlt_irrefl, Qlt_trans; eauto.
    + rewrite E1 in H. by apply Qlt_irrefl in H.
    + rewrite H1 in E. by apply Qlt_irrefl in E.
    + congruence.
Qed.

(** The order on scored candidates is transitive. *)
Lemma tuple_le_trans (p q r : Q * str) :
  tuple_gt p q = false → tuple_gt q r = false → tuple_gt p r = false.
Proof.
  rewrite !tuple_gt_false. intros [H1|[H1 S1]] [H2|[H2 S2]].
  - left. by eapply Qlt_trans.
  - left. by rewrite <- H2.
  - left. by rewrite H1.
  - right. split; [by rewrite H1|]. by eapply str_leb_trans.
Qed.

Lemma tuple_gt_asym (p q : Q * str) : tuple_gt p q = true → tuple_gt q p = false.
Proof.
  rewrite tuple_gt_spec, tuple_gt_false. intros [H|[H S]].
  - by left.
  - right. split; [by symmetry|].
    destruct (str_ltb_cases q.2 p.2) as [(_ & D & _)|[(_ & D)|(_ & D & _)]];
      congruence.
Qed.

Lemma tuple_le_antisym (p q : Q * str) :
  tuple_gt p q = false → tuple_gt q p = false → p.2 = q.2.
Proof.
  rewrite !tuple_gt_false. intros [H1|[H1 S1]] [H2|[H2 S2]].
  - exfalso. eapply Qlt_irrefl, Qlt_trans; eauto.
  - rewrite H2 in H1. by apply Qlt_irrefl in H1.
  - rewrite H1 in H2. by apply Qlt_irrefl in H2.
  - destruct (str_ltb_cases p.2 q.2) as [(D & _ & _)|[(D & _)|(D & _ & _)]].
    + rewrite D in S2. discriminate.
    + exact D.
    + rewrite D in S1. discriminate.
Qed.

Lemma tuple_gt_irrefl (p : Q * str) : tuple_gt p p = false.
Proof.
  apply tuple_gt_false. right. split; [reflexivity|].
  by destruct (str_ltb_cases p.2 p.2) as [(_ & _ & D)|[(_ & D)|(_ & _ & D)]].
Qed.

(** [max] returns an item of the list that no item exceeds. *)
Lemma max_from_max first items :
  max_from first items ∈ first :: items ∧
  ∀ item, item ∈ first :: items → tuple_gt item (max_from first items) = false.
Proof.
  unfold max_from. revert first.
  induction items as [|it items IH]; intros first; simpl.
  - split; [by left|]. intros item Hin.
    apply list_elem_of_singleton in Hin as ->. apply tuple_gt_irrefl.
  - destruct (tuple_gt it first) eqn:E.
    + destruct (IH it) as [Hin Hmax]. split.
      * right. done.
      * intros item Hitem. apply elem_of_cons in Hitem as [->|Hitem].
        -- eapply tuple_le_trans; [by apply tuple_gt_asym|]. apply Hmax. by left.
        -- by apply Hmax.
    + destruct (IH first) as [Hin Hmax]. split.
      * apply elem_of_cons in Hin as [->|Hin]; [by left|right; by right].
      * intros item Hitem. apply elem_of_cons in Hitem as [->|Hitem].
        -- apply Hmax. by left.
        -- apply elem_of_cons in Hitem as [->|Hitem].
           ++ eapply tuple_le_trans; [exact E|]. apply Hmax. by left.
           ++ apply Hmax. by right.
Qed.

Lemma scored_elem bt word poss cutoff item :
  item ∈ scored bt word poss cutoff ↔
  ∃ x, x ∈ poss ∧ close_enough bt word cutoff x = true ∧ item = (ratio bt x word, x).
Proof.
  induction poss as [|y poss IH]; simpl.
  - split; [intros H; by apply elem_of_nil in H|].
    intros (x & H & _). by apply elem_of_nil in H.
  - destruct (close_enough bt word cutoff y) eqn:E.
    + rewrite elem_of_cons, IH. split.
      * intros [->|(x & Hx & Hc & ->)]; [exists y|exists x]; repeat split; try done;
          [by left|by right].
      * intros (x & Hx & Hc & ->). apply elem_of_cons in Hx as [->|Hx]; [by left|].
        right. by exists x.
    + rewrite IH. split.
      * intros (x & Hx & Hc & ->). exists x. repeat split; try done. by right.
      * intros (x & Hx & Hc & ->). apply elem_of_cons in Hx as [->|Hx]; [congruence|].
        by exists x.
Qed.

(** What a fuzzy answer is: the second component of a scored candidate
    that no scored candidate exceeds. *)
Lemma get_close_matches_best bt word poss cutoff x :
  get_close_matches bt word poss cutoff = inr [x] →
  (ratio bt x word, x) ∈ scored bt word poss cutoff ∧
  ∀ item, item ∈ scored bt word poss cutoff →
    tuple_gt item (ratio bt x word, x) = false.
Proof.
  unfold get_close_matches. destruct (negb _); [done|]. intros [= H].
  destruct (scored bt word poss cutoff) as [|first items] eqn:E; [done|].
  simpl in H. injection H as H.
  destruct (max_from_max first items) as [Hin Hmax].
  assert (max_from first items = (ratio bt x word, x)) as Hm.
  { rewrite <- E in Hin. apply scored_elem in Hin as (y & _ & _ & Hy).
    rewrite Hy in H. simpl in H. by subst. }
  rewrite <- Hm. by split.
Qed.

Lemma find_match_fuzzy bt key keys cutoff x :
  key ∉ keys → find_match bt key keys cutoff = inr (Some x) →
  get_close_matches bt key keys cutoff = inr [x].
Proof.
  intros Hk. unfold find_match. rewrite bool_decide_eq_false_2 by done.
  destruct (get_close_matches bt key keys cutoff) as [e|maybe] eqn:E; [done|].
  intros [= Hx]. revert E Hx. unfold get_close_matches.
  destruct (negb _); [done|]. intros [= <-].
  destruct (scored bt key keys cutoff); simpl; [done|]. by intros [= ->].
Qed.

Lemma find_match_elem bt key keys cutoff x :
  find_match bt key keys cutoff = inr (Some x) → x ∈ keys.
Proof.
  destruct (decide (key ∈ keys)) as [Hin|Hin].
  - rewrite find_match_in by done. by intros [= <-].
  - intros H. apply find_match_fuzzy in H; [|done].
    apply get_close_matches_best in H as [H _].
    apply scored_elem in H as (y & Hy & _ & [= _ ->]). done.
Qed.

(** X12. [find_match] never invents a key: whatever it returns is one of
    the candidates, so [repo_index[match]] cannot miss. *)
Theorem find_match_returns_candidate (bt : str → str → nat) (key : str)
    (keys : list str) (cutoff : Q) (x : str) :
  find_match bt key keys cutoff = inr (Some x) → x ∈ keys.
Proof. apply find_match_elem. Qed.

(** X13. A fuzzy answer is the best candidate: when the key is not among
    the candidates and [find_match] returns [x], the ratio of [x] reaches
    the cutoff and no candidate has a higher ratio. *)
Theorem find_match_returns_best (bt : str → str → nat) (key : str)
    (keys : list str) (cutoff : Q) (x : str) :
  (∀ a b, (bt a b ≤ quick_total a b)%nat) →
  key ∉ keys → find_match bt key keys cutoff = inr (Some x) →
  (cutoff <= ratio bt x key)%Q ∧
  ∀ y, y ∈ keys → (ratio bt y key <= ratio bt x key)%Q.
Proof.
  intros Hbt Hk H. apply find_match_fuzzy in H; [|done].
  apply get_close_matches_best in H as [Hin Hmax].
  apply scored_elem in Hin as (x' & _ & Hc & [= _ <-]).
  pose proof (close_enough_true bt key cutoff x Hc) as Hx.
  split; [done|]. intros y Hy.
  destruct (close_enough bt key cutoff y) eqn:E.
  - assert (tuple_gt (ratio bt y key, y) (ratio bt x key, x) = false) as Hle.
    { apply Hmax, scored_elem. by exists y. }
    apply tuple_gt_false in Hle as [Hlt|[Heq _]]; simpl in *.
    + by apply Qlt_le_weak.
    + rewrite Heq. apply Qle_refl.
  - apply (close_enough_false bt Hbt) in E.
    apply Qlt_le_weak. by eapply Qlt_le_trans.
Qed.

Lemma scored_Permutation bt word keys keys' cutoff :
  keys ≡ₚ keys' → scored bt word keys cutoff ≡ₚ scored bt word keys' cutoff.
Proof.
  induction 1 as [|x l l' _ IH|x y l|l l' l'' _ IH1 _ IH2]; simpl.
  - done.
  - destruct (close_enough bt word cutoff x); [by constructor|done].
  - destruct (close_enough bt word cutoff x), (close_enough bt word cutoff y);
      try done. apply perm_swap.
  - by etrans.
Qed.

Lemma nlargest1_Permutation (l l' : list (Q * str)) :
  l ≡ₚ l' → map snd (nlargest1 l) = map snd (nlargest1 l').
Proof.
  intros Hp. destruct l as [|first items], l' as [|first' items']; simpl.
  - done.
  - by apply Permutation_nil_cons in Hp.
  - symmetry in Hp. by apply Permutation_nil_cons in Hp.
  - destruct (max_from_max first items) as [Hin Hmax].
    destruct (max_from_max first' items') as [Hin' Hmax'].
    f_equal. apply tuple_le_antisym.
    + apply Hmax'. by rewrite <- Hp.
    + apply Hmax. by rewrite Hp.
Qed.

(** X14. The order of the candidates does not matter: [find_match]
    returns the same answer on any rearrangement of the candidate keys
    (among equal ratios the greatest string wins, wherever it stands). *)
Theorem find_match_order_independent (bt : str → str → nat) (key : str)
    (keys keys' : list str) (cutoff : Q) :
  keys ≡ₚ keys' → find_match bt key keys cutoff = find_match bt key keys' cutoff.
Proof.
  intros Hp. unfold find_match.
  assert (bool_decide (key ∈ keys) = bool_decide (key ∈ keys')) as ->.
  { apply bool_decide_ext. by rewrite Hp. }
  case_bool_decide; [done|].
  unfold get_close_matches. destruct (negb _); [done|].
  by rewrite (nlargest1_Permutation _ _ (scored_Permutation bt key keys keys' cutoff Hp)).
Qed.

(** ** More on the comparison pass and the update *)

Section PassProperties.

Variable bt : str → str → nat.

Lemma find_match_raises key keys cutoff e :
  find_match bt key keys cutoff = inl e →
  e = ValueError ∧ (key ∉ keys) ∧ ¬ ((0 <= cutoff)%Q ∧ (cutoff <= 1)%Q).
Proof.
  unfold find_match. case_bool_decide as Hk; [done|].
  unfold get_close_matches.
  destruct (Qle_bool 0 cutoff && Qle_bool cutoff 1) eqn:E; simpl; [done|].
  intros [= <-]. split; [done|]. split; [done|]. intros [H0 H1].
  apply Qle_bool_iff in H0, H1. by rewrite H0, H1 in E.
Qed.

Lemma find_match_invalid key keys cutoff :
  key ∉ keys → ¬ ((0 <= cutoff)%Q ∧ (cutoff <= 1)%Q) →
  find_match bt key keys cutoff = inl ValueError.
Proof.
  intros Hk Hc. unfold find_match, get_close_matches.
  rewrite bool_decide_eq_false_2 by done.
  destruct (Qle_bool 0 cutoff && Qle_bool cutoff 1) eqn:E; simpl; [|done].
  exfalso. apply Hc. apply andb_true_iff in E as [H0 H1].
  split; by apply Qle_bool_iff.
Qed.

Lemma compare_loop_raises keys cutoff pubs missing matched e :
  compare_loop bt keys cutoff pubs missing matched = inl e →
  e = ValueError ∧ ¬ ((0 <= cutoff)%Q ∧ (cutoff <= 1)%Q) ∧
  ∃ p, p ∈ pubs ∧ titled p = true ∧ normalize_title (title p) ∉ keys.
Proof.
  revert missing matched. induction pubs as [|pub pubs IH]; intros missing matched;
    cbn [compare_loop]; [done|].
  fold (titled pub). destruct (titled pub) eqn:Et; simpl.
  - destruct (find_match bt _ keys cutoff) as [e'|found] eqn:Ef.
    + intros [= <-]. apply find_match_raises in Ef as (-> & Hk & Hc).
      split; [done|]. split; [done|]. exists pub. split; [by left|done].
    + destruct (found_truthy found); intros H; apply IH in H as (-> & Hc & p & Hp & H);
        (split; [done|]); (split; [done|]); exists p; (split; [by right|done]).
  - intros H; apply IH in H as (-> & Hc & p & Hp & H).
    split; [done|]. split; [done|]. exists p. split; [by right|done].
Qed.

Lemma compare_loop_invalid keys cutoff pubs missing matched p :
  ¬ ((0 <= cutoff)%Q ∧ (cutoff <= 1)%Q) →
  p ∈ pubs → titled p = true → normalize_title (title p) ∉ keys →
  compare_loop bt keys cutoff pubs missing matched = inl ValueError.
Proof.
  intros Hc Hp Ht Hk. revert missing matched.
  induction pubs as [|pub pubs IH]; intros missing matched; cbn [compare_loop].
  - by apply elem_of_nil in Hp.
  - fold (titled pub). destruct (titled pub) eqn:Et; simpl.
    + destruct (decide (normalize_title (title pub) ∈ keys)) as [Hin|Hin].
      * rewrite find_match_in by done.
        apply elem_of_cons in Hp as [->|Hp]; [done|].
        destruct (found_truthy _); by apply IH.
      * by rewrite find_match_invalid.
    + apply elem_of_cons in Hp as [->|Hp]; [congruence|]. by apply IH.
Qed.

(** X15. The comparison pass raises nothing but the [ValueError] of
    [get_close_matches], and raises it exactly when the cutoff lies
    outside [0,1] and some record with a non-empty normalised title has no
    exact match among the keys; with a cutoff inside it never raises. *)
Theorem compare_raises_iff (pubs : list ScholarPub) (repo_index : Index)
    (cutoff : Q) :
  (∀ e, compare bt pubs repo_index cutoff = inl e → e = ValueError) ∧
  (compare bt pubs repo_index cutoff = inl ValueError ↔
   ¬ ((0 <= cutoff)%Q ∧ (cutoff <= 1)%Q) ∧
   ∃ p, p ∈ pubs ∧ titled p = true ∧
        normalize_title (title p) ∉ index_keys repo_index).
Proof.
  unfold compare. split; [|split].
  - intros e He. by apply compare_loop_raises in He as (? & _).
  - intros He. by apply compare_loop_raises in He as (_ & ? & ?).
  - intros [Hc (p & Hp & Ht & Hk)]. by eapply compare_loop_invalid.
Qed.

End PassProperties.

Lemma index_get_elem by_title key locs :
  index_get by_title key = Some locs → (key, locs) ∈ by_title.
Proof.
  induction by_title as [|[k ls] by_title IH]; simpl; [done|].
  case_bool_decide as Hk.
  - intros [= ->]. subst. by left.
  - intros H. right. by apply IH.
Qed.

Lemma index_get_keys by_title key :
  key ∈ index_keys by_title → is_Some (index_get by_title key).
Proof.
  unfold index_keys. induction by_title as [|[k ls] by_title IH]; simpl.
  - intros H. by apply elem_of_nil in H.
  - intros H. case_bool_decide as Hk; [by eexists|].
    apply elem_of_cons in H as [->|H]; [done|]. by apply IH.
Qed.

Lemma ensure_sid_length t : length (ensure_sid t).2 = length t.2.
Proof. unfold ensure_sid. case_bool_decide; [done|]. cbn [snd]. apply length_map. Qed.

Lemma update_row_ok sid l σ :
  loc_ok σ l → ∃ n, (update_row sid l σ).1 = inr n.
Proof.
  intros (headers & rows & E & Hlen). rewrite update_row_unfold, E. cbn zeta.
  destruct ((ensure_sid (headers, rows)).2 !! l.2) as [row|] eqn:Er.
  - case_bool_decide; by eexists.
  - apply lookup_ge_None in Er. rewrite ensure_sid_length in Er.
    cbn [snd] in Er. lia.
Qed.

Lemma loc_ok_frame σ σ' l : frame σ σ' → loc_ok σ l → loc_ok σ' l.
Proof.
  intros Hf (headers & rows & E & Hlen).
  destruct (frame_lookup _ _ _ _ _ Hf E) as (h' & r' & E' & _ & Hl & _).
  exists h', r'. split; [done|]. lia.
Qed.

Lemma update_rows_frame sid locs n σ : frame σ (update_rows sid locs n σ).2.
Proof.
  apply (update_rows_preserves (frame σ)); [|apply frame_refl].
  intros sid' l σ' Hσ. eapply frame_trans; [exact Hσ|apply update_row_frame].
Qed.

Lemma update_rows_ok sid locs n σ :
  (∀ l, l ∈ locs → loc_ok σ l) → ∃ n', (update_rows sid locs n σ).1 = inr n'.
Proof.
  revert n σ. induction locs as [|l locs IH]; intros n σ Hok; simpl; [by eexists|].
  destruct (update_row_ok sid l σ) as [k Hk]; [apply Hok; by left|].
  pose proof (update_row_frame sid l σ) as Hf.
  destruct (update_row sid l σ) as [[e|k'] σ1]; simpl in *; [done|].
  apply IH. intros l' Hl'. eapply loc_ok_frame; [exact Hf|]. apply Hok. by right.
Qed.

Section UpdateNeverRaises.

Variable bt : str → str → nat.
Variable repo_index : Index.
Variable cutoff : Q.
Hypothesis cutoff_lo : (0 <= cutoff)%Q.
Hypothesis cutoff_hi : (cutoff <= 1)%Q.

Lemma update_loop_ok pubs n σ :
  (∀ key locs l, (key, locs) ∈ repo_index → l ∈ locs → loc_ok σ l) →
  ∃ n', (update_loop bt repo_index (index_keys repo_index) cutoff pubs n σ).1 = inr n'.
Proof.
  revert n σ. induction pubs as [|p pubs IH]; intros n σ Hok; cbn [update_loop];
    [by eexists|].
  destruct (negb (truthy (scholar_id p))); [by apply IH|].
  destruct (find_match_total bt (normalize_title (title p)) (index_keys repo_index)
              cutoff cutoff_lo cutoff_hi) as [found Ef].
  rewrite Ef. destruct (found_truthy found) eqn:Et; simpl; [|by apply IH].
  destruct found as [x|]; [|done]. cbn [default from_option id].
  assert (x ∈ index_keys repo_index) as Hx by by eapply find_match_elem.
  destruct (index_get_keys _ _ Hx) as [locs Hlocs]. rewrite Hlocs.
  apply index_get_elem in Hlocs.
  destruct (update_rows_ok (scholar_id p) locs n σ) as [n1 Hn1];
    [intros l Hl; by eapply Hok|].
  pose proof (update_rows_frame (scholar_id p) locs n σ) as Hf.
  destruct (update_rows (scholar_id p) locs n σ) as [[e|n1'] σ1]; simpl in *; [done|].
  apply IH. intros key locs' l Hk Hl. eapply loc_ok_frame; [exact Hf|]. by eapply Hok.
Qed.

End UpdateNeverRaises.

Lemma update_scholar_ids_total bt loaded_csv repo_index scholar_pubs cutoff :
  index_wf repo_index loaded_csv → (0 <= cutoff)%Q → (cutoff <= 1)%Q →
  ∃ n loaded_csv',
    update_scholar_ids bt loaded_csv repo_index scholar_pubs cutoff
    = (inr n, loaded_csv').
Proof.
  intros Hwf H0 H1. unfold update_scholar_ids.
  destruct (update_loop_ok bt repo_index cutoff H0 H1 scholar_pubs O loaded_csv)
    as [n Hn].
  - intros key locs l Hk Hl. destruct (Hwf key locs Hk) as (_ & _ & Hlocs).
    destruct (Hlocs l Hl) as (headers & rows & row & E & _ & Hr & _).
    exists headers, rows. split; [done|]. by eapply lookup_lt_Some.
  - destruct (update_loop _ _ _ _ _ _ _) as [r σ']. simpl in Hn. subst r.
    by exists n, σ'.
Qed.

(** X16. Against a well-formed index, and with a cutoff in [0,1],
    [update_scholar_ids] raises nothing: no [KeyError] from the index or
    the tables, no [IndexError] from a row position, no [ValueError]. *)
Theorem update_scholar_ids_returns (bt : str → str → nat) (loaded_csv : Loaded)
    (repo_index : Index) (scholar_pubs : list ScholarPub) (cutoff : Q) :
  index_wf repo_index loaded_csv → (0 <= cutoff)%Q → (cutoff <= 1)%Q →
  ∃ n loaded_csv',
    update_scholar_ids bt loaded_csv repo_index scholar_pubs cutoff
    = (inr n, loaded_csv').
Proof.
  apply update_scholar_ids_total.
Qed.

(** ** What the update touches *)

Section UpdateTouches.

Variable bt : str → str → nat.
Variable repo_index : Index.
Variable cutoff : Q.
Variable P : Loaded → Prop.
Variable A : loc → Prop.
Hypothesis P_update_row : ∀ sid l σ, A l → P σ → P (update_row sid l σ).2.

Lemma update_rows_preserves_on sid locs n σ :
  (∀ l, l ∈ locs → A l) → P σ → P (update_rows sid locs n σ).2.
Proof.
  revert n σ. induction locs as [|l locs IH]; intros n σ HA HP; simpl; [done|].
  assert (P (update_row sid l σ).2) as HP' by (apply P_update_row; [apply HA; by left|done]).
  destruct (update_row sid l σ) as [[e|k] σ']; simpl in *; [done|].
  apply IH; [|done]. intros l' Hl'. apply HA. by right.
Qed.

Lemma update_loop_preserves_on pubs n σ :
  (∀ p l, p ∈ pubs → l ∈ targets bt repo_index cutoff p → A l) →
  P σ → P (update_loop bt repo_index (index_keys repo_index) cutoff pubs n σ).2.
Proof.
  revert n σ. induction pubs as [|p pubs IH]; intros n σ HA HP; cbn [update_loop];
    [done|].
  assert (∀ q l, q ∈ pubs → l ∈ targets bt repo_index cutoff q → A l) as HA'.
  { intros q l Hq. apply HA. by right. }
  pose proof (HA p) as Hp. unfold targets in Hp.
  destruct (truthy (scholar_id p)); simpl in *; [|by apply IH].
  destruct (find_match bt _ (index_keys repo_index) cutoff) as [e|found]; [done|].
  destruct (found_truthy found); simpl in *; [|by apply IH].
  destruct (index_get repo_index _) as [locs|]; [|done]. simpl in Hp.
  assert (P (update_rows (scholar_id p) locs n σ).2) as HP'.
  { apply update_rows_preserves_on; [|done]. intros l Hl. apply Hp; [by left|done]. }
  destruct (update_rows (scholar_id p) locs n σ) as [[e|n1] σ1]; simpl in *; [done|].
  by apply IH.
Qed.

End UpdateTouches.

Lemma update_row_other_path sid l σ path :
  l.1 ≠ path → (update_row sid l σ).2 !! path = σ !! path.
Proof.
  intros Hne. rewrite update_row_unfold.
  destruct (σ !! l.1) as [t|]; [|done]. cbn zeta.
  destruct ((ensure_sid t).2 !! l.2) as [row|]; [case_bool_decide|];
    cbn [snd]; by rewrite lookup_insert_ne.
Qed.

(** X17. A collection none of whose rows is reached by a record of the
    feed comes out of [update_scholar_ids] exactly as it went in, header
    included, however the call ends. *)
Theorem update_scholar_ids_unreached_table (bt : str → str → nat)
    (loaded_csv : Loaded) (repo_index : Index) (scholar_pubs : list ScholarPub)
    (cutoff : Q) (path : Path) :
  (∀ p l, p ∈ scholar_pubs → l ∈ targets bt repo_index cutoff p → l.1 ≠ path) →
  (update_scholar_ids bt loaded_csv repo_index scholar_pubs cutoff).2 !! path
  = loaded_csv !! path.
Proof.
  intros Hun. unfold update_scholar_ids.
  apply (update_loop_preserves_on bt repo_index cutoff
           (λ σ, σ !! path = loaded_csv !! path) (λ l, l.1 ≠ path)); [|done|done].
  intros sid l σ Hl Hσ. by rewrite update_row_other_path.
Qed.

Lemma row_setdefault_twice r :
  row_setdefault (py "Scholar ID") [] (row_setdefault (py "Scholar ID") [] r)
  = row_setdefault (py "Scholar ID") [] r.
Proof.
  unfold row_setdefault at 1.
  destruct (has_sid_setdefault [] r) as [v Hv]. by rewrite Hv.
Qed.

Lemma ensure_sid_row t i r :
  t.2 !! i = Some r →
  (ensure_sid t).2 !! i = Some r ∨
  (ensure_sid t).2 !! i = Some (row_setdefault (py "Scholar ID") [] r).
Proof.
  intros Hi. unfold ensure_sid. case_bool_decide; [by left|].
  right. cbn [snd]. by rewrite list_lookup_fmap, Hi.
Qed.

Lemma update_row_row_kept sid l σ l0 r0 :
  l ≠ l0 → row_kept σ l0 r0 → row_kept (update_row sid l σ).2 l0 r0.
Proof.
  intros Hne (headers & rows & r & E & Er & Hr).
  destruct (decide (l.1 = l0.1)) as [Hp|Hp].
  2: { exists headers, rows, r. by rewrite update_row_other_path. }
  assert (l.2 ≠ l0.2) as Hi.
  { intros Hi. apply Hne. destruct l, l0; simpl in *; congruence. }
  rewrite update_row_unfold, Hp, E. cbn zeta.
  assert (∃ r', (ensure_sid (headers, rows)).2 !! l0.2 = Some r' ∧
                (r' = r0 ∨ r' = row_setdefault (py "Scholar ID") [] r0))
    as (r' & Er' & Hr').
  { destruct (ensure_sid_row (headers, rows) l0.2 r Er) as [H|H];
      eexists; (split; [exact H|]).
    - done.
    - right. destruct Hr as [-> | ->]; [done|apply row_setdefault_twice]. }
  destruct (ensure_sid (headers, rows)) as [h' rows']. cbn [fst snd] in *.
  destruct (rows' !! l.2) as [row|].
  - case_bool_decide; cbn [snd].
    + exists h', (<[l.2 := row_set (py "Scholar ID") sid row]> rows'), r'.
      rewrite lookup_insert_eq. split; [done|]. split; [|done].
      by rewrite list_lookup_insert_ne.
    + exists h', rows', r'. by rewrite lookup_insert_eq.
  - exists h', rows', r'. cbn [snd]. by rewrite lookup_insert_eq.
Qed.

(** X18. A row no record of the feed reaches is left alone: after
    [update_scholar_ids], however it ends, the row is what it was, or what
    it was with an empty identifier added when its collection gained the
    column. *)
Theorem update_scholar_ids_unreached_row (bt : str → str → nat)
    (loaded_csv : Loaded) (repo_index : Index) (scholar_pubs : list ScholarPub)
    (cutoff : Q) (l0 : loc) (headers : list str) (rows : list Row) (r0 : Row) :
  loaded_csv !! l0.1 = Some (headers, rows) → rows !! l0.2 = Some r0 →
  (∀ p, p ∈ scholar_pubs → l0 ∉ targets bt repo_index cutoff p) →
  row_kept (update_scholar_ids bt loaded_csv repo_index scholar_pubs cutoff).2 l0 r0.
Proof.
  intros E Er Hun. unfold update_scholar_ids.
  apply (update_loop_preserves_on bt repo_index cutoff
           (λ σ, row_kept σ l0 r0) (λ l, l ≠ l0)).
  - intros sid l σ Hl Hσ. by apply update_row_row_kept.
  - intros p l Hp Hl ->. by apply (Hun p).
  - exists headers, rows, r0. by repeat split; [..|left].
Qed.

(** X19. On return, with a feed of trimmed identifiers in which no two
    records that reach a common row disagree, every row a record reaches
    holds that record's identifier, in a collection that has the column. *)
Theorem update_scholar_ids_writes_ids (bt : str → str → nat)
    (loaded_csv loaded_csv' : Loaded) (repo_index : Index)
    (scholar_pubs : list ScholarPub) (cutoff : Q) (n : nat)
    (p : ScholarPub) (l : loc) :
  (∀ p, p ∈ scholar_pubs → strip (scholar_id p) = scholar_id p) →
  (∀ p q l, p ∈ scholar_pubs → q ∈ scholar_pubs →
     l ∈ targets bt repo_index cutoff p → l ∈ targets bt repo_index cutoff q →
     scholar_id p = scholar_id q) →
  update_scholar_ids bt loaded_csv repo_index scholar_pubs cutoff
    = (inr n, loaded_csv') →
  p ∈ scholar_pubs → l ∈ targets bt repo_index cutoff p →
  holds_id loaded_csv' l (scholar_id p).
Proof.
  unfold update_scholar_ids. intros Hstrip Hcons Hrun Hp Hl.
  destruct (update_loop_establishes bt repo_index cutoff scholar_pubs O loaded_csv
              n loaded_csv' [] Hstrip Hcons Hrun) as [_ H].
  - intros g Hg. by apply elem_of_nil in Hg.
  - intros g q Hg. by apply elem_of_nil in Hg.
  - by apply H.
Qed.

Lemma update_loop_skip_no_id bt ix keys cutoff pre p post n σ :
  scholar_id p = [] →
  update_loop bt ix keys cutoff (pre ++ p :: post) n σ =
  update_loop bt ix keys cutoff (pre ++ post) n σ.
Proof.
  intros Hp. revert n σ.
  induction pre as [|q pre IH]; intros n σ; simpl.
  - by rewrite Hp.
  - destruct (negb (truthy (scholar_id q))); [apply IH|].
    destruct (find_match bt _ keys cutoff) as [e|found]; [done|].
    destruct (negb (found_truthy found)); [apply IH|].
    destruct (index_get ix _) as [locs|]; [|done].
    destruct (update_rows _ locs n σ) as [[e|n'] σ']; [done|apply IH].
Qed.

(** X20. A record without identifier takes no part in the update:
    wherever it stands in the feed and whatever the cutoff,
    [update_scholar_ids] returns the same count, or raises the same
    exception, and leaves the same tables as without it. *)
Theorem update_scholar_ids_skips_no_id (bt : str → str → nat)
    (loaded_csv : Loaded) (repo_index : Index) (pre post : list ScholarPub)
    (p : ScholarPub) (cutoff : Q) :
  scholar_id p = [] →
  update_scholar_ids bt loaded_csv repo_index (pre ++ p :: post) cutoff =
  update_scholar_ids bt loaded_csv repo_index (pre ++ post) cutoff.
Proof. intros Hp. by apply update_loop_skip_no_id. Qed.

(** ** The count and the identifiers *)

Lemma row_get_setdefault r :
  row_get (py "Scholar ID") (row_setdefault (py "Scholar ID") [] r)
  = row_get (py "Scholar ID") r.
Proof.
  unfold row_setdefault. destruct (cells r !! py "Scholar ID") eqn:E; [done|].
  unfold row_get, row_set. cbn [cells]. rewrite lookup_insert_eq.
  etrans; [|symmetry; exact (f_equal (default []) E)]. done.
Qed.

Lemma ensure_sid_ids t : table_ids (ensure_sid t) = table_ids t.
Proof.
  unfold ensure_sid. case_bool_decide; [done|].
  unfold table_ids. cbn [snd]. rewrite map_map.
  apply map_ext. intros r. apply row_get_setdefault.
Qed.

Lemma same_ids_refl σ : same_ids σ σ.
Proof. intros path. by destruct (σ !! path); constructor. Qed.

Lemma same_ids_trans σ1 σ2 σ3 : same_ids σ1 σ2 → same_ids σ2 σ3 → same_ids σ1 σ3.
Proof.
  intros H H' path. specialize (H path). specialize (H' path).
  destruct H as [t1 t2 Ht|]; inversion H'; constructor. congruence.
Qed.

Lemma update_row_count sid l σ n σ' :
  update_row sid l σ = (inr n, σ') →
  (n ≤ 1)%nat ∧ (n = O → same_ids σ σ').
Proof.
  rewrite update_row_unfold. destruct (σ !! l.1) as [t|] eqn:E; [|done]. cbn zeta.
  destruct ((ensure_sid t).2 !! l.2) as [row|]; [|done].
  case_bool_decide; intros [= <- <-]; (split; [lia|]); [done|].
  intros _ path. destruct (decide (l.1 = path)) as [<-|Hne].
  - rewrite lookup_insert_eq, E. constructor. symmetry. apply ensure_sid_ids.
  - rewrite lookup_insert_ne by done. apply same_ids_refl.
Qed.

Lemma update_rows_count sid locs n σ n' σ' :
  update_rows sid locs n σ = (inr n', σ') →
  (n ≤ n')%nat ∧ (n' = n → same_ids σ σ').
Proof.
  revert n σ. induction locs as [|l locs IH]; intros n σ; simpl.
  - intros [= <- <-]. split; [done|]. intros _. apply same_ids_refl.
  - destruct (update_row sid l σ) as [[e|k] σ1] eqn:E; [done|].
    apply update_row_count in E as [Hk Hs]. intros H. apply IH in H as [Hn Hs'].
    split; [lia|]. intros ->.
    eapply same_ids_trans; [apply Hs; lia|apply Hs'; lia].
Qed.

Lemma update_loop_count bt ix keys cutoff pubs n σ n' σ' :
  update_loop bt ix keys cutoff pubs n σ = (inr n', σ') →
  (n ≤ n')%nat ∧ (n' = n → same_ids σ σ').
Proof.
  revert n σ. induction pubs as [|p pubs IH]; intros n σ; cbn [update_loop].
  - intros [= <- <-]. split; [done|]. intros _. apply same_ids_refl.
  - destruct (negb (truthy (scholar_id p))); [apply IH|].
    destruct (find_match bt _ keys cutoff) as [e|found]; [done|].
    destruct (negb (found_truthy found)); [apply IH|].
    destruct (index_get ix _) as [locs|]; [|done].
    destruct (update_rows (scholar_id p) locs n σ) as [[e|n1] σ1] eqn:E; [done|].
    apply update_rows_count in E as [Hk Hs]. intros H. apply IH in H as [Hn Hs'].
    split; [lia|]. intros ->.
    eapply same_ids_trans; [apply Hs; lia|apply Hs'; lia].
Qed.

(** X21. No identifier changes uncounted: when [update_scholar_ids]
    returns zero, every collection has the identifiers it had, row by row
    (a collection that gained the column reads "" where it had nothing). *)
Theorem update_scholar_ids_zero (bt : str → str → nat) (loaded_csv loaded_csv' : Loaded)
    (repo_index : Index) (scholar_pubs : list ScholarPub) (cutoff : Q) :
  update_scholar_ids bt loaded_csv repo_index scholar_pubs cutoff
    = (inr O, loaded_csv') →
  same_ids loaded_csv loaded_csv'.
Proof.
  unfold update_scholar_ids. intros H. apply update_loop_count in H as [_ H].
  by apply H.
Qed.

(** ** The shape of the tables *)

Lemma row_set_keys v r k :
  is_Some (cells (row_set (py "Scholar ID") v r) !! k) ↔
  k = py "Scholar ID" ∨ is_Some (cells r !! k).
Proof.
  unfold row_set. cbn [cells]. destruct (decide (py "Scholar ID" = k)) as [<-|Hne].
  - rewrite lookup_insert_eq. split; [by left|by eexists].
  - rewrite lookup_insert_ne by done. split; [by right|].
    intros [->|H]; done.
Qed.

Lemma row_setdefault_keys v r k :
  is_Some (cells (row_setdefault (py "Scholar ID") v r) !! k) ↔
  k = py "Scholar ID" ∨ is_Some (cells r !! k).
Proof.
  unfold row_setdefault. destruct (cells r !! py "Scholar ID") eqn:E.
  - split; [by right|]. intros [->|H]; [eexists; exact E|done].
  - apply row_set_keys.
Qed.

Lemma row_setdefault_rest v r : rest (row_setdefault (py "Scholar ID") v r) = rest r.
Proof. unfold row_setdefault. by destruct (cells r !! py "Scholar ID"). Qed.

Lemma ensure_sid_plain t : table_plain t → table_plain (ensure_sid t).
Proof.
  unfold ensure_sid. case_bool_decide as Hin; [done|].
  unfold table_plain. cbn [fst snd]. intros Hp. rewrite Forall_fmap.
  eapply Forall_impl; [exact Hp|]. intros r [Hr Hk]. cbn.
  split; [by rewrite row_setdefault_rest|].
  intros k Hs. apply row_setdefault_keys in Hs as [->|Hs]; apply elem_of_app.
  - right. by left.
  - left. by apply Hk.
Qed.

Lemma ensure_sid_exact t : table_exact t → table_exact (ensure_sid t).
Proof.
  unfold ensure_sid. case_bool_decide as Hin; [done|].
  intros [Hnd Hrows]. split; cbn [fst snd].
  - apply NoDup_app. split; [done|]. split; [|apply NoDup_singleton].
    intros k Hk Hk'. by apply list_elem_of_singleton in Hk' as ->.
  - rewrite Forall_fmap. eapply Forall_impl; [exact Hrows|].
    intros r Hr k. cbn beta. split.
    + intros Hs. apply row_setdefault_keys in Hs as [->|Hs]; apply elem_of_app;
        [right; by left|left; by apply Hr].
    + intros Hk. apply row_setdefault_keys.
      apply elem_of_app in Hk as [Hk|Hk]; [right; by apply Hr|left].
      by apply list_elem_of_singleton in Hk.
Qed.

Lemma update_row_shape (Q : Table → Prop) sid l σ :
  (∀ t, Q t → Q (ensure_sid t)) →
  (∀ h rows i row, Q (h, rows) → py "Scholar ID" ∈ h → rows !! i = Some row →
     Q (h, <[i := row_set (py "Scholar ID") sid row]> rows)) →
  (∀ path t, σ !! path = Some t → Q t) →
  ∀ path t, (update_row sid l σ).2 !! path = Some t → Q t.
Proof.
  intros Hens Hset Hσ path t. rewrite update_row_unfold.
  destruct (σ !! l.1) as [t0|] eqn:E; [|apply Hσ]. cbn zeta.
  pose proof (Hens t0 (Hσ _ _ E)) as H0. pose proof (ensure_sid_header t0) as Hh.
  destruct (ensure_sid t0) as [h rows]. cbn [fst snd] in *.
  assert (∀ t', Q t' → <[l.1 := t']> σ !! path = Some t → Q t) as Hins.
  { intros t' Ht'. destruct (decide (l.1 = path)) as [<-|Hne].
    - rewrite lookup_insert_eq. by intros [= <-].
    - rewrite lookup_insert_ne by done. apply Hσ. }
  destruct (rows !! l.2) as [row|] eqn:Er; [|by apply Hins].
  case_bool_decide; cbn [snd]; apply Hins; [by eapply Hset|done].
Qed.

Lemma update_row_plain sid l σ :
  (∀ path t, σ !! path = Some t → table_plain t) →
  ∀ path t, (update_row sid l σ).2 !! path = Some t → table_plain t.
Proof.
  apply update_row_shape; [apply ensure_sid_plain|].
  intros h rows i row Hp Hin Hi. unfold table_plain in *. cbn [fst snd] in *.
  apply Forall_insert; [done|].
  rewrite Forall_lookup in Hp. destruct (Hp i row Hi) as [Hr Hk].
  split; [done|]. intros k Hs. apply row_set_keys in Hs as [->|Hs]; [done|by apply Hk].
Qed.

Lemma update_row_exact sid l σ :
  (∀ path t, σ !! path = Some t → table_exact t) →
  ∀ path t, (update_row sid l σ).2 !! path = Some t → table_exact t.
Proof.
  apply update_row_shape; [apply ensure_sid_exact|].
  intros h rows i row [Hnd Hrows] Hin Hi. split; cbn [fst snd] in *; [done|].
  apply Forall_insert; [done|].
  rewrite Forall_lookup in Hrows. pose proof (Hrows i row Hi) as Hr.
  intros k. split.
  - intros Hs. apply row_set_keys in Hs as [->|Hs]; [done|by apply Hr].
  - intros Hk. apply row_set_keys. right. by apply Hr.
Qed.

(** X22. The update keeps the tables in shape: if in every collection the
    header names are distinct and every row has a value under each header
    name and under no other name (as [read_csv] makes them when the header
    has no repeated name), the same holds after [update_scholar_ids],
    however it ends. *)
Theorem update_scholar_ids_keeps_shape (bt : str → str → nat) (loaded_csv : Loaded)
    (repo_index : Index) (scholar_pubs : list ScholarPub) (cutoff : Q) :
  (∀ path t, loaded_csv !! path = Some t → table_exact t) →
  ∀ path t,
    (update_scholar_ids bt loaded_csv repo_index scholar_pubs cutoff).2 !! path = Some t →
    table_exact t.
Proof.
  intros H. unfold update_scholar_ids.
  apply (update_loop_preserves bt (λ σ, ∀ path t, σ !! path = Some t → table_exact t));
    [|done].
  intros sid l σ. apply update_row_exact.
Qed.

Lemma update_loop_plain bt ix keys cutoff pubs n σ :
  (∀ path t, σ !! path = Some t → table_plain t) →
  ∀ path t, (update_loop bt ix keys cutoff pubs n σ).2 !! path = Some t → table_plain t.
Proof.
  intros H.
  apply (update_loop_preserves bt (λ σ, ∀ path t, σ !! path = Some t → table_plain t));
    [|done].
  intros sid l σ'. apply update_row_plain.
Qed.


(** ** Reports, rewriting and [main] *)

Lemma report_row_fields p :
  dict_to_list report_fields (report_row p) = inr (report_line p).
Proof.
  apply dict_to_list_within; [done|].
  intros k [v Hv]. unfold report_row in Hv. cbn [cells] in Hv.
  repeat (apply lookup_insert_Some in Hv as [[<- _]|[_ Hv]];
          [apply (bool_decide_unpack _); vm_compute; exact I|]).
  by rewrite lookup_empty in Hv.
Qed.

Lemma writerows_report missing :
  writerows report_fields (map report_row missing) = (map report_line missing, None).
Proof.
  induction missing as [|p missing IH]; [done|].
  cbn [map writerows]. by rewrite report_row_fields, IH.
Qed.

Lemma write_missing_report_eq fs path missing :
  write_missing_report fs path missing
  = (None, <[path := report_fields :: map report_line missing]> fs).
Proof. unfold write_missing_report, write_csv. by rewrite writerows_report. Qed.



Lemma write_csv_other fs path headers rows q :
  path ≠ q → (write_csv fs path headers rows).2 !! q = fs !! q.
Proof.
  intros Hne. unfold write_csv. destruct (writerows headers rows) as [out e].
  cbn [snd]. by rewrite lookup_insert_ne.
Qed.

Lemma write_csv_plain fs path t :
  table_plain t → (write_csv fs path t.1 t.2).1 = None.
Proof. intros Hp. unfold write_csv. by rewrite writerows_plain. Qed.

Lemma write_back_other paths loaded fs q :
  q ∉ paths ∨ (∀ t, loaded !! q = Some t → py "Scholar ID" ∉ t.1) →
  (write_back paths loaded fs).2 !! q = fs !! q.
Proof.
  intros Hq. revert fs. induction paths as [|p paths IH]; intros fs;
    cbn [write_back]; [done|].
  assert (q ∉ paths ∨ (∀ t, loaded !! q = Some t → py "Scholar ID" ∉ t.1)) as Hq'.
  { destruct Hq as [Hq|Hq]; [left|by right]. intros ?. apply Hq. by right. }
  destruct (loaded !! p) as [[headers rows]|] eqn:E; [|by apply IH].
  case_bool_decide as Hin; [|by apply IH].
  assert (p ≠ q) as Hne.
  { intros ->. destruct Hq as [Hq|Hq]; [apply Hq; by left|by apply (Hq _ E)]. }
  pose proof (write_csv_other fs p headers rows q Hne) as Hw.
  destruct (write_csv fs p headers rows) as [[e|] fs1]; cbn [snd] in *; [done|].
  by rewrite IH.
Qed.

Lemma write_back_plain paths loaded fs :
  (∀ path t, loaded !! path = Some t → table_plain t) →
  (write_back paths loaded fs).1 = None.
Proof.
  intros Hp. revert fs. induction paths as [|p paths IH]; intros fs;
    cbn [write_back]; [done|].
  destruct (loaded !! p) as [[headers rows]|] eqn:E; [|by apply IH].
  case_bool_decide; [|by apply IH].
  pose proof (write_csv_plain fs p (headers, rows) (Hp _ _ E)) as Hw. cbn [fst snd] in Hw.
  destruct (write_csv fs p headers rows) as [[e|] fs1]; cbn [fst] in *; [done|].
  apply IH.
Qed.



Lemma dict_order_elem csv_files q : q ∈ dict_order csv_files ↔ q ∈ csv_files.
Proof.
  induction csv_files as [|p csv_files IH]; cbn [dict_order]; [done|].
  rewrite !elem_of_cons, list_elem_of_In, filter_In, <- list_elem_of_In, IH.
  rewrite negb_true_iff, bool_decide_eq_false.
  destruct (decide (q = p)); tauto.
Qed.


Lemma read_csv_files_exist fs matches p :
  p ∈ read_csv_files fs matches → is_Some (fs !! p).
Proof.
  unfold read_csv_files. rewrite list_elem_of_In, filter_In.
  intros [_ H]. by apply bool_decide_eq_true in H.
Qed.

Lemma read_csv_table_plain fs path raw t :
  fs !! path = Some raw → file_plain raw → read_csv fs path = inr t → table_plain t.
Proof.
  unfold read_csv. intros -> Hraw. destruct raw as [|headers data].
  - intros [= <-]. constructor.
  - intros [= <-]. unfold table_plain. cbn [fst snd].
    apply Forall_forall. intros r Hr.
    apply list_elem_of_fmap in Hr as (row & -> & Hrow).
    apply list_elem_of_In, filter_In in Hrow as [Hrow _]. apply list_elem_of_In in Hrow.
    cbn in Hraw. rewrite Forall_forall in Hraw.
    split; [by apply dict_reader_row_short, Hraw|].
    intros k. apply dict_reader_row_keys.
Qed.

Lemma read_csv_table_exact fs path t :
  read_csv fs path = inr t → NoDup t.1 → table_exact t.
Proof.
  destruct t as [headers rows]. intros Hr Hnd. split; [done|].
  by eapply read_csv_rows_keys_aux.
Qed.

(** ** [main] *)

Lemma load_feed_csvs args env w : csvs (load_feed args env w).2 = csvs w.
Proof.
  unfold load_feed. case_bool_decide.
  - by destruct (jsons w !! scholar_json args).
  - by destruct (fetch_scholar_live env (user_id args)).
Qed.


Lemma build_loaded_inv fs csv_files ix ld path t :
  build_repo_title_index fs csv_files = inr (ix, ld) → ld !! path = Some t →
  path ∈ csv_files ∧ read_csv fs path = inr t.
Proof.
  unfold build_repo_title_index. intros Hb Ht.
  rewrite (build_loop_loaded _ _ _ _ _ _ path Hb) in Ht.
  case_bool_decide as Hin; [|by rewrite lookup_empty in Ht].
  split; [done|]. destruct (read_csv fs path) as [e|t']; [done|]. by injection Ht as ->.
Qed.

Lemma read_csv_files_subset fs matches p :
  p ∈ read_csv_files fs matches → p ∈ matches.
Proof.
  unfold read_csv_files. rewrite !list_elem_of_In, filter_In. by intros [? _].
Qed.

Lemma load_feed_jsons args env w q :
  q ≠ export_json args → jsons (load_feed args env w).2 !! q = jsons w !! q.
Proof.
  intros Hq. unfold load_feed. case_bool_decide.
  - by destruct (jsons w !! scholar_json args).
  - destruct (fetch_scholar_live env (user_id args)); [done|].
    cbn [snd jsons]. by rewrite lookup_insert_ne.
Qed.

Lemma main_jsons bt args env w :
  jsons (main bt args env w).2 = jsons (load_feed args env w).2.
Proof.
  unfold main. destruct (load_feed args env w) as [[c|pubs] w1]; [done|]. cbn [snd].
  destruct pubs as [|pub pubs]; [done|].
  destruct (read_csv_files (csvs w1) (glob_sorted env (csv_glob args)))
    as [|p csv_files]; [done|].
  destruct (build_repo_title_index (csvs w1) (p :: csv_files)) as [e|[ix ld]]; [done|].
  destruct (compare bt (pub :: pubs) ix (fuzzy_cutoff args)) as [e|[m miss]]; [done|].
  rewrite write_missing_report_eq.
  destruct (update_scholar_id args); [|done].
  destruct (update_scholar_ids bt ld ix (pub :: pubs) (fuzzy_cutoff args))
    as [[e|n] ld']; [done|].
  by destruct (write_back _ ld' _) as [[e|] fs'].
Qed.



Lemma main_csvs_other bt args env w q :
  q ≠ missing_report args →
  update_scholar_id args = false ∨ q ∉ glob_sorted env (csv_glob args) →
  csvs (main bt args env w).2 !! q = csvs w !! q.
Proof.
  intros Hq Hlist. unfold main.
  pose proof (load_feed_csvs args env w) as Hc.
  destruct (load_feed args env w) as [[c|pubs] w1]; cbn [snd] in Hc;
    [by rewrite <- Hc|].
  destruct pubs as [|pub pubs]; [by rewrite <- Hc|].
  destruct (read_csv_files (csvs w1) (glob_sorted env (csv_glob args)))
    as [|p csv_files] eqn:Ef; [by rewrite <- Hc|].
  destruct (build_repo_title_index (csvs w1) (p :: csv_files)) as [e|[ix ld]];
    [by rewrite <- Hc|].
  destruct (compare bt (pub :: pubs) ix (fuzzy_cutoff args)) as [e|[m miss]];
    [by rewrite <- Hc|].
  rewrite write_missing_report_eq.
  assert ((<[missing_report args := report_fields :: map report_line miss]> (csvs w1))
            !! q = csvs w !! q) as Hr
    by (by rewrite lookup_insert_ne, Hc).
  destruct (update_scholar_id args) eqn:Eu; [|done].
  destruct Hlist as [|Hlist]; [done|].
  destruct (update_scholar_ids bt ld ix (pub :: pubs) (fuzzy_cutoff args))
    as [[e|n] ld']; [done|].
  pose proof (write_back_other (dict_order (p :: csv_files)) ld'
                (<[missing_report args := report_fields :: map report_line miss]> (csvs w1))
                q) as Hw.
  destruct (write_back _ ld' _) as [[e|] fs']; cbn [snd csvs] in *;
    (rewrite Hw; [exact Hr|]); left; rewrite dict_order_elem, <- Ef;
    intros Hin; by apply read_csv_files_subset in Hin.
Qed.

(** X26. What [main] writes: however the run ends, a file that is neither
    the export, nor the missing report, nor, in a run that annotates, one
    of the files the pattern matches is left as it was. *)
Theorem main_writes_only (bt : str → str → nat) (args : Args) (env : Env)
    (w : World) (q : Path) :
  q ≠ export_json args → q ≠ missing_report args →
  update_scholar_id args = false ∨ q ∉ glob_sorted env (csv_glob args) →
  csvs (main bt args env w).2 !! q = csvs w !! q ∧
  jsons (main bt args env w).2 !! q = jsons w !! q.
Proof.
  intros He Hq Hlist. split; [by apply main_csvs_other|].
  rewrite main_jsons. by apply load_feed_jsons.
Qed.

Lemma built_tables_shape fs csv_files ix ld :
  (∀ p raw, p ∈ csv_files → fs !! p = Some raw → file_plain raw) →
  build_repo_title_index fs csv_files = inr (ix, ld) →
  ∀ path t, ld !! path = Some t → table_plain t.
Proof.
  intros Hfiles Hb path t Ht.
  destruct (build_loaded_inv _ _ _ _ _ _ Hb Ht) as [Hin Hr].
  destruct (fs !! path) as [raw|] eqn:Eraw.
  - eapply read_csv_table_plain; [exact Eraw| |exact Hr]. by eapply Hfiles.
  - unfold read_csv in Hr. by rewrite Eraw in Hr.
Qed.

Lemma built_tables_exact fs csv_files ix ld :
  (∀ p raw, p ∈ csv_files → fs !! p = Some raw → file_distinct raw) →
  build_repo_title_index fs csv_files = inr (ix, ld) →
  ∀ path t, ld !! path = Some t → table_exact t.
Proof.
  intros Hfiles Hb path t Ht.
  destruct (build_loaded_inv _ _ _ _ _ _ Hb Ht) as [Hin Hr].
  eapply read_csv_table_exact; [exact Hr|].
  unfold read_csv in Hr. destruct (fs !! path) as [raw|] eqn:Eraw; [|done].
  pose proof (Hfiles _ _ Hin Eraw) as Hd. unfold file_distinct in Hd.
  destruct raw as [|headers data]; injection Hr as <-; [constructor|exact Hd].
Qed.

(** X27. With a cutoff in [0,1] and no data row longer than its header in
    the files the pattern matches, no exception of the program's own
    escapes [main]: whatever the feed and the flags, no [ValueError] from
    the matcher or the writer, no [KeyError], [IndexError] or
    [FileNotFoundError], and the run ends with an exit code. *)
Theorem main_completes (bt : str → str → nat) (args : Args) (env : Env) (w : World) :
  (0 <= fuzzy_cutoff args)%Q → (fuzzy_cutoff args <= 1)%Q →
  (∀ p raw, p ∈ glob_sorted env (csv_glob args) → csvs w !! p = Some raw →
     file_plain raw) →
  ∃ code w', main bt args env w = (Exit code, w').
Proof.
  intros H0 H1 Hfiles. unfold main.
  pose proof (load_feed_csvs args env w) as Hc.
  destruct (load_feed args env w) as [[c|pubs] w1]; cbn [snd] in Hc; [by eexists _, _|].
  destruct pubs as [|pub pubs]; [by eexists _, _|].
  destruct (read_csv_files (csvs w1) (glob_sorted env (csv_glob args)))
    as [|p csv_files] eqn:Ef; [by eexists _, _|].
  assert (∀ path, path ∈ p :: csv_files → is_Some (csvs w1 !! path)) as Hex.
  { intros path Hin. rewrite <- Ef in Hin. by eapply read_csv_files_exist. }
  destruct (build_loop_total (csvs w1) (p :: csv_files) [] ∅ Hex) as [[ix ld] Eb].
  change (build_loop (csvs w1) (p :: csv_files) [] ∅)
    with (build_repo_title_index (csvs w1) (p :: csv_files)) in Eb.
  rewrite Eb.
  destruct (compare_loop_total bt (index_keys ix) (fuzzy_cutoff args) (pub :: pubs)
              [] O H0 H1) as [[m miss] Ec].
  change (compare_loop bt (index_keys ix) (fuzzy_cutoff args) (pub :: pubs) [] O)
    with (compare bt (pub :: pubs) ix (fuzzy_cutoff args)) in Ec.
  rewrite Ec, write_missing_report_eq.
  destruct (update_scholar_id args); [|by eexists _, _].
  assert (index_wf ix ld) as Hwf.
  { eapply build_loop_wf; [| |exact Eb].
    - intros path t Ht. by rewrite lookup_empty in Ht.
    - intros key locs Hel. by apply elem_of_nil in Hel. }
  destruct (update_scholar_ids_total bt ld ix (pub :: pubs) (fuzzy_cutoff args)
              Hwf H0 H1) as (n & ld' & Eu).
  rewrite Eu.
  assert (∀ path t, ld' !! path = Some t → table_plain t) as Hplain.
  { replace ld' with (update_scholar_ids bt ld ix (pub :: pubs) (fuzzy_cutoff args)).2
      by (by rewrite Eu).
    apply update_loop_plain. eapply built_tables_shape; [|exact Eb].
    intros q raw Hq Hraw. apply (Hfiles q); [|by rewrite <- Hc].
    rewrite <- Ef in Hq. by apply read_csv_files_subset in Hq. }
  pose proof (write_back_plain (dict_order (p :: csv_files)) ld'
                (<[missing_report args := report_fields :: map report_line miss]> (csvs w1))
                Hplain) as Hw.
  destruct (write_back _ ld' _) as [[e|] fs']; cbn [fst] in Hw; [done|].
  by eexists _, _.
Qed.


(** ** The further properties at sample inputs *)

Lemma sample_fs_files p raw :
  p ∈ ["pubs.csv"] → sample_fs !! p = Some raw → file_plain raw ∧ file_distinct raw.
Proof.
  intros Hp. apply list_elem_of_singleton in Hp as ->.
  vm_compute. intros [= <-]. split.
  - repeat constructor.
  - repeat constructor; intros H; repeat (apply elem_of_cons in H as [H|H]; [done|]);
      by apply elem_of_nil in H.
Defined.

Lemma load_scholar_from_json_tidy_witness :
  tidy_pub (mk_pub "graph coloring revisited!" "abc123").
Proof.
  apply (load_scholar_from_json_tidy (export_payload sample_feed)).
  assert (load_scholar_from_json (export_payload sample_feed) = sample_feed) as ->
    by (vm_compute; reflexivity).
  unfold sample_feed. by left.
Defined.

Lemma load_scholar_live_tidy_witness :
  tidy_pub {| title := py "graph coloring revisited!"; scholar_id := py "abc123";
              year := py "2020"; venue := []; source := py "live" |} ∧
  source {| title := py "graph coloring revisited!"; scholar_id := py "abc123";
            year := py "2020"; venue := []; source := py "live" |} = py "live".
Proof.
  apply (load_scholar_live_tidy
           [ {| raw_title := Some (py "  graph coloring revisited! ");
                raw_id := Some (py "abc123"); raw_year := Some (py "2020");
                raw_venue := None; raw_source := None |};
             {| raw_title := Some (py "   "); raw_id := Some (py "zzz");
                raw_year := None; raw_venue := None; raw_source := None |} ]).
  vm_compute. by left.
Defined.

Lemma read_csv_rows_keys_witness :
  Forall (λ r, ∀ k, is_Some (cells r !! k) ↔ k ∈ sample_table.1) sample_table.2.
Proof.
  apply (read_csv_rows_keys sample_fs "pubs.csv"). vm_compute. reflexivity.
Defined.

Lemma dict_reader_row_field_witness :
  row_get (py "Year") (dict_reader_row [py "Title"; py "Year"] [py "Sparse Matrix Inversion"])
  = [].
Proof.
  apply (dict_reader_row_field [py "Title"; py "Year"] [py "Sparse Matrix Inversion"] 1).
  - apply (bool_decide_unpack _). vm_compute. exact I.
  - reflexivity.
Defined.

Lemma dict_to_list_reads_back_witness :
  dict_to_list [py "Title"; py "Year"]
    (dict_reader_row [py "Title"; py "Year"] [py "Sparse Matrix Inversion"])
  = inr ([py "Sparse Matrix Inversion"] ++ replicate (2 - 1) []).
Proof.
  apply (dict_to_list_reads_back [py "Title"; py "Year"] [py "Sparse Matrix Inversion"]).
  - apply (bool_decide_unpack _). vm_compute. exact I.
  - simpl. lia.
Defined.

Lemma writerows_stops_at_surplus_witness :
  writerows [py "Title"] ([short_row] ++ long_row :: [short_row])
  = (map (row_fields [py "Title"]) [short_row], Some ValueError).
Proof.
  apply writerows_stops_at_surplus.
  - constructor; [|constructor]. split; [reflexivity|].
    intros k. apply dict_reader_row_keys.
  - discriminate.
Defined.



Lemma build_repo_title_index_complete_witness :
  indexed sample_index (py "sparsematrixinversion") ("pubs.csv", 1%nat).
Proof.
  change (py "sparsematrixinversion")
    with (normalize_title
            (row_get (py "Title")
               (default {| cells := ∅; rest := None |} (sample_table.2 !! 1%nat)))).
  apply (build_repo_title_index_complete sample_fs ["pubs.csv"] sample_index sample_loaded
           "pubs.csv" sample_table.1 sample_table.2 1
           (default {| cells := ∅; rest := None |} (sample_table.2 !! 1%nat))).
  - vm_compute. reflexivity.
  - by left.
  - vm_compute. reflexivity.
  - apply (bool_decide_unpack _). vm_compute. exact I.
  - vm_compute. reflexivity.
  - vm_compute. discriminate.
Defined.

Lemma build_repo_title_index_loaded_witness :
  sample_loaded !! "pubs.csv" = Some sample_table ↔
  "pubs.csv" ∈ ["pubs.csv"] ∧ read_csv sample_fs "pubs.csv" = inr sample_table.
Proof.
  apply (build_repo_title_index_loaded sample_fs ["pubs.csv"] sample_index sample_loaded).
  vm_compute. reflexivity.
Defined.

Lemma find_match_returns_candidate_witness :
  py "graphcoloringrevisited" ∈ index_keys sample_index.
Proof.
  apply (find_match_returns_candidate matching_total (py "graphcoloringrevisted")
           (index_keys sample_index) (94 # 100)).
  vm_compute. reflexivity.
Defined.

Lemma find_match_returns_best_witness :
  (94 # 100 <= ratio matching_total (py "graphcoloringrevisited")
                 (py "graphcoloringrevisted"))%Q ∧
  ∀ y, y ∈ index_keys sample_index →
    (ratio matching_total y (py "graphcoloringrevisted")
     <= ratio matching_total (py "graphcoloringrevisited") (py "graphcoloringrevisted"))%Q.
Proof.
  apply (find_match_returns_best matching_total (py "graphcoloringrevisted")
           (index_keys sample_index) (94 # 100) (py "graphcoloringrevisited")
           matching_total_le_quick).
  - apply (bool_decide_unpack _). vm_compute. exact I.
  - vm_compute. reflexivity.
Defined.

Lemma find_match_order_independent_witness :
  find_match matching_total (py "abcd") [py "abcy"; py "abcx"] (1 # 2)
  = find_match matching_total (py "abcd") [py "abcx"; py "abcy"] (1 # 2).
Proof. apply find_match_order_independent, perm_swap. Defined.

Lemma sample_index_wf : index_wf sample_index sample_loaded.
Proof.
  apply (build_loop_wf sample_fs ["pubs.csv"] [] ∅).
  - intros path t Ht. by rewrite lookup_empty in Ht.
  - intros key locs Hel. by apply elem_of_nil in Hel.
  - vm_compute. reflexivity.
Defined.

Lemma update_scholar_ids_returns_witness :
  ∃ n loaded_csv',
    update_scholar_ids matching_total sample_loaded sample_index sample_feed (94 # 100)
    = (inr n, loaded_csv').
Proof.
  apply update_scholar_ids_returns; [apply sample_index_wf| |]; unfold Qle; simpl; lia.
Defined.

Lemma sample_feed_targets p l :
  p ∈ sample_feed → l ∈ targets matching_total split_index (94 # 100) p → l.1 ≠ "b.csv".
Proof.
  intros Hp. repeat (apply elem_of_cons in Hp as [->|Hp]); [| |by apply elem_of_nil in Hp].
  - vm_compute targets. intros Hl. apply list_elem_of_singleton in Hl as ->. done.
  - vm_compute targets. intros Hl. by apply elem_of_nil in Hl.
Defined.

Lemma update_scholar_ids_unreached_table_witness :
  (update_scholar_ids matching_total split_loaded split_index sample_feed (94 # 100)).2
    !! "b.csv"
  = split_loaded !! "b.csv".
Proof. apply update_scholar_ids_unreached_table, sample_feed_targets. Defined.

Lemma sample_feed_misses p :
  p ∈ sample_feed →
  ("pubs.csv", 1%nat) ∉ targets matching_total sample_index (94 # 100) p.
Proof.
  intros Hp. repeat (apply elem_of_cons in Hp as [->|Hp]); [| |by apply elem_of_nil in Hp];
    apply (bool_decide_unpack _); vm_compute; exact I.
Defined.

Lemma update_scholar_ids_unreached_row_witness :
  row_kept (annotated sample_feed) ("pubs.csv", 1%nat)
    (default {| cells := ∅; rest := None |} (sample_table.2 !! 1%nat)).
Proof.
  apply (update_scholar_ids_unreached_row matching_total sample_loaded sample_index
           sample_feed (94 # 100) ("pubs.csv", 1%nat) sample_table.1 sample_table.2).
  - vm_compute. reflexivity.
  - vm_compute. reflexivity.
  - apply sample_feed_misses.
Defined.

Lemma update_scholar_ids_writes_ids_witness :
  holds_id (annotated sample_feed) ("pubs.csv", O) (py "abc123").
Proof.
  apply (update_scholar_ids_writes_ids matching_total sample_loaded (annotated sample_feed)
           sample_index sample_feed (94 # 100) 1
           (mk_pub "graph coloring revisited!" "abc123") ("pubs.csv", O)
           sample_feed_stripped sample_feed_consistent).
  - vm_compute. reflexivity.
  - by left.
  - apply (bool_decide_unpack _). vm_compute. exact I.
Defined.

Lemma update_scholar_ids_skips_no_id_witness :
  update_scholar_ids matching_total sample_loaded sample_index
    ([mk_pub "Completely Unrelated Paper" "zzz"]
       ++ mk_pub "Sparse Matrix Inversion" "" :: sample_feed) 0
  = update_scholar_ids matching_total sample_loaded sample_index
      ([mk_pub "Completely Unrelated Paper" "zzz"] ++ sample_feed) 0.
Proof. apply update_scholar_ids_skips_no_id. reflexivity. Defined.

Lemma update_scholar_ids_zero_witness :
  same_ids (annotated sample_feed)
    (update_scholar_ids matching_total (annotated sample_feed) sample_index
       sample_feed (94 # 100)).2.
Proof.
  apply (update_scholar_ids_zero matching_total (annotated sample_feed) _ sample_index
           sample_feed (94 # 100)).
  vm_compute. reflexivity.
Defined.

Lemma sample_loaded_exact path t : sample_loaded !! path = Some t → table_exact t.
Proof.
  apply (built_tables_exact sample_fs ["pubs.csv"] sample_index sample_loaded).
  - intros p raw Hp Hraw. by destruct (sample_fs_files p raw Hp Hraw).
  - vm_compute. reflexivity.
Defined.

Lemma update_scholar_ids_keeps_shape_witness : table_exact (annotated_table sample_feed).
Proof.
  apply (update_scholar_ids_keeps_shape matching_total sample_loaded sample_index
           sample_feed (94 # 100) sample_loaded_exact "pubs.csv").
  vm_compute. reflexivity.
Defined.


Lemma main_writes_only_witness :
  csvs (main matching_total sample_args sample_env sample_world).2 !! "notes.csv"
  = csvs sample_world !! "notes.csv" ∧
  jsons (main matching_total sample_args sample_env sample_world).2 !! "notes.csv"
  = jsons sample_world !! "notes.csv".
Proof.
  apply main_writes_only.
  - discriminate.
  - discriminate.
  - right. apply (bool_decide_unpack _). vm_compute. exact I.
Defined.

Lemma main_completes_witness :
  ∃ code w', main matching_total sample_args sample_env sample_world = (Exit code, w').
Proof.
  apply main_completes.
  - unfold Qle; simpl; lia.
  - unfold Qle; simpl; lia.
  - intros p raw Hp Hraw. by destruct (sample_fs_files p raw Hp Hraw).
Defined.


(** A whole run on the sample files: one record is matched and annotated,
    the other is reported missing. *)
Example sample_run :
  let r := main matching_total sample_args sample_env sample_world in
  r.1 = Exit 0 ∧
  csvs r.2 !! "reports/scholar-missing.csv"
    = Some [report_fields; report_line (mk_pub "Completely Unrelated Paper" "zzz")] ∧
  csvs r.2 !! "pubs.csv"
    = Some [ [py "Title"; py "Year"; py "Scholar ID"];
             [py "Graph Coloring Revisited"; py "2020"; py "abc123"];
             [py "Sparse Matrix Inversion"; []; []] ].
Proof. vm_compute. done. Qed.
